(** * The Kusto expression compiler of the Azure Data Explorer datasource

    A shallow embedding of [src/KustoExpressionParser.ts] (class
    [KustoExpressionParser] and the helper functions below it), with the
    properties of the compiler that its specification states.

    Conventions of the embedding:
    - a JavaScript string is a [string]; its characters are code units
      below 256, so the only line terminators are LF and CR;
    - [toQuery] never writes to its input, so the expression tree is an
      immutable value there; the autocomplete path writes to an array
      after [cloneDeep], and is modelled over an explicit object store
      (module [Store]);
    - every stage builder pushes onto the [parts] array it is given: a
      builder is a function from the array before to the array after. *)

From Stdlib Require Import Ascii ZArith Lia Bool.
From stdpp Require Import base list strings.

Local Open Scope Z_scope.
Local Open Scope nat_scope.
Local Set Warnings "-register-all".

(** ** Strings as the source uses them *)

Module Js.

(** The line feed of the stage separator ["\n| "]. *)
Definition LF : ascii := Ascii.ascii_of_nat 10.
Definition CR : ascii := Ascii.ascii_of_nat 13.

(** [Array.prototype.join]. *)
Definition join (sep : string) (l : list string) : string := String.concat sep l.

(** [String.prototype.split] with a one-character separator: the empty
    string splits into one empty piece. *)
Fixpoint split (sep : ascii) (s : string) : list string :=
  match s with
  | EmptyString => [EmptyString]
  | String c s' =>
      if Ascii.eqb c sep then EmptyString :: split sep s'
      else match split sep s' with
           | [] => [String c EmptyString]
           | w :: ws => String c w :: ws
           end
  end.

(** [hay.indexOf(needle) > -1]. *)
Definition includes (needle hay : string) : bool :=
  match String.index 0 needle hay with
  | Some _ => true
  | None => false
  end.

(** Truthiness of a string: only the empty string is falsy. *)
Definition truthy (s : string) : bool := negb (String.eqb s "").

(** A value that is a string or [undefined], as a template literal
    prints it. *)
Definition show (o : option string) : string :=
  match o with
  | Some s => s
  | None => "undefined"
  end.

(** Truthiness of a string that may be [undefined] or [null]. *)
Definition truthy_opt (o : option string) : bool :=
  match o with
  | Some s => truthy s
  | None => false
  end.

(** [Array.prototype.reduce] with an initial value: the callback gets the
    accumulator, the element and its index. *)
Fixpoint reduce_from {A B : Type} (f : B -> A -> nat -> B) (l : list A)
    (index : nat) (acc : B) : B :=
  match l with
  | [] => acc
  | x :: l' => reduce_from f l' (S index) (f acc x index)
  end.

Definition reduce {A B : Type} (f : B -> A -> nat -> B) (l : list A) (init : B) : B :=
  reduce_from f l 0 init.

Definition isDigit (c : ascii) : bool :=
  (48 <=? Ascii.nat_of_ascii c) && (Ascii.nat_of_ascii c <=? 57).

Definition isLineTerminator (c : ascii) : bool :=
  Ascii.eqb c LF || Ascii.eqb c CR.

(** Every character of a string passes a test. *)
Fixpoint every (p : ascii -> bool) (s : string) : bool :=
  match s with
  | EmptyString => true
  | String c s' => p c && every p s'
  end.

(** The pieces of a string between its line terminators. *)
Fixpoint lines (s : string) : list string :=
  match s with
  | EmptyString => [EmptyString]
  | String c s' =>
      if isLineTerminator c then EmptyString :: lines s'
      else match lines s' with
           | [] => [String c EmptyString]
           | w :: ws => String c w :: ws
           end
  end.

(** The value of a string of decimal digits, [None] when the string is
    empty or has another character. *)
Fixpoint digitsValue_from (acc : N) (s : string) : option N :=
  match s with
  | EmptyString => Some acc
  | String c s' =>
      if isDigit c
      then digitsValue_from (acc * 10 + (Ascii.N_of_ascii c - 48))%N s'
      else None
  end.

Definition digitsValue (s : string) : option N :=
  match s with
  | EmptyString => None
  | _ => digitsValue_from 0%N s
  end.

(** A value that is a string, [undefined] or [null]. *)
Inductive maybe := Str (s : string) | Undefined | Null.

(** How a template literal prints it. *)
Definition print (m : maybe) : string :=
  match m with
  | Str s => s
  | Undefined => "undefined"
  | Null => "null"
  end.

(** [array[i]] on an array of strings. *)
Definition at_index (l : list string) (i : Z) : maybe :=
  if (i <? 0)%Z then Undefined
  else match l !! Z.to_nat i with
       | Some s => Str s
       | None => Undefined
       end.

End Js.

(** ** Regular expressions

    The one regular expression of the compiler has no star: a matcher by
    derivatives decides it. *)
Module Regex.

Inductive re :=
| Void
| Eps
| Class (p : ascii -> bool)
| Seq (r1 r2 : re)
| Alt (r1 r2 : re).

Fixpoint nullable (r : re) : bool :=
  match r with
  | Void => false
  | Eps => true
  | Class _ => false
  | Seq r1 r2 => nullable r1 && nullable r2
  | Alt r1 r2 => nullable r1 || nullable r2
  end.

Fixpoint deriv (c : ascii) (r : re) : re :=
  match r with
  | Void => Void
  | Eps => Void
  | Class p => if p c then Eps else Void
  | Seq r1 r2 =>
      if nullable r1 then Alt (Seq (deriv c r1) r2) (deriv c r2)
      else Seq (deriv c r1) r2
  | Alt r1 r2 => Alt (deriv c r1) (deriv c r2)
  end.

(** The whole string is in the language of [r]. *)
Fixpoint matches (r : re) (s : string) : bool :=
  match s with
  | EmptyString => nullable r
  | String c s' => matches (deriv c r) s'
  end.

(** A literal word. *)
Fixpoint lit (w : string) : re :=
  match w with
  | EmptyString => Eps
  | String c w' => Seq (Class (Ascii.eqb c)) (lit w')
  end.

(** [r{0,n}]. *)
Fixpoint upto (n : nat) (r : re) : re :=
  match n with
  | 0 => Eps
  | S n' => Alt Eps (Seq r (upto n' r))
  end.

(** [r{lo,hi}]. *)
Fixpoint repeat (lo hi : nat) (r : re) : re :=
  match lo with
  | 0 => upto hi r
  | S lo' => Seq r (repeat lo' (pred hi) r)
  end.

(** The language of a regular expression. *)
Fixpoint denote (r : re) (s : string) : Prop :=
  match r with
  | Void => False
  | Eps => s = EmptyString
  | Class p => exists c, s = String c EmptyString /\ p c = true
  | Seq r1 r2 => exists s1 s2, s = s1 +:+ s2 /\ denote r1 s1 /\ denote r2 s2
  | Alt r1 r2 => denote r1 s \/ denote r2 s
  end.

(** [RegExp.prototype.test] for a pattern [^(r)$] with the [m] flag, where
    [r] matches no line terminator: some line of the input is in the
    language of [r]. *)
Definition test_anchored_multiline (r : re) (value : string) : bool :=
  existsb (matches r) (Js.lines value).

End Regex.

(** ** Data model *)

(** Modelled from the spec: the module [editor/expressions], with the enum
    [QueryEditorPropertyType] of [editor/types], is not part of the
    sources at hand. Per section 3 of the specification a property type
    is one of seven tags. *)
Module QueryEditorPropertyType.
Inductive t := Number | String | Boolean | DateTime | Dynamic | Function | Interval.
End QueryEditorPropertyType.

(** A literal of an operator or of a function parameter: a scalar, carried
    by the text a template literal prints for it, or an array of
    literals. The values [null] and [undefined] are outside the model: a
    template literal prints them by name, [Array.join] prints them as the
    empty text, so no one text carries them. *)
Inductive Value :=
| VScalar (text : string)
| VArray (items : list Value).

(** [QueryEditorProperty]: a column reference [{name, type}]. *)
Record QueryEditorProperty := mkProperty {
  prop_name : string;
  prop_type : QueryEditorPropertyType.t
}.

(** [QueryEditorOperator]: [{name, value}]. *)
Record QueryEditorOperator := mkOperator {
  op_name : string;
  op_value : Value
}.

(** [QueryEditorFunctionParameterExpression]: the compiler reads [value]
    and [fieldType]. *)
Record QueryEditorFunctionParameterExpression := mkParameter {
  param_value : Value;
  param_fieldType : QueryEditorPropertyType.t
}.

Inductive Combinator := And | Or.

(** Modelled from the spec: the expression variants of
    [editor/expressions] and the guards of [editor/guards]
    ([isReduceExpression], [isFieldAndOperator], [isGroupBy],
    [isOrExpression], [isAndExpression], [isArrayExpression]) are not part
    of the sources at hand. Per sections 3 and 9 of the specification the
    variants form a closed sum, and a guard tests the variant tag: a
    guard of the source is a pattern match on the variant here. The
    fields are the ones the compiler reads: [property], [operator],
    [reduce], [parameters], [interval], [expressions]. Objects are as
    their TypeScript types declare them, so [property] is always there
    and the [!x.property] tests of the source never fire. *)
Inductive QueryEditorExpression :=
| PropertyExpression (property : QueryEditorProperty)
| OperatorExpression (property : QueryEditorProperty) (operator : QueryEditorOperator)
| ReduceExpression (property : QueryEditorProperty) (reduce : QueryEditorProperty)
    (parameters : option (list QueryEditorFunctionParameterExpression))
| GroupByExpression (property : QueryEditorProperty) (interval : option QueryEditorProperty)
| ArrayExpression (combinator : Combinator) (expressions : list QueryEditorExpression).

(** [QueryEditorArrayExpression]: the type of [where], [reduce] and
    [groupBy]. *)
Record QueryEditorArrayExpression := mkArray {
  arr_type : Combinator;
  expressions : list QueryEditorExpression
}.

Definition asExpression (a : QueryEditorArrayExpression) : QueryEditorExpression :=
  ArrayExpression (arr_type a) (expressions a).

(** [QueryEditorPropertyExpression]: the type of [from], [timeshift] and
    [smoothing]. *)
Record QueryEditorPropertyExpression := mkPropertyExpression {
  pe_property : QueryEditorProperty
}.

(** [QueryExpression] of [src/types.ts]. *)
Record QueryExpression := mkQuery {
  from : option QueryEditorPropertyExpression;
  where_ : QueryEditorArrayExpression;
  reduce : QueryEditorArrayExpression;
  groupBy : QueryEditorArrayExpression;
  timeshift : option QueryEditorPropertyExpression;
  smoothing : option QueryEditorPropertyExpression
}.

(** [AdxColumnSchema] of [src/types.ts]. *)
Record AdxColumnSchema := mkColumn {
  Name : string;
  CslType : string
}.

(** [TemplateSrv]: the compiler only calls [getVariables] and reads the
    [id] of each variable; [None] stands for a result that is no array. *)
Record TemplateSrv := mkTemplateSrv {
  getVariables : option (list string)
}.

(** [ParseContext]. *)
Record ParseContext := mkContext {
  timeColumn : option string;
  ctx_castIfDynamic : string -> string
}.

(** ** Column resolver *)

(** [isDynamic]. *)
Definition isDynamic (column : string) : bool :=
  (Js.truthy column && Js.includes "." column)
  || (Js.truthy column && Js.includes "todynamic" column).

(** [toDynamic]: the dotted path folded into nested casts. *)
Definition toDynamic (column : AdxColumnSchema) : string :=
  let parts := Js.split "." (Name column) in
  Js.reduce
    (fun (result part : string) (index : nat) =>
       if negb (Js.truthy result) then "todynamic(" +:+ part +:+ ")"
       else if index + 1 =? length parts
       then "to" +:+ CslType column +:+ "(" +:+ result +:+ "." +:+ part +:+ ")"
       else "todynamic(" +:+ result +:+ "." +:+ part +:+ ")")
    parts "".

(** [castIfDynamic]; [tableSchema] is [None] when the caller passes no
    array. *)
Definition castIfDynamic (column : string) (tableSchema : option (list AdxColumnSchema))
    : string :=
  match tableSchema with
  | None => column
  | Some schema =>
      if negb (isDynamic column) then column
      else match find (fun c => String.eqb (Name c) column) schema with
           | None => column
           | Some columnSchema => toDynamic columnSchema
           end
  end.

Definition isDateTime (t : QueryEditorPropertyType.t) : bool :=
  match t with
  | QueryEditorPropertyType.DateTime => true
  | _ => false
  end.

(** [defaultTimeColumn]. *)
Definition defaultTimeColumn (columns : option (list AdxColumnSchema))
    (expression : QueryExpression) : option string :=
  let groupByTimeColumn :=
    find (fun exp =>
            match exp with
            | GroupByExpression property (Some _) => isDateTime (prop_type property)
            | _ => false
            end)
         (expressions (groupBy expression)) in
  match groupByTimeColumn with
  | Some (GroupByExpression property _) => Some (castIfDynamic (prop_name property) columns)
  | _ =>
      match columns with
      | None => None
      | Some cols =>
          match find (fun col => String.eqb (CslType col) "datetime"
                                 && negb (Js.includes "." (Name col))) cols with
          | Some firstLevelColumn => Some (Name firstLevelColumn)
          | None =>
              match find (fun col => String.eqb (CslType col) "datetime") cols with
              | None => None
              | Some column => Some (toDynamic column)
              end
          end
      end
  end.

(** ** Time-shift and smoothing detection *)

Definition unitPattern : Regex.re :=
  Regex.Alt (Regex.lit "d")
    (Regex.Alt (Regex.lit "h")
       (Regex.Alt (Regex.lit "ms")
          (Regex.Alt (Regex.lit "s") (Regex.lit "m")))).

(** The body of [/^(\d{1,15}(?:d|h|ms|s|m){0,1})$/gm]. *)
Definition timeSpanPattern : Regex.re :=
  Regex.Seq (Regex.repeat 1 15 (Regex.Class Js.isDigit))
            (Regex.repeat 0 1 unitPattern).

(** [isValidTimeSpan]: the regular expression is a literal of the function
    body, so every call tests from the start of the string. *)
Definition isValidTimeSpan (value : string) : bool :=
  Regex.test_anchored_multiline timeSpanPattern value.

(** [detectTimeshift]. *)
Definition detectTimeshift (context : ParseContext)
    (timeshift : option QueryEditorPropertyExpression) : option string :=
  match timeshift with
  | None => None
  | Some ts =>
      if negb (Js.truthy_opt (timeColumn context)) then None
      else
        let timeshiftWith := prop_name (pe_property ts) in
        if negb (isValidTimeSpan timeshiftWith) then None
        else Some timeshiftWith
  end.

(** [detectSmoothing]. *)
Definition detectSmoothing (smoothing : option QueryEditorPropertyExpression)
    : option string :=
  match smoothing with
  | None => None
  | Some sm => Some (prop_name (pe_property sm))
  end.

(** lodash's [toInteger] on a string of decimal digits, the only strings
    the compiler passes (the literal ["1"]); any other string is outside
    this model and goes to 0, as a string that is no number does. *)
Definition toInteger (weight : string) : Z :=
  match Js.digitsValue weight with
  | Some n => Z.of_N n
  | None => 0%Z
  end.

Definition ewmaWeights : list string := ["0.7"; "0.5"; "0.3"; "0.1"].
Definition medianWeights : list string := ["3"; "5"; "7"; "9"].

(** [translateSmoothingWeight]. *)
Definition translateSmoothingWeight (smoothing weight : string) : Js.maybe :=
  if String.eqb smoothing "median" then Js.at_index medianWeights (toInteger weight)
  else if String.eqb smoothing "ewma" then Js.at_index ewmaWeights (toInteger weight)
  else Js.Null.

(** ** The stage builders of [KustoExpressionParser] *)

(** [withPrefix]. *)
Definition withPrefix (value : string) (prefix : option string) : string :=
  match prefix with
  | Some p => if Js.truthy p then p +:+ " " +:+ value else value
  | None => value
  end.

Section Builders.

(** The template service the parser is constructed with. *)
Variable templateSrv : TemplateSrv.

(** [isTemplateVariable]. *)
Definition isTemplateVariable (value : string) : bool :=
  match getVariables templateSrv with
  | None => false
  | Some variables => existsb (fun id => String.eqb ("$" +:+ id) value) variables
  end.

(** [formatValue]. *)
Fixpoint formatValue (value : Value) (type : QueryEditorPropertyType.t) : string :=
  match value with
  | VArray items =>
      "(" +:+ Js.join ", " (map (fun v => formatValue v type) items) +:+ ")"
  | VScalar text =>
      if isTemplateVariable text then text
      else match type with
           | QueryEditorPropertyType.Number
           | QueryEditorPropertyType.Boolean => text
           | _ => "'" +:+ text +:+ "'"
           end
  end.

(** [appendProperty]. *)
Definition appendProperty (context : ParseContext)
    (expression : QueryEditorPropertyExpression) (parts : list string) : list string :=
  parts ++ [prop_name (pe_property expression)].

(** [appendOperator]. *)
Definition appendOperator (context : ParseContext)
    (property : QueryEditorProperty) (operator : QueryEditorOperator)
    (parts : list string) (prefix : option string) : list string :=
  if negb (Js.truthy (prop_name property)) || negb (Js.truthy (op_name operator))
  then parts
  else if String.eqb (op_name operator) "isnotempty"
  then parts ++ [withPrefix (op_name operator +:+ "(" +:+ prop_name property +:+ ")") prefix]
  else
    let value := formatValue (op_value operator) (prop_type property) in
    parts ++ [withPrefix (prop_name property +:+ " " +:+ op_name operator +:+ " " +:+ value)
                         prefix].

(** [appendWhere]: an And node passes its prefix on to every child; an Or
    node collects its children, lowered without prefix, in a buffer of
    its own. *)
Fixpoint appendWhere (context : ParseContext) (expression : QueryEditorExpression)
    (parts : list string) (prefix : option string) {struct expression} : list string :=
  match expression with
  | ArrayExpression And exps =>
      fold_left (fun ps exp => appendWhere context exp ps prefix) exps parts
  | ArrayExpression Or exps =>
      let orParts := fold_left (fun ps exp => appendWhere context exp ps None) exps [] in
      match orParts with
      | [] => parts
      | _ => parts ++ ["where " +:+ Js.join " or " orParts]
      end
  | OperatorExpression property operator =>
      appendOperator context property operator parts prefix
  | _ => parts
  end.

(** [appendTimeshift]. *)
Definition appendTimeshift (context : ParseContext)
    (expression : option QueryEditorPropertyExpression) (parts : list string)
    : list string :=
  let timeshift := detectTimeshift context expression in
  if negb (Js.truthy_opt timeshift) then parts
  else parts ++ ["extend " +:+ Js.show (timeColumn context) +:+ " = "
                 +:+ Js.show (timeColumn context) +:+ " + " +:+ Js.show timeshift].

(** [appendTimeFilter]. *)
Definition appendTimeFilter (context : ParseContext)
    (expression : option QueryEditorPropertyExpression) (parts : list string)
    : list string :=
  if negb (Js.truthy_opt (timeColumn context)) then parts
  else
    let timeshift := detectTimeshift context expression in
    if Js.truthy_opt timeshift
    then parts ++ ["where " +:+ Js.show (timeColumn context) +:+ " between (($__timeFrom - "
                   +:+ Js.show timeshift +:+ ") .. ($__timeTo - " +:+ Js.show timeshift +:+ "))"]
    else if isDynamic (Js.show (timeColumn context))
    then parts ++ ["where " +:+ Js.show (timeColumn context)
                   +:+ " between ($__timeFrom .. $__timeTo)"]
    else parts ++ ["where $__timeFilter(" +:+ Js.show (timeColumn context) +:+ ")"].

(** [appendOrderBy]. *)
Definition appendOrderBy (context : ParseContext)
    (groupBy reduce : QueryEditorArrayExpression) (parts : list string) : list string :=
  if negb (Js.truthy_opt (timeColumn context)) then parts
  else
    let noGroupBy := length (expressions groupBy) =? 0 in
    let noReduce := length (expressions reduce) =? 0 in
    if noGroupBy && noReduce
    then parts ++ ["order by " +:+ Js.show (timeColumn context) +:+ " asc"]
    else
      let hasInterval :=
        find (fun exp =>
                match exp with
                | GroupByExpression _ (Some _) => true
                | _ => false
                end)
             (expressions groupBy) in
      match hasInterval with
      | Some _ => parts ++ ["order by " +:+ Js.show (timeColumn context) +:+ " asc"]
      | None => parts
      end.

(** The state of the first loop of [appendSummarize]. *)
Record ReduceLoop := mkReduceLoop {
  countAddedInReduce : bool;
  reduceParts : list string;
  columns : list string
}.

(** One turn of the loop over [reduce.expressions]. *)
Definition summarizeReduceStep (context : ParseContext) (st : ReduceLoop)
    (expression : QueryEditorExpression) : ReduceLoop :=
  match expression with
  | ReduceExpression property reduce parameters =>
      let func := prop_name reduce in
      let column := ctx_castIfDynamic context (prop_name property) in
      let columns' := columns st ++ [column] in
      match parameters with
      | Some ps =>
          let funcParams :=
            Js.join ", " (map (fun p => formatValue (param_value p) (param_fieldType p)) ps) in
          mkReduceLoop (countAddedInReduce st)
            (reduceParts st ++ [func +:+ "(" +:+ column +:+ ", " +:+ funcParams +:+ ")"])
            columns'
      | None =>
          if String.eqb func "count" then
            if negb (countAddedInReduce st)
            then mkReduceLoop true (reduceParts st ++ ["count()"]) columns'
            else mkReduceLoop (countAddedInReduce st) (reduceParts st) columns'
          else if negb (String.eqb func "none")
          then mkReduceLoop (countAddedInReduce st)
                 (reduceParts st ++ [func +:+ "(" +:+ column +:+ ")"]) columns'
          else mkReduceLoop (countAddedInReduce st) (reduceParts st) columns'
      end
  | _ => st
  end.

(** One turn of the loop over [groupBy.expressions]: a binned column goes
    to the front ([unshift]), a plain one to the back ([push]). *)
Definition summarizeGroupByStep (context : ParseContext) (groupByParts : list string)
    (expression : QueryEditorExpression) : list string :=
  match expression with
  | GroupByExpression property interval =>
      let column := ctx_castIfDynamic context (prop_name property) in
      match interval with
      | Some i => ("bin(" +:+ column +:+ ", " +:+ prop_name i +:+ ")") :: groupByParts
      | None => groupByParts ++ [column]
      end
  | _ => groupByParts
  end.

(** [appendSummarize]. *)
Definition appendSummarize (context : ParseContext)
    (smoothingExpr : option QueryEditorPropertyExpression)
    (reduce groupBy : QueryEditorArrayExpression) (parts : list string) : list string :=
  let smoothing := detectSmoothing smoothingExpr in
  if Js.truthy_opt smoothing && negb (String.eqb (Js.show smoothing) "median") then parts
  else
    let st := fold_left (summarizeReduceStep context) (expressions reduce)
                (mkReduceLoop false [] []) in
    let groupByParts := fold_left (summarizeGroupByStep context) (expressions groupBy) [] in
    if 0 <? length (reduceParts st) then
      if 0 <? length groupByParts
      then parts ++ ["summarize " +:+ Js.join ", " (reduceParts st) +:+ " by "
                     +:+ Js.join ", " groupByParts]
      else parts ++ ["summarize " +:+ Js.join ", " (reduceParts st)]
    else if 0 <? length groupByParts
    then parts ++ ["summarize by " +:+ Js.join ", " groupByParts]
    else if 0 <? length (columns st)
    then parts ++ ["project " +:+ Js.join ", " (columns st)]
    else parts.

(** One turn of the first loop of [appendSmoothing]: the pair
    [(reduceFunc, reduceColumn)] is overwritten by every reduction. *)
Definition smoothingReduceStep (context : ParseContext) (st : string * string)
    (expression : QueryEditorExpression) : string * string :=
  match expression with
  | ReduceExpression property reduce _ =>
      (prop_name reduce, ctx_castIfDynamic context (prop_name property))
  | _ => st
  end.

(** One turn of its second loop, on [(groupByInterval, groupByParts)]. *)
Definition smoothingGroupByStep (context : ParseContext) (st : string * list string)
    (expression : QueryEditorExpression) : string * list string :=
  match expression with
  | GroupByExpression property interval =>
      let column := ctx_castIfDynamic context (prop_name property) in
      match interval with
      | Some i => (prop_name i, snd st)
      | None => (fst st, snd st ++ [column])
      end
  | _ => st
  end.

(** [appendSmoothing]. *)
Definition appendSmoothing (context : ParseContext)
    (smoothingExpression : option QueryEditorPropertyExpression)
    (reduceExpression groupByExpression : QueryEditorArrayExpression)
    (parts : list string) : list string :=
  let smoothing := detectSmoothing smoothingExpression in
  let noGroupBy := length (expressions groupByExpression) =? 0 in
  let noReduce := length (expressions reduceExpression) =? 0 in
  if negb (Js.truthy_opt smoothing) || noReduce || noGroupBy then parts
  else
    let '(reduceFunc, reduceColumn) :=
      fold_left (smoothingReduceStep context) (expressions reduceExpression) ("", "") in
    let '(groupByInterval, groupByParts) :=
      fold_left (smoothingGroupByStep context) (expressions groupByExpression) ("", []) in
    let tc := Js.show (timeColumn context) in
    if negb (String.eqb (Js.show smoothing) "median") then
      let parts1 :=
        if 0 <? length groupByParts
        then parts ++ ["make-series a=" +:+ reduceFunc +:+ "(" +:+ reduceColumn +:+ ") on "
                       +:+ tc +:+ " from $__timeFrom to $__timeTo step " +:+ groupByInterval
                       +:+ " by " +:+ Js.join ", " groupByParts]
        else parts ++ ["make-series a=" +:+ reduceFunc +:+ "(" +:+ reduceColumn +:+ ") on "
                       +:+ tc +:+ " from $__timeFrom to $__timeTo step " +:+ groupByInterval] in
      let parts2 :=
        if String.eqb (Js.show smoothing) "ewma"
        then parts1 ++ ["extend b=series_exp_smoothing_udf(a, "
                        +:+ Js.print (translateSmoothingWeight (Js.show smoothing) "1") +:+ ")"]
        else parts1 in
      let parts3 :=
        if String.eqb (Js.show smoothing) "auto"
        then parts2 ++ ["extend b=series_moving_avg_udf(a, 10, false)"]
        else parts2 in
      let parts4 := parts3 ++ ["mv-expand " +:+ tc +:+ " to typeof(datetime), b to typeof(real)"] in
      if 0 <? length groupByParts
      then parts4 ++ ["project " +:+ tc +:+ ", b, " +:+ Js.join ", " groupByParts]
      else parts4 ++ ["project " +:+ tc +:+ ", b"]
    else
      if 0 <? length groupByParts
      then parts ++ ["evaluate rolling_percentile(" +:+ reduceFunc +:+ "_" +:+ reduceColumn
                     +:+ ", 50, " +:+ tc +:+ ", " +:+ groupByInterval +:+ ", "
                     +:+ Js.print (translateSmoothingWeight (Js.show smoothing) "1")
                     +:+ ", " +:+ Js.join ", " groupByParts +:+ ")"]
      else parts ++ ["evaluate rolling_percentile(" +:+ reduceFunc +:+ "_" +:+ reduceColumn
                     +:+ ", 50, " +:+ tc +:+ ", " +:+ groupByInterval +:+ ", "
                     +:+ Js.print (translateSmoothingWeight (Js.show smoothing) "1") +:+ ")"].

(** The context [toQuery] and [toAutoCompleteQuery] build. *)
Definition makeContext (tableSchema : option (list AdxColumnSchema))
    (expression : QueryExpression) : ParseContext :=
  mkContext (defaultTimeColumn tableSchema expression)
            (fun column => castIfDynamic column tableSchema).

(** The stage separator. *)
Definition separator : string := String Js.LF "| ".

(** The [parts] array of [toQuery] when it reaches the final join: the
    seven builders in the order of the source. *)
Definition toQueryParts (expression : QueryExpression)
    (from : QueryEditorPropertyExpression)
    (tableSchema : option (list AdxColumnSchema)) : list string :=
  let context := makeContext tableSchema expression in
  let parts := appendProperty context from [] in
  let parts := appendTimeFilter context (timeshift expression) parts in
  let parts := appendWhere context (asExpression (where_ expression)) parts (Some "where") in
  let parts := appendTimeshift context (timeshift expression) parts in
  let parts := appendSummarize context (smoothing expression) (reduce expression)
                 (groupBy expression) parts in
  let parts := appendSmoothing context (smoothing expression) (reduce expression)
                 (groupBy expression) parts in
  appendOrderBy context (groupBy expression) (reduce expression) parts.

(** [toQuery]; [None] is a call without expression. *)
Definition toQuery (expression : option QueryExpression)
    (tableSchema : option (list AdxColumnSchema)) : string :=
  match expression with
  | None => ""
  | Some e =>
      match from e with
      | None => ""
      | Some f =>
          let parts := toQueryParts e f tableSchema in
          if length parts =? 0 then "" else Js.join separator parts
      end
  end.

End Builders.

(** ** The autocomplete path over an object store

    [replaceByIndex] writes to an array: [current[key] = operator]. Whether
    the caller can see the write depends on which array object [current]
    is, so this path is modelled over a store of objects with identity.
    A location is an index into the store; allocation appends. *)
Module Store.

Abbreviation loc := nat (only parsing).

(** An object of the store: an expression node of one of the five
    variants, or an array. An And/Or node refers to its [expressions]
    array by location. An array has its indexed elements ([None] is a
    hole or [undefined]) and the properties set under keys that are no
    array index ([None] is the key [NaN]). *)
Inductive cell :=
| CProperty (property : QueryEditorProperty)
| COperator (property : QueryEditorProperty) (operator : QueryEditorOperator)
| CReduce (property : QueryEditorProperty) (reduce : QueryEditorProperty)
    (parameters : option (list QueryEditorFunctionParameterExpression))
| CGroupBy (property : QueryEditorProperty) (interval : option QueryEditorProperty)
| CArrayExpression (combinator : Combinator) (expressions : loc)
| CArray (elems : list (option loc)) (named : list (option Z * loc)).

Abbreviation store := (list cell) (only parsing).

Definition alloc (h : store) (c : cell) : loc * store := (length h, h ++ [c]).

(** Reading the tree below a location. Arrays are read as [forEach] and
    [map] visit them: holes are skipped. One unit of fuel per node. *)
Fixpoint loadList (load : loc -> option QueryEditorExpression)
    (elems : list (option loc)) : option (list QueryEditorExpression) :=
  match elems with
  | [] => Some []
  | None :: elems' => loadList load elems'
  | Some l :: elems' =>
      e ← load l; es ← loadList load elems'; Some (e :: es)
  end.

Fixpoint load (fuel : nat) (h : store) (l : loc) : option QueryEditorExpression :=
  match fuel with
  | 0 => None
  | S fuel' =>
      match h !! l with
      | None => None
      | Some (CProperty p) => Some (PropertyExpression p)
      | Some (COperator p o) => Some (OperatorExpression p o)
      | Some (CReduce p r ps) => Some (ReduceExpression p r ps)
      | Some (CGroupBy p i) => Some (GroupByExpression p i)
      | Some (CArrayExpression c a) =>
          match h !! a with
          | Some (CArray elems _) =>
              es ← loadList (load fuel' h) elems; Some (ArrayExpression c es)
          | _ => None
          end
      | Some (CArray _ _) => None
      end
  end.

(** lodash's [cloneDeep] on a tree of expression nodes: every node and
    every array below the location is copied into a new object, an array
    with its indexed elements only. The copies are allocated bottom-up.
    The model is of trees: an object that is reached twice below the
    location is copied once per path here, and once in all by lodash. *)
Fixpoint cloneList (clone : store -> loc -> option (loc * store)) (h : store)
    (elems : list (option loc)) : option (list (option loc) * store) :=
  match elems with
  | [] => Some ([], h)
  | None :: elems' =>
      '(elems'', h') ← cloneList clone h elems'; Some (None :: elems'', h')
  | Some l :: elems' =>
      '(l', h1) ← clone h l;
      '(elems'', h2) ← cloneList clone h1 elems';
      Some (Some l' :: elems'', h2)
  end.

Fixpoint cloneDeep (fuel : nat) (h : store) (l : loc) : option (loc * store) :=
  match fuel with
  | 0 => None
  | S fuel' =>
      match h !! l with
      | None => None
      | Some (CArrayExpression c a) =>
          match h !! a with
          | Some (CArray elems _) =>
              '(elems', h1) ← cloneList (cloneDeep fuel') h elems;
              let '(a', h2) := alloc h1 (CArray elems' []) in
              Some (alloc h2 (CArrayExpression c a'))
          | _ => None
          end
      | Some (CArray _ _) => None
      | Some leaf => Some (alloc h leaf)
      end
  end.

Definition isWhiteSpace (c : ascii) : bool :=
  let n := Ascii.nat_of_ascii c in
  (n =? 9) || (n =? 10) || (n =? 11) || (n =? 12) || (n =? 13) || (n =? 32) || (n =? 160).

Fixpoint trimStart (s : string) : string :=
  match s with
  | String c s' => if isWhiteSpace c then trimStart s' else s
  | EmptyString => s
  end.

(** The value of the longest prefix of decimal digits; [seen] tells
    whether a digit was read. *)
Fixpoint digitsPrefix (acc : Z) (seen : bool) (s : string) : option Z :=
  match s with
  | String c s' =>
      if Js.isDigit c
      then digitsPrefix (acc * 10 + (Z.of_nat (Ascii.nat_of_ascii c) - 48))%Z true s'
      else if seen then Some acc else None
  | EmptyString => if seen then Some acc else None
  end.

(** [parseInt(n, 10)]; [None] is [NaN]. The value is the exact integer:
    beyond 2^53 the source rounds it, which no array index can tell. *)
Definition parseInt (n : string) : option Z :=
  match trimStart n with
  | String "-" s => Z.opp <$> digitsPrefix 0 false s
  | String "+" s => digitsPrefix 0 false s
  | s => digitsPrefix 0 false s
  end.

(** A key is an array index when it is an integer from 0 to 2^32 - 2. *)
Definition arrayIndex (key : option Z) : option nat :=
  match key with
  | Some k => if ((0 <=? k) && (k <? 4294967295))%Z then Some (Z.to_nat k) else None
  | None => None
  end.

(** [array[key]]. *)
Definition arrayGet (elems : list (option loc)) (named : list (option Z * loc))
    (key : option Z) : option loc :=
  match arrayIndex key with
  | Some i => mjoin (elems !! i)
  | None => snd <$> find (fun kv => bool_decide (fst kv = key)) named
  end.

(** [array[key] = value]: an index beyond the length extends the array
    with holes; a key that is no index sets a property. *)
Definition arraySet (elems : list (option loc)) (named : list (option Z * loc))
    (key : option Z) (value : loc) : cell :=
  match arrayIndex key with
  | Some i =>
      if i <? length elems then CArray (<[i := Some value]> elems) named
      else CArray (elems ++ replicate (i - length elems) None ++ [Some value]) named
  | None => CArray elems ((key, value) :: named)
  end.

(** The loop of [replaceByIndex]: at the last key the write, before it the
    descent into the array of an And/Or child; a key that leads nowhere
    leaves [current] as it is. A write through something that is no
    array is outside the model. *)
Fixpoint replaceLoop (h : store) (operator : loc) (current : loc)
    (keys : list (option Z)) : option store :=
  match keys with
  | [] => Some h
  | [key] =>
      match h !! current with
      | Some (CArray elems named) => Some (<[current := arraySet elems named key operator]> h)
      | _ => None
      end
  | key :: keys' =>
      match h !! current with
      | Some (CArray elems named) =>
          match arrayGet elems named key with
          | Some exp =>
              match h !! exp with
              | Some (CArrayExpression _ a) => replaceLoop h operator a keys'
              | _ => replaceLoop h operator current keys'
              end
          | None => replaceLoop h operator current keys'
          end
      | _ => replaceLoop h operator current keys'
      end
  end.

(** [replaceByIndex]: the location of the returned tree and the store
    after the call. *)
Definition replaceByIndex (fuel : nat) (index : string) (expression : loc)
    (operator : loc) (h : store) : option (loc * store) :=
  let keys := map parseInt (Js.split "-" index) in
  '(where', h1) ← cloneDeep fuel h expression;
  match h1 !! where' with
  | Some (CArrayExpression _ current) =>
      h2 ← replaceLoop h1 operator current keys; Some (where', h2)
  | _ => None
  end.

(** Laying a tree out in the store, as a caller that builds it does:
    every node and every array gets an object of its own. *)
Fixpoint allocList (allocOne : QueryEditorExpression -> store -> loc * store)
    (exps : list QueryEditorExpression) (h : store) : list (option loc) * store :=
  match exps with
  | [] => ([], h)
  | e :: exps' =>
      let '(l, h1) := allocOne e h in
      let '(elems, h2) := allocList allocOne exps' h1 in
      (Some l :: elems, h2)
  end.

Fixpoint allocExpression (e : QueryEditorExpression) (h : store) : loc * store :=
  match e with
  | PropertyExpression p => alloc h (CProperty p)
  | OperatorExpression p o => alloc h (COperator p o)
  | ReduceExpression p r ps => alloc h (CReduce p r ps)
  | GroupByExpression p i => alloc h (CGroupBy p i)
  | ArrayExpression c exps =>
      let '(elems, h1) := allocList allocExpression exps h in
      let '(a, h2) := alloc h1 (CArray elems []) in
      alloc h2 (CArrayExpression c a)
  end.

(** The height of a tree: the fuel that reads it. *)
Fixpoint height (e : QueryEditorExpression) : nat :=
  match e with
  | ArrayExpression _ exps => S (list_max (map height exps))
  | _ => 1
  end.

(** Every object of [h] is still in [h'], at its location and with its
    content. *)
Definition keeps (h h' : store) : Prop :=
  forall l c, h !! l = Some c -> h' !! l = Some c.

(** The objects from location [n0] on refer to objects from [n0] on only:
    a node to an array without named properties, an array to its
    elements. *)
Definition cellClosed (n0 : nat) (h : store) (c : cell) : Prop :=
  match c with
  | CArrayExpression _ a => n0 <= a /\ exists elems, h !! a = Some (CArray elems [])
  | CArray elems named => (forall l', In (Some l') elems -> n0 <= l') /\ named = []
  | _ => True
  end.

Definition closed (n0 : nat) (h : store) : Prop :=
  forall l c, n0 <= l -> h !! l = Some c -> cellClosed n0 h c.

(** [AutoCompleteQuery] of [src/types.ts]: [expression] has the fields
    that are only read; [where_at] and [search_at] are the objects
    [expression.where] and [search] in the store. *)
Record AutoCompleteQuery := mkAutoComplete {
  database : string;
  search_at : loc;
  expression : QueryExpression;
  where_at : loc;
  index : string
}.

(** [toAutoCompleteQuery]: the query text and the store after the call. *)
Definition toAutoCompleteQuery (templateSrv : TemplateSrv) (fuel : nat)
    (query : option AutoCompleteQuery) (tableSchema : option (list AdxColumnSchema))
    (h : store) : option (string * store) :=
  match query with
  | None => Some ("", h)
  | Some q =>
      match from (expression q) with
      | None => Some ("", h)
      | Some f =>
          match h !! search_at q with
          | Some (COperator property _) =>
              let context := makeContext tableSchema (expression q) in
              let parts := appendProperty context f [] in
              let parts := appendTimeFilter context None parts in
              '(where', h') ← replaceByIndex fuel (index q) (where_at q) (search_at q) h;
              w ← load (S fuel) h' where';
              let column := prop_name property in
              let parts := appendWhere templateSrv context w parts (Some "where") in
              let parts := parts ++ ["take 50000"] in
              let parts := parts ++ ["distinct " +:+ ctx_castIfDynamic context column] in
              let parts := parts ++ ["take 251"] in
              Some (Js.join separator parts, h')
          | _ => None
          end
      end
  end.

End Store.

(** * Vocabulary of the properties

    The texts and predicates the specification words its properties
    with, and the inputs of the examples. *)

(** The fold of the specification: the accumulated expression is wrapped
    once per further segment, by [todynamic] for a segment that is not the
    last and by [to<T>] for the last. *)
Fixpoint nestedCast (T : string) (acc : string) (segments : list string) : string :=
  match segments with
  | [] => acc
  | [last] => "to" +:+ T +:+ "(" +:+ acc +:+ "." +:+ last +:+ ")"
  | segment :: rest =>
      nestedCast T ("todynamic(" +:+ acc +:+ "." +:+ segment +:+ ")") rest
  end.

(** The grammar of the specification: an integer magnitude followed by
    one of the units d, h, ms, s, m. *)
Definition magnitudeWithUnit (name : string) : Prop :=
  exists magnitude unit,
    name = magnitude +:+ unit /\ magnitude <> "" /\
    Js.every Js.isDigit magnitude = true /\ In unit ["d"; "h"; "ms"; "s"; "m"].

(** The grammar of the regular expression: one to fifteen digits, then
    one of the units or nothing. *)
Definition boundedTimeSpan (name : string) : Prop :=
  exists magnitude unit,
    name = magnitude +:+ unit /\ 1 <= String.length magnitude <= 15 /\
    Js.every Js.isDigit magnitude = true /\
    (unit = "" \/ In unit ["d"; "h"; "ms"; "s"; "m"]).

Definition singleLine (name : string) : Prop :=
  Js.every (fun c => negb (Js.isLineTerminator c)) name = true.

Definition withoutTimeshift (e : QueryExpression) : QueryExpression :=
  {| from := from e; where_ := where_ e; reduce := reduce e; groupBy := groupBy e;
     timeshift := None; smoothing := smoothing e |}.

(** A query on [Logs] with a time-shift and nothing else, over a table
    with the datetime column [Timestamp]. *)
Definition Logs : QueryEditorPropertyExpression :=
  mkPropertyExpression (mkProperty "Logs" QueryEditorPropertyType.String).

Definition shiftedQuery (name : string) : QueryExpression :=
  {| from := Some Logs;
     where_ := mkArray And [];
     reduce := mkArray And [];
     groupBy := mkArray And [];
     timeshift := Some (mkPropertyExpression (mkProperty name QueryEditorPropertyType.String));
     smoothing := None |}.

Definition timestampSchema : option (list AdxColumnSchema) :=
  Some [mkColumn "Timestamp" "datetime"].

Definition noVariables : TemplateSrv := mkTemplateSrv (Some []).

(** The clauses an Or node collects in its buffer. *)
Definition orClauses (templateSrv : TemplateSrv) (context : ParseContext)
    (children : list QueryEditorExpression) : list string :=
  flat_map (fun exp => appendWhere templateSrv context exp [] None) children.

Definition filterA : QueryEditorExpression :=
  OperatorExpression (mkProperty "a" QueryEditorPropertyType.String)
                     (mkOperator "==" (VScalar "x")).

Definition filterB : QueryEditorExpression :=
  OperatorExpression (mkProperty "b" QueryEditorPropertyType.String)
                     (mkOperator "==" (VScalar "y")).

Definition filterC : QueryEditorExpression :=
  OperatorExpression (mkProperty "c" QueryEditorPropertyType.String)
                     (mkOperator "==" (VScalar "z")).

(** A child of the [where] tree that carries a property name and an
    operator name. *)
Definition resolvedFilter (child : QueryEditorExpression) : Prop :=
  match child with
  | OperatorExpression property operator =>
      prop_name property <> "" /\ op_name operator <> ""
  | _ => False
  end.

(** The stage of such a child, in the words of the specification: the
    unary test [isnotempty] as [where <op>(<property>)], any other
    operator as [where <property> <op> <formatted value>]. *)
Definition whereStage (templateSrv : TemplateSrv) (child : QueryEditorExpression) : string :=
  match child with
  | OperatorExpression property operator =>
      if String.eqb (op_name operator) "isnotempty"
      then "where " +:+ op_name operator +:+ "(" +:+ prop_name property +:+ ")"
      else "where " +:+ prop_name property +:+ " " +:+ op_name operator +:+ " "
           +:+ formatValue templateSrv (op_value operator) (prop_type property)
  | _ => ""
  end.

(** The stage of the median, in the words of the specification:
    [evaluate rolling_percentile(<func>_<castColumn>, 50, <timeColumn>,
    <interval>, <translatedWeight>[, <groups>])]. *)
Definition rollingPercentileStage (func castColumn timeColumn interval weight : string)
    (groups : list string) : string :=
  match groups with
  | [] => "evaluate rolling_percentile(" +:+ func +:+ "_" +:+ castColumn +:+ ", 50, "
          +:+ timeColumn +:+ ", " +:+ interval +:+ ", " +:+ weight +:+ ")"
  | _ => "evaluate rolling_percentile(" +:+ func +:+ "_" +:+ castColumn +:+ ", 50, "
         +:+ timeColumn +:+ ", " +:+ interval +:+ ", " +:+ weight +:+ ", "
         +:+ Js.join ", " groups +:+ ")"
  end.

(** The stages of the other algorithms, in the words of the
    specification. *)
Definition makeSeriesStage (func castColumn timeColumn interval : string)
    (groups : list string) : string :=
  match groups with
  | [] => "make-series a=" +:+ func +:+ "(" +:+ castColumn +:+ ") on " +:+ timeColumn
          +:+ " from $__timeFrom to $__timeTo step " +:+ interval
  | _ => "make-series a=" +:+ func +:+ "(" +:+ castColumn +:+ ") on " +:+ timeColumn
         +:+ " from $__timeFrom to $__timeTo step " +:+ interval
         +:+ " by " +:+ Js.join ", " groups
  end.

Definition mvExpandStage (timeColumn : string) : string :=
  "mv-expand " +:+ timeColumn +:+ " to typeof(datetime), b to typeof(real)".

Definition projectStage (timeColumn : string) (groups : list string) : string :=
  match groups with
  | [] => "project " +:+ timeColumn +:+ ", b"
  | _ => "project " +:+ timeColumn +:+ ", b, " +:+ Js.join ", " groups
  end.

(** The [extend] stage of an algorithm: one for ["ewma"], one for
    ["auto"], none for any other name. *)
Definition extendStages (name : string) : list string :=
  if String.eqb name "ewma" then ["extend b=series_exp_smoothing_udf(a, 0.5)"]
  else if String.eqb name "auto" then ["extend b=series_moving_avg_udf(a, 10, false)"]
  else [].

(** A reduction named [count] that has no parameters array. *)
Definition isCount (e : QueryEditorExpression) : bool :=
  match e with
  | ReduceExpression _ reduce None => String.eqb (prop_name reduce) "count"
  | _ => false
  end.

(** The aggregation terms of a reduce list: [reduceParts] when the first
    loop of [appendSummarize] ends. *)
Definition reduceTerms (templateSrv : TemplateSrv) (context : ParseContext)
    (l : list QueryEditorExpression) : list string :=
  reduceParts (fold_left (summarizeReduceStep templateSrv context) l
                 (mkReduceLoop false [] [])).

(** The group-by terms: [groupByParts] when the second loop ends. *)
Definition groupByTerms (context : ParseContext) (l : list QueryEditorExpression)
    : list string :=
  fold_left (summarizeGroupByStep context) l [].

(** The term of a group-by entry with an interval, and of one without. *)
Definition binTerm (context : ParseContext) (e : QueryEditorExpression) : list string :=
  match e with
  | GroupByExpression property (Some i) =>
      ["bin(" +:+ ctx_castIfDynamic context (prop_name property) +:+ ", "
       +:+ prop_name i +:+ ")"]
  | _ => []
  end.

Definition plainTerm (context : ParseContext) (e : QueryEditorExpression) : list string :=
  match e with
  | GroupByExpression property None => [ctx_castIfDynamic context (prop_name property)]
  | _ => []
  end.

(** The terms of the [by] clause, in the words of the specification: the
    binned columns first, each put in front of the ones before it, then
    the plain columns in the order of the list. *)
Definition byTerms (context : ParseContext) (l : list QueryEditorExpression)
    : list string :=
  rev (flat_map (binTerm context) l) ++ flat_map (plainTerm context) l.

(** Whether [summarize] is the builder of the aggregation: there is no
    smoothing, or its name is empty, or it is the median. *)
Definition summarizes (smoothing : option string) : bool :=
  match smoothing with
  | None => true
  | Some name => String.eqb name "" || String.eqb name "median"
  end.

(** The arguments of the smoothing stages, read off the lists: the
    function and the cast column of the last reduction, the interval of
    the last group-by entry that has one, and the cast columns of the
    entries that have none, in the order of the list. A list without a
    reduction, or without an interval, leaves the empty text. *)
Definition reductionOf (context : ParseContext) (e : QueryEditorExpression)
    : list (string * string) :=
  match e with
  | ReduceExpression property reduce _ =>
      [(prop_name reduce, ctx_castIfDynamic context (prop_name property))]
  | _ => []
  end.

Definition lastReduction (context : ParseContext) (l : list QueryEditorExpression)
    : string * string :=
  List.last (flat_map (reductionOf context) l) ("", "").

Definition intervalOf (e : QueryEditorExpression) : list string :=
  match e with
  | GroupByExpression _ (Some i) => [prop_name i]
  | _ => []
  end.

Definition lastInterval (l : list QueryEditorExpression) : string :=
  List.last (flat_map intervalOf l) "".

(** The term of a reduction that carries a parameters array. *)
Definition parameterisedTerm (templateSrv : TemplateSrv) (context : ParseContext)
    (property reduce : QueryEditorProperty)
    (parameters : list QueryEditorFunctionParameterExpression) : string :=
  prop_name reduce +:+ "(" +:+ ctx_castIfDynamic context (prop_name property) +:+ ", "
  +:+ Js.join ", " (map (fun p => formatValue templateSrv (param_value p)
                                    (param_fieldType p)) parameters)
  +:+ ")".

(** The summarize stage of a non-empty list of aggregation terms. *)
Definition summarizeStage (terms groups : list string) : string :=
  match groups with
  | [] => "summarize " +:+ Js.join ", " terms
  | _ => "summarize " +:+ Js.join ", " terms +:+ " by " +:+ Js.join ", " groups
  end.

(** The term of one reduction that is no parameterless [count]. *)
Definition termOf (templateSrv : TemplateSrv) (context : ParseContext)
    (e : QueryEditorExpression) : list string :=
  match e with
  | ReduceExpression property reduce (Some ps) =>
      [prop_name reduce +:+ "(" +:+ ctx_castIfDynamic context (prop_name property) +:+ ", "
       +:+ Js.join ", " (map (fun p => formatValue templateSrv (param_value p)
                                         (param_fieldType p)) ps)
       +:+ ")"]
  | ReduceExpression property reduce None =>
      if String.eqb (prop_name reduce) "count" then []
      else if negb (String.eqb (prop_name reduce) "none")
      then [prop_name reduce +:+ "(" +:+ ctx_castIfDynamic context (prop_name property) +:+ ")"]
      else []
  | _ => []
  end.

Definition columnCast : ParseContext := mkContext None (fun column => column).

Definition countOf (column : string)
    (parameters : option (list QueryEditorFunctionParameterExpression))
    : QueryEditorExpression :=
  ReduceExpression (mkProperty column QueryEditorPropertyType.String)
                   (mkProperty "count" QueryEditorPropertyType.Function) parameters.

Definition oneParameter : list QueryEditorFunctionParameterExpression :=
  [mkParameter (VScalar "1") QueryEditorPropertyType.Number].

(** A caller's store: the tree [a == 'x' and b == 'y'] at location 3, its
    array at location 2, and the search operator on [c] at location 4. *)
Definition callerStore : list Store.cell :=
  [Store.COperator (mkProperty "a" QueryEditorPropertyType.String)
                   (mkOperator "==" (VScalar "x"));
   Store.COperator (mkProperty "b" QueryEditorPropertyType.String)
                   (mkOperator "==" (VScalar "y"));
   Store.CArray [Some 0; Some 1] [];
   Store.CArrayExpression And 2;
   Store.COperator (mkProperty "c" QueryEditorPropertyType.String)
                   (mkOperator "==" (VScalar ""))].

(** The values of [c] given the first filter: the search operator takes
    the place of the child of index 1. *)
Definition searchQuery : Store.AutoCompleteQuery :=
  {| Store.database := "db";
     Store.search_at := 4;
     Store.expression :=
       {| from := Some Logs;
          where_ := mkArray And [filterA; filterB];
          reduce := mkArray And [];
          groupBy := mkArray And [];
          timeshift := None;
          smoothing := None |};
     Store.where_at := 3;
     Store.index := "1" |}.

(** * Vocabulary of the further properties *)

(** A child that can add to the stages of the [where] builder: an
    operator node with a property name and an operator name, or an And/Or
    node. *)
Definition contributes (child : QueryEditorExpression) : bool :=
  match child with
  | OperatorExpression property operator =>
      Js.truthy (prop_name property) && Js.truthy (op_name operator)
  | ArrayExpression _ _ => true
  | _ => false
  end.

(** The types whose literals [formatValue] puts between single quotes. *)
Definition quotedType (type : QueryEditorPropertyType.t) : bool :=
  match type with
  | QueryEditorPropertyType.Number | QueryEditorPropertyType.Boolean => false
  | _ => true
  end.

(** The ordering stage, as the source writes it. *)
Definition orderByStage (timeColumn : string) : string :=
  "order by " +:+ timeColumn +:+ " asc".

(** A reduction named [none] without parameters array: the column is
    selected as it is. *)
Definition plainSelection (e : QueryEditorExpression) : bool :=
  match e with
  | ReduceExpression _ reduce None => String.eqb (prop_name reduce) "none"
  | _ => false
  end.

(** The column a reduction refers to, after the cast. *)
Definition reducedColumn (context : ParseContext) (e : QueryEditorExpression)
    : list string :=
  match e with
  | ReduceExpression property _ _ => [ctx_castIfDynamic context (prop_name property)]
  | _ => []
  end.

(** A query with another reduce list. *)
Definition withReduce (e : QueryExpression) (r : QueryEditorArrayExpression)
    : QueryExpression :=
  {| from := from e; where_ := where_ e; reduce := r; groupBy := groupBy e;
     timeshift := timeshift e; smoothing := smoothing e |}.

(** A query without smoothing. *)
Definition withoutSmoothing (e : QueryExpression) : QueryExpression :=
  {| from := from e; where_ := where_ e; reduce := reduce e; groupBy := groupBy e;
     timeshift := timeshift e; smoothing := None |}.

(** The inputs of the examples: the group-by of [Timestamp] per minute,
    the average of [Value], a column selected as it is, and the queries on
    [Logs] over them, without and with a smoothing algorithm. *)
Definition perMinute : QueryEditorExpression :=
  GroupByExpression (mkProperty "Timestamp" QueryEditorPropertyType.DateTime)
                    (Some (mkProperty "1m" QueryEditorPropertyType.Interval)).

Definition avgValue : QueryEditorExpression :=
  ReduceExpression (mkProperty "Value" QueryEditorPropertyType.Number)
                   (mkProperty "avg" QueryEditorPropertyType.Function) None.

Definition selectOf (column : string) : QueryEditorExpression :=
  ReduceExpression (mkProperty column QueryEditorPropertyType.String)
                   (mkProperty "none" QueryEditorPropertyType.Function) None.

Definition groupedQuery (reductions groups : list QueryEditorExpression)
    : QueryExpression :=
  {| from := Some Logs;
     where_ := mkArray And [];
     reduce := mkArray And reductions;
     groupBy := mkArray And groups;
     timeshift := None;
     smoothing := None |}.

Definition smoothedQuery (name : string)
    (reductions groups : list QueryEditorExpression) : QueryExpression :=
  {| from := Some Logs;
     where_ := mkArray And [];
     reduce := mkArray And reductions;
     groupBy := mkArray And groups;
     timeshift := None;
     smoothing := Some (mkPropertyExpression
                          (mkProperty name QueryEditorPropertyType.String)) |}.

(** ** Vocabulary of the autocomplete path *)

(** What [replaceByIndex] does, told on trees: the children of the root
    to the children of the tree it returns. The last key is the place of
    the write: an index inside the list replaces a child, an index beyond
    it adds the operator at the end, a key that is no index changes no
    child. A key before the last leads into the child of that index when
    the child is an And/Or node, and is passed over in any other case. *)
Fixpoint splice (keys : list (option Z)) (operator : QueryEditorExpression)
    (exps : list QueryEditorExpression) : list QueryEditorExpression :=
  match keys with
  | [] => exps
  | key :: keys' =>
      match keys' with
      | [] =>
          match Store.arrayIndex key with
          | Some i =>
              if i <? length exps then <[i := operator]> exps else exps ++ [operator]
          | None => exps
          end
      | _ :: _ =>
          match Store.arrayIndex key with
          | Some i =>
              match exps !! i with
              | Some (ArrayExpression c inner) =>
                  <[i := ArrayExpression c (splice keys' operator inner)]> exps
              | _ => splice keys' operator exps
              end
          | None => splice keys' operator exps
          end
      end
  end.

(** A tree held by the store in objects of its own: the tree [e] has its
    root at [l] and all its objects at locations from [lo] to [hi - 1];
    the children of a node lie one after the other, before the array and
    the node, and the array has no hole and no named property. This is
    how [allocExpression] and [cloneDeep] lay a tree out. *)
Fixpoint storedList (storedAt : QueryEditorExpression -> nat -> nat -> nat -> Prop)
    (exps : list QueryEditorExpression) (elems : list (option nat)) (lo hi : nat) : Prop :=
  match exps, elems with
  | [], [] => lo <= hi
  | e :: exps', Some l :: elems' =>
      exists mid, storedAt e lo mid l /\ storedList storedAt exps' elems' mid hi
  | _, _ => False
  end.

Fixpoint stored (h : list Store.cell) (e : QueryEditorExpression) (lo hi l : nat) : Prop :=
  match e with
  | PropertyExpression p => lo <= l < hi /\ h !! l = Some (Store.CProperty p)
  | OperatorExpression p o => lo <= l < hi /\ h !! l = Some (Store.COperator p o)
  | ReduceExpression p r ps => lo <= l < hi /\ h !! l = Some (Store.CReduce p r ps)
  | GroupByExpression p i => lo <= l < hi /\ h !! l = Some (Store.CGroupBy p i)
  | ArrayExpression c exps =>
      exists a elems mid,
        storedList (stored h) exps elems lo mid
        /\ mid <= a < hi /\ mid <= l < hi
        /\ h !! l = Some (Store.CArrayExpression c a)
        /\ h !! a = Some (Store.CArray elems [])
  end.

(** A schema with two dynamic columns, and the context over it. *)
Definition metricsSchema : option (list AdxColumnSchema) :=
  Some [mkColumn "Metrics.value" "real"; mkColumn "Tags.region" "string"].

Definition metricsContext : ParseContext :=
  mkContext (Some "Timestamp") (fun column => castIfDynamic column metricsSchema).

Definition groupOf (column : string) : QueryEditorExpression :=
  GroupByExpression (mkProperty column QueryEditorPropertyType.String) None.

Definition avgOf (column : string) : QueryEditorExpression :=
  ReduceExpression (mkProperty column QueryEditorPropertyType.Number)
                   (mkProperty "avg" QueryEditorPropertyType.Function) None.

(** * Properties *)

(** ** Strings *)

Lemma truthy_String c s : Js.truthy (String c s) = true.
Proof. reflexivity. Qed.

Lemma truthy_nonempty s : Js.truthy s = true <-> s <> "".
Proof.
  unfold Js.truthy. destruct s as [|c s]; simpl; split; intros H; try easy.
Qed.

Lemma prefix_append s t : String.prefix s (s +:+ t) = true.
Proof.
  induction s as [|c s IH].
  - now destruct t.
  - change (String.prefix (String c s) (String c s +:+ t))
      with (if Ascii.ascii_dec c c then String.prefix s (s +:+ t) else false).
    now destruct (Ascii.ascii_dec c c).
Qed.

Lemma includes_dot_String c s :
  Js.includes "." (String c s) = Ascii.eqb "." c || Js.includes "." s.
Proof.
  unfold Js.includes.
  change (String.index 0 "." (String c s))
    with (if (if Ascii.ascii_dec "." c then String.prefix "" s else false)
          then Some 0
          else match String.index 0 "." s with
               | Some n => Some (S n)
               | None => None
               end).
  destruct (Ascii.ascii_dec "." c) as [<-|Hne].
  - rewrite Ascii.eqb_refl. now destruct s.
  - apply Ascii.eqb_neq in Hne. rewrite Hne.
    now destruct (String.index 0 "." s).
Qed.

Lemma split_nonempty sep s : Js.split sep s <> [].
Proof.
  destruct s as [|c s]; simpl; [easy|].
  destruct (Ascii.eqb c sep); [easy|].
  now destruct (Js.split sep s).
Qed.

(** A name with a path separator has at least two segments. *)
Lemma split_includes_dot s :
  Js.includes "." s = true ->
  exists first rest, Js.split "." s = first :: rest /\ rest <> [].
Proof.
  induction s as [|c s IH]; [discriminate|].
  rewrite includes_dot_String. simpl Js.split.
  rewrite (Ascii.eqb_sym "." c).
  destruct (Ascii.eqb c ".") eqn:Hc; simpl.
  - intros _. exists "", (Js.split "." s). split; [reflexivity|apply split_nonempty].
  - intros H. destruct (IH H) as (first & rest & -> & Hrest).
    now exists (String c first), rest.
Qed.

(** ** Column resolver *)

Lemma toDynamic_reduce_from T n f acc rest index :
  (forall (result part : string) (i : nat),
      f result part i =
        if negb (Js.truthy result) then "todynamic(" +:+ part +:+ ")"
        else if i + 1 =? n then "to" +:+ T +:+ "(" +:+ result +:+ "." +:+ part +:+ ")"
        else "todynamic(" +:+ result +:+ "." +:+ part +:+ ")") ->
  Js.truthy acc = true ->
  index + length rest = n ->
  Js.reduce_from f rest index acc = nestedCast T acc rest.
Proof.
  intros Hf. revert acc index.
  induction rest as [|part rest IH]; intros acc index Hacc Hlen; [reflexivity|].
  simpl Js.reduce_from. rewrite Hf, Hacc. simpl negb. cbv iota.
  destruct rest as [|part' rest'].
  - simpl in Hlen. replace (index + 1 =? n) with true
      by (symmetry; apply Nat.eqb_eq; lia).
    reflexivity.
  - replace (index + 1 =? n) with false
      by (symmetry; apply Nat.eqb_neq; simpl in Hlen; lia).
    rewrite IH; [reflexivity|reflexivity|simpl in *; lia].
Qed.

Lemma toDynamic_nestedCast column first rest :
  Js.split "." (Name column) = first :: rest ->
  toDynamic column = nestedCast (CslType column) ("todynamic(" +:+ first +:+ ")") rest.
Proof.
  intros Hs. unfold toDynamic, Js.reduce. rewrite Hs.
  simpl Js.reduce_from.
  apply toDynamic_reduce_from with (n := S (length rest)).
  - reflexivity.
  - reflexivity.
  - reflexivity.
Qed.

Lemma find_declared column T (schema : list AdxColumnSchema) :
  In (mkColumn column T) schema ->
  (forall c, In c schema -> Name c = column -> CslType c = T) ->
  exists c, find (fun c => String.eqb (Name c) column) schema = Some c
            /\ Name c = column /\ CslType c = T.
Proof.
  induction schema as [|c0 schema IH]; intros Hin Huniq; [destruct Hin|].
  simpl. destruct (String.eqb_spec (Name c0) column) as [Heq|Hne].
  - exists c0. repeat split; [assumption|]. apply Huniq; [now left|assumption].
  - destruct Hin as [->|Hin]; [now simpl in Hne|].
    apply IH; [assumption|]. intros c Hc. apply Huniq. now right.
Qed.

(** C2. For a column name with a path separator that the schema declares
    with type [T], [castIfDynamic] returns the nested cast: the first
    segment becomes [todynamic(first)], every further segment but the last
    wraps the accumulated expression as [todynamic(acc.segment)], and the
    last wraps it as [toT(acc.last)]. *)
Theorem castIfDynamic_nested_cast (column T : string) (schema : list AdxColumnSchema) :
  Js.includes "." column = true ->
  In (mkColumn column T) schema ->
  (forall c, In c schema -> Name c = column -> CslType c = T) ->
  exists first rest,
    Js.split "." column = first :: rest /\ rest <> [] /\
    castIfDynamic column (Some schema)
    = nestedCast T ("todynamic(" +:+ first +:+ ")") rest.
Proof.
  intros Hdot Hin Huniq.
  destruct (split_includes_dot column Hdot) as (first & rest & Hsplit & Hrest).
  exists first, rest. split; [assumption|]. split; [assumption|].
  destruct (find_declared column T schema Hin Huniq) as (c & Hfind & Hname & Htype).
  unfold castIfDynamic, isDynamic. rewrite Hdot.
  assert (Js.truthy column = true) as ->.
  { apply truthy_nonempty. intros ->. discriminate Hdot. }
  simpl. rewrite Hfind.
  rewrite (toDynamic_nestedCast c first rest) by (now rewrite Hname).
  now rewrite Htype.
Qed.

(** The instance of the specification: ["Tags.region"] of type
    ["string"]. *)
Lemma castIfDynamic_Tags_region :
  castIfDynamic "Tags.region" (Some [mkColumn "Tags.region" "string"])
  = "tostring(todynamic(Tags).region)".
Proof.
  destruct (castIfDynamic_nested_cast "Tags.region" "string"
              [mkColumn "Tags.region" "string"]) as (first & rest & Hs & _ & ->).
  - reflexivity.
  - left. reflexivity.
  - intros c [<-|[]] _. reflexivity.
  - vm_compute in Hs. injection Hs as <- <-. reflexivity.
Defined.

(** ** The regular expression of [isValidTimeSpan] *)

Module RegexFacts.
Import Regex.

Local Arguments String.append !_ _ / : simpl nomatch.

Lemma append_nil_inv s1 s2 : EmptyString = s1 +:+ s2 -> s1 = EmptyString /\ s2 = EmptyString.
Proof. destruct s1; simpl; [intros H; now split|discriminate]. Qed.

Lemma append_nil_r s : s +:+ EmptyString = s.
Proof. induction s as [|c s IH]; simpl; [reflexivity|now rewrite IH]. Qed.

Lemma append_assoc s1 s2 s3 : (s1 +:+ s2) +:+ s3 = s1 +:+ (s2 +:+ s3).
Proof. induction s1 as [|c s1 IH]; simpl; [reflexivity|now rewrite IH]. Qed.

Lemma length_append s1 s2 :
  String.length (s1 +:+ s2) = String.length s1 + String.length s2.
Proof. induction s1 as [|c s1 IH]; simpl; [reflexivity|now rewrite IH]. Qed.

Lemma nullable_denote r : nullable r = true <-> denote r EmptyString.
Proof.
  induction r as [| |p|r1 IH1 r2 IH2|r1 IH1 r2 IH2]; simpl.
  - easy.
  - easy.
  - split; [discriminate|]. now intros (c & Hc & _).
  - rewrite andb_true_iff, IH1, IH2. split.
    + intros [H1 H2]. now exists EmptyString, EmptyString.
    + intros (s1 & s2 & Hs & H1 & H2).
      apply append_nil_inv in Hs as [-> ->]. easy.
  - rewrite orb_true_iff, IH1, IH2. easy.
Qed.

Lemma deriv_denote c r : forall s, denote (deriv c r) s <-> denote r (String c s).
Proof.
  induction r as [| |p|r1 IH1 r2 IH2|r1 IH1 r2 IH2]; intros s; simpl.
  - easy.
  - easy.
  - destruct (p c) eqn:Hp; simpl; split.
    + intros ->. now exists c.
    + intros (c' & Hc & _). now injection Hc.
    + easy.
    + intros (c' & Hc & Hp'). injection Hc as <- _. congruence.
  - assert (Hseq : (exists s1 s2, s = s1 +:+ s2 /\ denote (deriv c r1) s1 /\ denote r2 s2)
                   \/ (nullable r1 = true /\ denote (deriv c r2) s)
                   <-> exists s1 s2, String c s = s1 +:+ s2 /\ denote r1 s1 /\ denote r2 s2).
    { split.
      - intros [(s1 & s2 & -> & H1 & H2)|[Hn H2]].
        + exists (String c s1), s2. rewrite <- IH1. easy.
        + exists EmptyString, (String c s).
          rewrite <- nullable_denote, <- IH2. easy.
      - intros (s1 & s2 & Hs & H1 & H2). destruct s1 as [|c1 s1].
        + right. simpl in Hs. subst s2. rewrite nullable_denote, IH2. easy.
        + left. simpl in Hs. injection Hs as <- ->.
          exists s1, s2. rewrite IH1. easy. }
    rewrite <- Hseq. destruct (nullable r1); simpl.
    + split; [intros [H|H]; [now left|right; now split]|].
      intros [H|[_ H]]; [now left|now right].
    + split; [now left|]. now intros [H|[H _]].
  - now rewrite IH1, IH2.
Qed.

(** The matcher decides the language. *)
Lemma matches_denote s : forall r, matches r s = true <-> denote r s.
Proof.
  induction s as [|c s IH]; intros r; simpl.
  - apply nullable_denote.
  - rewrite IH. apply deriv_denote.
Qed.

Lemma denote_lit w s : denote (lit w) s <-> s = w.
Proof.
  revert s. induction w as [|c w IH]; intros s; simpl; [easy|]. split.
  - intros (s1 & s2 & -> & (c' & -> & Hc) & H2).
    apply Ascii.eqb_eq in Hc as <-. apply IH in H2 as ->. reflexivity.
  - intros ->. exists (String c EmptyString), w. split; [reflexivity|]. split.
    + exists c. split; [reflexivity|apply Ascii.eqb_refl].
    + now apply IH.
Qed.

Lemma denote_upto_class p n : forall s,
  denote (upto n (Class p)) s <-> String.length s <= n /\ Js.every p s = true.
Proof.
  induction n as [|n IH]; intros s; simpl.
  - split; [intros ->; simpl; split; [lia|reflexivity]|].
    intros [Hl _]. destruct s; [reflexivity|simpl in Hl; lia].
  - split.
    + intros [->|(s1 & s2 & -> & (c & -> & Hc) & H2)]; simpl.
      * split; [lia|reflexivity].
      * apply IH in H2 as [Hl He]. rewrite Hc, He. split; [lia|reflexivity].
    + intros [Hl He]. destruct s as [|c s]; [now left|right].
      simpl in Hl, He. apply andb_true_iff in He as [Hc He].
      exists (String c EmptyString), s. split; [reflexivity|]. split.
      * now exists c.
      * apply IH. split; [lia|assumption].
Qed.

Lemma denote_repeat_class p lo : forall hi s,
  lo <= hi ->
  denote (repeat lo hi (Class p)) s
  <-> lo <= String.length s <= hi /\ Js.every p s = true.
Proof.
  induction lo as [|lo IH]; intros hi s Hle; simpl.
  - rewrite denote_upto_class. split; intros [H1 H2]; (split; [lia|assumption]).
  - split.
    + intros (s1 & s2 & -> & (c & -> & Hc) & H2).
      apply IH in H2 as [Hl He]; [|lia]. simpl. rewrite Hc, He.
      split; [lia|reflexivity].
    + intros [Hl He]. destruct s as [|c s]; [simpl in Hl; lia|].
      simpl in Hl, He. apply andb_true_iff in He as [Hc He].
      exists (String c EmptyString), s. split; [reflexivity|]. split.
      * now exists c.
      * apply IH; [lia|]. split; [lia|assumption].
Qed.

Lemma denote_Seq r1 r2 s :
  denote (Seq r1 r2) s <-> exists s1 s2, s = s1 +:+ s2 /\ denote r1 s1 /\ denote r2 s2.
Proof. reflexivity. Qed.

Lemma denote_unitPattern u :
  denote unitPattern u <-> In u ["d"; "h"; "ms"; "s"; "m"].
Proof.
  unfold unitPattern. cbn [denote]. rewrite !denote_lit. simpl In.
  split.
  - intros [H|[H|[H|[H|H]]]]; subst; auto 6.
  - intros [H|[H|[H|[H|[H|[]]]]]]; subst; auto 6.
Qed.

Lemma denote_optional r u :
  denote (repeat 0 1 r) u <-> u = EmptyString \/ denote r u.
Proof.
  simpl. split.
  - intros [->|(s1 & s2 & -> & H1 & ->)]; [now left|right].
    now rewrite append_nil_r.
  - intros [->|H]; [now left|right].
    exists u, EmptyString. now rewrite append_nil_r.
Qed.

Lemma lines_single s :
  Js.every (fun c => negb (Js.isLineTerminator c)) s = true -> Js.lines s = [s].
Proof.
  induction s as [|c s IH]; simpl; [reflexivity|].
  intros H. apply andb_true_iff in H as [Hc Hs].
  apply negb_true_iff in Hc. rewrite Hc, (IH Hs). reflexivity.
Qed.

End RegexFacts.

(** ** Time-shift names *)

Lemma matches_timeSpanPattern s :
  Regex.matches timeSpanPattern s = true <-> boundedTimeSpan s.
Proof.
  rewrite RegexFacts.matches_denote. unfold timeSpanPattern, boundedTimeSpan.
  rewrite RegexFacts.denote_Seq. split.
  - intros (s1 & s2 & -> & H1 & H2). exists s1, s2.
    apply (RegexFacts.denote_repeat_class Js.isDigit 1 15 s1) in H1 as [Hl Hd]; [|lia].
    apply (proj1 (RegexFacts.denote_optional unitPattern s2)) in H2.
    rewrite RegexFacts.denote_unitPattern in H2.
    easy.
  - intros (s1 & s2 & -> & Hl & Hd & Hu). exists s1, s2. split; [reflexivity|]. split.
    + apply (RegexFacts.denote_repeat_class Js.isDigit 1 15 s1); [lia|easy].
    + apply (proj2 (RegexFacts.denote_optional unitPattern s2)).
      now rewrite RegexFacts.denote_unitPattern.
Qed.

(** On a name of one line the test is the match of the whole name. *)
Lemma isValidTimeSpan_singleLine name :
  singleLine name -> (isValidTimeSpan name = true <-> boundedTimeSpan name).
Proof.
  intros Hl. unfold isValidTimeSpan, Regex.test_anchored_multiline.
  rewrite (RegexFacts.lines_single name Hl). simpl. rewrite orb_false_r.
  apply matches_timeSpanPattern.
Qed.


(** ** Stage builders only append *)

(** Induction on an expression tree, with the hypothesis for every child
    of an And/Or node. *)
Lemma expression_ind' (P : QueryEditorExpression -> Prop) :
  (forall p, P (PropertyExpression p)) ->
  (forall p o, P (OperatorExpression p o)) ->
  (forall p r ps, P (ReduceExpression p r ps)) ->
  (forall p i, P (GroupByExpression p i)) ->
  (forall c exps, Forall P exps -> P (ArrayExpression c exps)) ->
  forall e, P e.
Proof.
  intros HProperty HOperator HReduce HGroupBy HArray.
  fix IH 1. intros [p|p o|p r ps|p i|c exps].
  - apply HProperty.
  - apply HOperator.
  - apply HReduce.
  - apply HGroupBy.
  - apply HArray. revert exps. fix IHexps 1. intros [|child exps].
    + constructor.
    + constructor; [apply IH|apply IHexps].
Qed.

Lemma fold_left_append_only {A : Type} (g : A -> list string -> list string) (l : list A) :
  Forall (fun x => forall ps, g x ps = ps ++ g x []) l ->
  forall parts,
    fold_left (fun ps x => g x ps) l parts = parts ++ flat_map (fun x => g x []) l.
Proof.
  induction 1 as [|x l Hx _ IH]; intros parts; simpl.
  - now rewrite app_nil_r.
  - rewrite IH, Hx. now rewrite <- app_assoc.
Qed.

Section BuilderFacts.

Variable templateSrv : TemplateSrv.
Variable context : ParseContext.

Lemma appendOperator_app property operator parts prefix :
  appendOperator templateSrv context property operator parts prefix
  = parts ++ appendOperator templateSrv context property operator [] prefix.
Proof.
  unfold appendOperator.
  destruct (negb (Js.truthy (prop_name property)) || negb (Js.truthy (op_name operator)));
    [now rewrite app_nil_r|].
  now destruct (String.eqb (op_name operator) "isnotempty").
Qed.

Lemma appendWhere_app expression : forall parts prefix,
  appendWhere templateSrv context expression parts prefix
  = parts ++ appendWhere templateSrv context expression [] prefix.
Proof.
  induction expression as [p|p o|p r ps|p i|c exps IH] using expression_ind';
    intros parts prefix; simpl; try (now rewrite app_nil_r).
  - apply appendOperator_app.
  - destruct c.
    + rewrite !(fold_left_append_only
                  (fun exp ps => appendWhere templateSrv context exp ps prefix)).
      * reflexivity.
      * eapply Forall_impl; [exact IH|]. intros exp Hexp ps. apply Hexp.
      * eapply Forall_impl; [exact IH|]. intros exp Hexp ps. apply Hexp.
    + destruct (fold_left _ exps []); [now rewrite app_nil_r|reflexivity].
Qed.

(** An And node emits the stages of its children, in their order. *)
Lemma appendWhere_And exps prefix :
  appendWhere templateSrv context (ArrayExpression And exps) [] prefix
  = flat_map (fun exp => appendWhere templateSrv context exp [] prefix) exps.
Proof.
  simpl.
  rewrite (fold_left_append_only
             (fun exp ps => appendWhere templateSrv context exp ps prefix)).
  - reflexivity.
  - apply Forall_forall. intros exp _ ps. apply appendWhere_app.
Qed.

(** The local buffer of an Or node: the clauses of its children, lowered
    without prefix. *)
Lemma orParts_flat_map exps :
  fold_left (fun ps exp => appendWhere templateSrv context exp ps None) exps []
  = flat_map (fun exp => appendWhere templateSrv context exp [] None) exps.
Proof.
  rewrite (fold_left_append_only
             (fun exp ps => appendWhere templateSrv context exp ps None)).
  - reflexivity.
  - apply Forall_forall. intros exp _ ps. apply appendWhere_app.
Qed.

Lemma appendTimeFilter_app expression parts :
  appendTimeFilter context expression parts
  = parts ++ appendTimeFilter context expression [].
Proof.
  unfold appendTimeFilter.
  destruct (negb (Js.truthy_opt (timeColumn context))); [now rewrite app_nil_r|].
  destruct (Js.truthy_opt (detectTimeshift context expression)); [reflexivity|].
  now destruct (isDynamic (Js.show (timeColumn context))).
Qed.

Lemma appendTimeshift_app expression parts :
  appendTimeshift context expression parts
  = parts ++ appendTimeshift context expression [].
Proof.
  unfold appendTimeshift.
  destruct (negb (Js.truthy_opt (detectTimeshift context expression)));
    [now rewrite app_nil_r|reflexivity].
Qed.

Lemma appendSummarize_app smoothingExpr reduce groupBy parts :
  appendSummarize templateSrv context smoothingExpr reduce groupBy parts
  = parts ++ appendSummarize templateSrv context smoothingExpr reduce groupBy [].
Proof.
  unfold appendSummarize.
  repeat match goal with
         | |- context [if ?b then _ else _] => destruct b
         end; try reflexivity; now rewrite app_nil_r.
Qed.

Lemma appendSmoothing_app smoothingExpr reduce groupBy parts :
  appendSmoothing context smoothingExpr reduce groupBy parts
  = parts ++ appendSmoothing context smoothingExpr reduce groupBy [].
Proof.
  unfold appendSmoothing.
  destruct (negb (Js.truthy_opt (detectSmoothing smoothingExpr))
            || (length (expressions reduce) =? 0)
            || (length (expressions groupBy) =? 0)); [now rewrite app_nil_r|].
  destruct (fold_left (smoothingReduceStep context) (expressions reduce) ("", ""))
    as [reduceFunc reduceColumn].
  destruct (fold_left (smoothingGroupByStep context) (expressions groupBy) ("", []))
    as [groupByInterval groupByParts].
  repeat match goal with
         | |- context [if ?b then _ else _] => destruct b
         end; rewrite <- ?app_assoc; reflexivity.
Qed.

Lemma appendOrderBy_app groupBy reduce parts :
  appendOrderBy context groupBy reduce parts
  = parts ++ appendOrderBy context groupBy reduce [].
Proof.
  unfold appendOrderBy.
  destruct (negb (Js.truthy_opt (timeColumn context))); [now rewrite app_nil_r|].
  destruct ((length (expressions groupBy) =? 0) && (length (expressions reduce) =? 0));
    [reflexivity|].
  destruct (find _ (expressions groupBy)); [reflexivity|now rewrite app_nil_r].
Qed.

End BuilderFacts.

(** The pipeline of [toQuery]: the stages of the seven builders, each run
    on an empty array, one after the other. *)
Lemma toQueryParts_stages templateSrv expression from tableSchema :
  let context := makeContext tableSchema expression in
  toQueryParts templateSrv expression from tableSchema
  = [prop_name (pe_property from)]
    ++ appendTimeFilter context (timeshift expression) []
    ++ appendWhere templateSrv context (asExpression (where_ expression)) [] (Some "where")
    ++ appendTimeshift context (timeshift expression) []
    ++ appendSummarize templateSrv context (smoothing expression) (reduce expression)
         (groupBy expression) []
    ++ appendSmoothing context (smoothing expression) (reduce expression)
         (groupBy expression) []
    ++ appendOrderBy context (groupBy expression) (reduce expression) [].
Proof.
  intros context. unfold toQueryParts. fold context.
  rewrite appendOrderBy_app, appendSmoothing_app, appendSummarize_app,
    appendTimeshift_app, appendWhere_app, appendTimeFilter_app.
  unfold appendProperty. rewrite <- !app_assoc. reflexivity.
Qed.

(** ** Scenarios of [toQuery] *)

(** C1. From [Logs], grouped by the DateTime property [Timestamp] with
    interval ["5m"], reduced by one [count], with an empty [where] and
    neither time-shift nor smoothing, [toQuery] returns the four stages
    [Logs], [where $__timeFilter(Timestamp)],
    [summarize count() by bin(Timestamp, 5m)], [order by Timestamp asc],
    in that order, joined by a line feed and ["| "]; whatever the schema,
    the template variables and the property the count refers to. *)
Theorem toQuery_count_by_time_bin
    (templateSrv : TemplateSrv) (tableSchema : option (list AdxColumnSchema))
    (counted : QueryEditorProperty) (c0 c1 c2 : Combinator)
    (t1 t2 t3 : QueryEditorPropertyType.t) :
  toQuery templateSrv
    (Some {| from := Some (mkPropertyExpression (mkProperty "Logs" t1));
             where_ := mkArray c0 [];
             reduce := mkArray c1 [ReduceExpression counted (mkProperty "count" t2) None];
             groupBy := mkArray c2
               [GroupByExpression (mkProperty "Timestamp" QueryEditorPropertyType.DateTime)
                                  (Some (mkProperty "5m" t3))];
             timeshift := None;
             smoothing := None |})
    tableSchema
  = Js.join separator
      ["Logs";
       "where $__timeFilter(Timestamp)";
       "summarize count() by bin(Timestamp, 5m)";
       "order by Timestamp asc"].
Proof.
  destruct tableSchema as [schema|], c0; reflexivity.
Qed.

(** C7. With smoothing ["ewma"], the reduction [avg(Value)] and a group-by
    on [Timestamp] with interval ["1m"], the pipeline is [Logs], the time
    filter, then [make-series], [extend b=series_exp_smoothing_udf(a, 0.5)],
    [mv-expand] and [project] in this order, then the order-by; the weight
    0.5 is the entry of index 1 of the ewma table. *)
Theorem toQuery_ewma_smoothing
    (templateSrv : TemplateSrv) (tableSchema : option (list AdxColumnSchema))
    (c0 c1 c2 : Combinator) (t1 t2 t3 t4 t5 : QueryEditorPropertyType.t) :
  toQuery templateSrv
    (Some {| from := Some (mkPropertyExpression (mkProperty "Logs" t1));
             where_ := mkArray c0 [];
             reduce := mkArray c1
               [ReduceExpression (mkProperty "Value" t2) (mkProperty "avg" t3) None];
             groupBy := mkArray c2
               [GroupByExpression (mkProperty "Timestamp" QueryEditorPropertyType.DateTime)
                                  (Some (mkProperty "1m" t4))];
             timeshift := None;
             smoothing := Some (mkPropertyExpression (mkProperty "ewma" t5)) |})
    tableSchema
  = Js.join separator
      ["Logs";
       "where $__timeFilter(Timestamp)";
       "make-series a=avg(Value) on Timestamp from $__timeFrom to $__timeTo step 1m";
       "extend b=series_exp_smoothing_udf(a, 0.5)";
       "mv-expand Timestamp to typeof(datetime), b to typeof(real)";
       "project Timestamp, b";
       "order by Timestamp asc"]
  /\ translateSmoothingWeight "ewma" "1" = Js.Str "0.5"
  /\ ewmaWeights = ["0.7"; "0.5"; "0.3"; "0.1"]
  /\ ewmaWeights !! 1 = Some "0.5".
Proof.
  split; [|repeat split].
  destruct tableSchema as [schema|], c0; reflexivity.
Qed.

(** ** Time-shift *)

Lemma boundedTimeSpan_nonempty name : boundedTimeSpan name -> name <> "".
Proof.
  intros (m & u & -> & Hl & _) Hn.
  apply (f_equal String.length) in Hn. rewrite RegexFacts.length_append in Hn.
  simpl in Hn. lia.
Qed.

Lemma detectTimeshift_invalid context name t :
  isValidTimeSpan name = false ->
  detectTimeshift context (Some (mkPropertyExpression (mkProperty name t))) = None.
Proof.
  intros H. unfold detectTimeshift. simpl. rewrite H.
  now destruct (negb (Js.truthy_opt (timeColumn context))).
Qed.

Lemma detectTimeshift_valid context name t tc :
  isValidTimeSpan name = true -> timeColumn context = Some tc -> tc <> "" ->
  detectTimeshift context (Some (mkPropertyExpression (mkProperty name t))) = Some name.
Proof.
  intros H Htc Hne. unfold detectTimeshift. simpl. rewrite H, Htc. simpl.
  apply truthy_nonempty in Hne. now rewrite Hne.
Qed.

(** C4, as the code has it. For a time-shift name of one line: when the
    name is not one to fifteen digits followed by one of d, h, ms, s, m or
    by nothing, [toQuery] compiles as if there were no time-shift, so the
    filter is unshifted and no re-aligning [extend] is added; when it is,
    and a time column is resolved, the filter stage is
    [where <timeColumn> between (($__timeFrom - <shift>) .. ($__timeTo - <shift>))]
    and the stage [extend <timeColumn> = <timeColumn> + <shift>] follows
    the [where] stages. *)
Theorem toQuery_timeshift_bounded
    (templateSrv : TemplateSrv) (e : QueryExpression) (f : QueryEditorPropertyExpression)
    (tableSchema : option (list AdxColumnSchema))
    (name : string) (t : QueryEditorPropertyType.t) :
  timeshift e = Some (mkPropertyExpression (mkProperty name t)) ->
  singleLine name ->
  let context := makeContext tableSchema e in
  (~ boundedTimeSpan name ->
   toQueryParts templateSrv e f tableSchema
   = toQueryParts templateSrv (withoutTimeshift e) f tableSchema)
  /\
  (boundedTimeSpan name ->
   forall tc, timeColumn context = Some tc -> tc <> "" ->
   toQueryParts templateSrv e f tableSchema
   = [prop_name (pe_property f);
      "where " +:+ tc +:+ " between (($__timeFrom - " +:+ name
        +:+ ") .. ($__timeTo - " +:+ name +:+ "))"]
     ++ appendWhere templateSrv context (asExpression (where_ e)) [] (Some "where")
     ++ ["extend " +:+ tc +:+ " = " +:+ tc +:+ " + " +:+ name]
     ++ appendSummarize templateSrv context (smoothing e) (reduce e) (groupBy e) []
     ++ appendSmoothing context (smoothing e) (reduce e) (groupBy e) []
     ++ appendOrderBy context (groupBy e) (reduce e) []).
Proof.
  intros Hts Hline context. split.
  - intros Hbad.
    assert (Hinvalid : isValidTimeSpan name = false).
    { destruct (isValidTimeSpan name) eqn:Hv; [|reflexivity].
      now apply (isValidTimeSpan_singleLine name Hline) in Hv. }
    rewrite !toQueryParts_stages.
    change (makeContext tableSchema (withoutTimeshift e)) with context.
    fold context. simpl. rewrite Hts.
    unfold appendTimeFilter, appendTimeshift.
    rewrite (detectTimeshift_invalid context name t Hinvalid).
    assert (detectTimeshift context None = None) as -> by reflexivity.
    reflexivity.
  - intros Hok tc Htc Hne.
    assert (Hvalid : isValidTimeSpan name = true)
      by now apply (isValidTimeSpan_singleLine name Hline).
    rewrite toQueryParts_stages. fold context. rewrite Hts.
    unfold appendTimeFilter, appendTimeshift.
    rewrite (detectTimeshift_valid context name t tc Hvalid Htc Hne), Htc.
    pose proof (boundedTimeSpan_nonempty name Hok) as Hname.
    apply truthy_nonempty in Hname, Hne. simpl. rewrite Hname, Hne. simpl.
    reflexivity.
Qed.

(** The time-shift ["5m"] on [Timestamp]. *)
Lemma toQuery_timeshift_bounded_witness :
  toQueryParts noVariables (shiftedQuery "5m") Logs timestampSchema
  = ["Logs";
     "where Timestamp between (($__timeFrom - 5m) .. ($__timeTo - 5m))";
     "extend Timestamp = Timestamp + 5m";
     "order by Timestamp asc"].
Proof.
  destruct (toQuery_timeshift_bounded noVariables (shiftedQuery "5m") Logs timestampSchema
              "5m" QueryEditorPropertyType.String) as [_ H].
  - reflexivity.
  - reflexivity.
  - assert (Hok : boundedTimeSpan "5m").
    { exists "5", "m". split; [reflexivity|]. split; [simpl; lia|].
      split; [reflexivity|]. right. simpl. auto 6. }
    assert (Hne : "Timestamp" <> "") by discriminate.
    rewrite (H Hok "Timestamp" eq_refl Hne). reflexivity.
Defined.

(** C4 as the specification words it fails in both directions: the name
    ["5"] has no unit and still shifts the filter, and a magnitude of
    sixteen digits with the unit [m] is ignored. *)
Lemma timeshift_grammar_counterexample :
  (~ magnitudeWithUnit "5"
   /\ toQueryParts noVariables (shiftedQuery "5") Logs timestampSchema
      = ["Logs";
         "where Timestamp between (($__timeFrom - 5) .. ($__timeTo - 5))";
         "extend Timestamp = Timestamp + 5";
         "order by Timestamp asc"]
   /\ toQueryParts noVariables (shiftedQuery "5") Logs timestampSchema
      <> toQueryParts noVariables (withoutTimeshift (shiftedQuery "5"))
           Logs timestampSchema)
  /\
  (magnitudeWithUnit "1234567890123456m"
   /\ toQueryParts noVariables (shiftedQuery "1234567890123456m") Logs timestampSchema
      = ["Logs"; "where $__timeFilter(Timestamp)"; "order by Timestamp asc"]
   /\ toQueryParts noVariables (shiftedQuery "1234567890123456m") Logs timestampSchema
      = toQueryParts noVariables (withoutTimeshift (shiftedQuery "1234567890123456m"))
          Logs timestampSchema).
Proof.
  split; split.
  - intros (m & u & H & Hne & _ & Hin).
    destruct m as [|c m]; [now apply Hne|].
    injection H as _ H. apply RegexFacts.append_nil_inv in H as [_ ->].
    simpl in Hin. intuition discriminate.
  - split; [vm_compute; reflexivity|]. vm_compute. discriminate.
  - exists "1234567890123456", "m". repeat split; [discriminate|simpl; auto 6].
  - split; vm_compute; reflexivity.
Qed.

(** ** The [where] tree *)

(** What [appendWhere] does on an Or node: with at least one clause, one
    stage that starts with the word [where], whatever the prefix; without
    clause, nothing. *)
Lemma appendWhere_Or templateSrv context children parts prefix :
  appendWhere templateSrv context (ArrayExpression Or children) parts prefix
  = match orClauses templateSrv context children with
    | [] => parts
    | clauses => parts ++ ["where " +:+ Js.join " or " clauses]
    end.
Proof.
  simpl. rewrite orParts_flat_map. unfold orClauses.
  now destruct (flat_map _ children).
Qed.

(** At the prefix [where], the one [toQuery] starts from and And nodes
    pass on, the stage of an Or node is the prefix, a space and the
    clauses joined with [ or ]. *)
Lemma appendWhere_Or_where templateSrv context children parts :
  appendWhere templateSrv context (ArrayExpression Or children) parts (Some "where")
  = match orClauses templateSrv context children with
    | [] => parts
    | clauses => parts ++ [withPrefix (Js.join " or " clauses) (Some "where")]
    end.
Proof.
  apply appendWhere_Or.
Qed.

(** C5 at an Or node below an Or node. The inner node is lowered without
    prefix, so its stage should be its clauses joined with [ or ] and
    nothing before them; the code writes the word [where] all the same,
    and the stage of the outer node has it twice. *)
Theorem appendWhere_Or_below_Or (context : ParseContext) :
  let inner := ArrayExpression Or [filterA; filterB] in
  orClauses noVariables context [filterA; filterB] = ["a == 'x'"; "b == 'y'"]
  /\ withPrefix (Js.join " or " ["a == 'x'"; "b == 'y'"]) None = "a == 'x' or b == 'y'"
  /\ appendWhere noVariables context inner [] None = ["where a == 'x' or b == 'y'"]
  /\ toQuery noVariables
       (Some {| from := Some Logs;
                where_ := mkArray Or [inner; filterC];
                reduce := mkArray And [];
                groupBy := mkArray And [];
                timeshift := None;
                smoothing := None |})
       None
     = Js.join separator ["Logs"; "where where a == 'x' or b == 'y' or c == 'z'"].
Proof.
  repeat split.
Qed.

Lemma appendWhere_resolvedFilter templateSrv context child :
  resolvedFilter child ->
  appendWhere templateSrv context child [] (Some "where") = [whereStage templateSrv child].
Proof.
  destruct child as [p|p o|p r ps|p i|c exps]; try (intros H; contradiction).
  intros [Hp Ho]. apply truthy_nonempty in Hp, Ho.
  simpl. unfold appendOperator. rewrite Hp, Ho. simpl.
  now destruct (String.eqb (op_name o) "isnotempty").
Qed.

Lemma whereStage_prefix templateSrv child :
  resolvedFilter child -> String.prefix "where " (whereStage templateSrv child) = true.
Proof.
  destruct child as [p|p o|p r ps|p i|c exps]; try (intros H; contradiction).
  intros _. simpl. destruct (String.eqb (op_name o) "isnotempty"); apply prefix_append.
Qed.

(** C6. When the [where] tree is an And node whose N children each carry
    a property name, an operator name and a value, the tree contributes
    exactly N stages to the pipeline of [toQuery], one per child and in
    the order of the children, each a [where] stage; they stand after the
    source and the time filter and before the stages of the later
    builders. *)
Theorem toQuery_And_where_stages
    (templateSrv : TemplateSrv) (e : QueryExpression) (f : QueryEditorPropertyExpression)
    (tableSchema : option (list AdxColumnSchema)) (children : list QueryEditorExpression) :
  where_ e = mkArray And children ->
  Forall resolvedFilter children ->
  let context := makeContext tableSchema e in
  toQueryParts templateSrv e f tableSchema
  = ([prop_name (pe_property f)] ++ appendTimeFilter context (timeshift e) [])
    ++ map (whereStage templateSrv) children
    ++ (appendTimeshift context (timeshift e) []
        ++ appendSummarize templateSrv context (smoothing e) (reduce e) (groupBy e) []
        ++ appendSmoothing context (smoothing e) (reduce e) (groupBy e) []
        ++ appendOrderBy context (groupBy e) (reduce e) [])
  /\ length (map (whereStage templateSrv) children) = length children
  /\ Forall (fun stage => String.prefix "where " stage = true)
            (map (whereStage templateSrv) children).
Proof.
  intros Hwhere Hchildren context. split; [|split].
  - rewrite toQueryParts_stages. fold context. rewrite Hwhere.
    unfold asExpression. simpl arr_type. simpl expressions.
    rewrite appendWhere_And.
    assert (flat_map (fun exp => appendWhere templateSrv context exp [] (Some "where"))
              children
            = map (whereStage templateSrv) children) as ->.
    { clear Hwhere.
      induction Hchildren as [|child children Hchild _ IH]; [reflexivity|].
      cbn [flat_map map].
      rewrite (appendWhere_resolvedFilter templateSrv context child Hchild), IH.
      reflexivity. }
    now rewrite <- !app_assoc.
  - apply length_map.
  - apply Forall_map. eapply Forall_impl; [exact Hchildren|].
    intros child Hchild. now apply whereStage_prefix.
Qed.

(** Three filters below an And node, on a table with a time column. *)
Lemma toQuery_And_where_stages_witness :
  toQueryParts noVariables
    {| from := Some Logs;
       where_ := mkArray And [filterA; filterB; filterC];
       reduce := mkArray And [];
       groupBy := mkArray And [];
       timeshift := None;
       smoothing := None |}
    Logs timestampSchema
  = ["Logs"; "where $__timeFilter(Timestamp)";
     "where a == 'x'"; "where b == 'y'"; "where c == 'z'";
     "order by Timestamp asc"].
Proof.
  destruct (toQuery_And_where_stages noVariables
              {| from := Some Logs;
                 where_ := mkArray And [filterA; filterB; filterC];
                 reduce := mkArray And [];
                 groupBy := mkArray And [];
                 timeshift := None;
                 smoothing := None |}
              Logs timestampSchema [filterA; filterB; filterC]) as [H _].
  - reflexivity.
  - repeat constructor; discriminate.
  - rewrite H. reflexivity.
Defined.

(** ** Smoothing *)

Lemma length_zero_iff {A : Type} (l : list A) : (length l =? 0) = false <-> l <> [].
Proof. destruct l; simpl; split; intros H; easy. Qed.

Lemma length_pos_match {A B : Type} (l : list A) (x y : B) :
  (if 0 <? length l then x else y) = match l with [] => y | _ => x end.
Proof. now destruct l. Qed.

Lemma last_cons {A : Type} (l : list A) : forall x d,
  List.last (x :: l) d = List.last l x.
Proof.
  induction l as [|y l IH]; intros x d; [reflexivity|].
  change (List.last (x :: y :: l) d) with (List.last (y :: l) d).
  change (List.last (y :: l) x) with (List.last (y :: l) x).
  now rewrite (IH y d), (IH y x).
Qed.

(** The first loop of [appendSmoothing] keeps the last reduction. *)
Lemma smoothing_reduce_loop context l : forall st,
  fold_left (smoothingReduceStep context) l st
  = List.last (flat_map (reductionOf context) l) st.
Proof.
  induction l as [|e l IH]; intros st; [reflexivity|].
  cbn [fold_left flat_map]. rewrite IH.
  destruct e as [p|p o|p r ps|p i|c exps]; try reflexivity.
  cbn [smoothingReduceStep reductionOf app]. now rewrite last_cons.
Qed.

(** Its second loop keeps the last interval and collects the plain
    columns. *)
Lemma smoothing_groupBy_loop context l : forall st,
  fold_left (smoothingGroupByStep context) l st
  = (List.last (flat_map intervalOf l) (fst st),
     snd st ++ flat_map (plainTerm context) l).
Proof.
  induction l as [|e l IH]; intros st.
  - simpl. rewrite app_nil_r. now destruct st.
  - cbn [fold_left flat_map]. rewrite IH.
    destruct e as [p|p o|p r ps|p [i|]|c exps]; try reflexivity.
    + cbn [smoothingGroupByStep intervalOf plainTerm app fst snd].
      now rewrite last_cons.
    + cbn [smoothingGroupByStep intervalOf plainTerm app fst snd].
      now rewrite <- app_assoc.
Qed.

(** C8. With the smoothing algorithm ["median"], a non-empty reduce and a
    non-empty group-by, [appendSmoothing] adds exactly one stage:
    [evaluate rolling_percentile(<func>_<castColumn>, 50, <timeColumn>,
    <interval>, <weight>[, <groups>])], where [<func>] and [<castColumn>]
    are the function and the cast column of the last reduction,
    [<interval>] is the interval of the last group-by entry that has one,
    [<groups>] are the cast columns of the group-by entries without
    interval, in their order, and [<weight>] is the entry of index 1 of
    the median table; no stage it adds starts with [make-series],
    [extend] or [mv-expand]. *)
Theorem appendSmoothing_median
    (context : ParseContext) (smoothingExpression : option QueryEditorPropertyExpression)
    (reduceExpression groupByExpression : QueryEditorArrayExpression)
    (parts : list string) :
  detectSmoothing smoothingExpression = Some "median" ->
  expressions reduceExpression <> [] ->
  expressions groupByExpression <> [] ->
  appendSmoothing context smoothingExpression reduceExpression groupByExpression parts
  = parts ++ [rollingPercentileStage
                (fst (lastReduction context (expressions reduceExpression)))
                (snd (lastReduction context (expressions reduceExpression)))
                (Js.show (timeColumn context))
                (lastInterval (expressions groupByExpression))
                "5"
                (flat_map (plainTerm context) (expressions groupByExpression))]
  /\ (forall before property reduce parameters,
        expressions reduceExpression
        = before ++ [ReduceExpression property reduce parameters] ->
        lastReduction context (expressions reduceExpression)
        = (prop_name reduce, ctx_castIfDynamic context (prop_name property)))
  /\ translateSmoothingWeight "median" "1" = Js.Str "5"
  /\ medianWeights !! 1 = Some "5"
  /\ Forall (fun stage => String.prefix "make-series" stage = false
                          /\ String.prefix "extend" stage = false
                          /\ String.prefix "mv-expand" stage = false)
            (appendSmoothing context smoothingExpression reduceExpression
               groupByExpression []).
Proof.
  intros Hmedian Hreduce HgroupBy.
  apply length_zero_iff in Hreduce, HgroupBy.
  assert (Hstage : forall ps,
    appendSmoothing context smoothingExpression reduceExpression groupByExpression ps
    = ps ++ [rollingPercentileStage
               (fst (lastReduction context (expressions reduceExpression)))
               (snd (lastReduction context (expressions reduceExpression)))
               (Js.show (timeColumn context))
               (lastInterval (expressions groupByExpression))
               "5"
               (flat_map (plainTerm context) (expressions groupByExpression))]).
  { intros ps. unfold appendSmoothing. rewrite Hmedian, Hreduce, HgroupBy.
    rewrite smoothing_reduce_loop, smoothing_groupBy_loop.
    fold (lastReduction context (expressions reduceExpression)).
    fold (lastInterval (expressions groupByExpression)).
    destruct (lastReduction context (expressions reduceExpression)) as [func castColumn].
    cbn [fst snd app]. simpl. rewrite !length_pos_match.
    now destruct (flat_map (plainTerm context) (expressions groupByExpression)). }
  split; [apply Hstage|]. split.
  { intros before property reduce parameters ->. unfold lastReduction.
    rewrite flat_map_app. cbn [flat_map reductionOf app].
    destruct (flat_map (reductionOf context) before) as [|x l]; [reflexivity|].
    change ((x :: l) ++ [(prop_name reduce, ctx_castIfDynamic context (prop_name property))])
      with (x :: (l ++ [(prop_name reduce,
                         ctx_castIfDynamic context (prop_name property))])).
    rewrite last_cons. apply last_last. }
  split; [reflexivity|]. split; [reflexivity|].
  rewrite Hstage. cbn [app]. constructor; [|constructor].
  unfold rollingPercentileStage.
  now destruct (flat_map (plainTerm context) (expressions groupByExpression)).
Qed.

(** The median of the average of the dynamic column [Metrics.value] per
    minute, by host and by the dynamic column [Tags.region]; the count
    before the average does not reach the stage. *)
Lemma appendSmoothing_median_witness :
  appendSmoothing metricsContext
    (Some (mkPropertyExpression (mkProperty "median" QueryEditorPropertyType.String)))
    (mkArray And [countOf "Host" None; avgOf "Metrics.value"])
    (mkArray And [groupOf "Host"; perMinute; groupOf "Tags.region"])
    ["Logs"]
  = ["Logs";
     "evaluate rolling_percentile(avg_toreal(todynamic(Metrics).value), 50, Timestamp, 1m, 5, Host, tostring(todynamic(Tags).region))"].
Proof.
  pose proof (appendSmoothing_median metricsContext
    (Some (mkPropertyExpression (mkProperty "median" QueryEditorPropertyType.String)))
    (mkArray And [countOf "Host" None; avgOf "Metrics.value"])
    (mkArray And [groupOf "Host"; perMinute; groupOf "Tags.region"])
    ["Logs"]) as H.
  destruct H as [H _]; [reflexivity|discriminate|discriminate|].
  rewrite H. reflexivity.
Defined.

(** C10. With a non-empty smoothing name other than ["median"], a
    non-empty reduce and a non-empty group-by, [appendSummarize] adds no
    stage, and the pipeline of [toQuery] has, after the stages of the
    filters and the time-shift, a [make-series] stage, the [extend] stage
    of the algorithm if it is ["ewma"] or ["auto"], an [mv-expand] stage
    and a [project] stage; for any other name [mv-expand] follows
    [make-series] at once. *)
Theorem toQuery_smoothing_not_median
    (templateSrv : TemplateSrv) (e : QueryExpression) (f : QueryEditorPropertyExpression)
    (tableSchema : option (list AdxColumnSchema)) (name : string) :
  detectSmoothing (smoothing e) = Some name ->
  name <> "" -> name <> "median" ->
  expressions (reduce e) <> [] ->
  expressions (groupBy e) <> [] ->
  let context := makeContext tableSchema e in
  let tc := Js.show (timeColumn context) in
  let '(func, castColumn) :=
    fold_left (smoothingReduceStep context) (expressions (reduce e)) ("", "") in
  let '(interval, groups) :=
    fold_left (smoothingGroupByStep context) (expressions (groupBy e)) ("", []) in
  appendSummarize templateSrv context (smoothing e) (reduce e) (groupBy e) [] = []
  /\ toQueryParts templateSrv e f tableSchema
     = ([prop_name (pe_property f)]
        ++ appendTimeFilter context (timeshift e) []
        ++ appendWhere templateSrv context (asExpression (where_ e)) [] (Some "where")
        ++ appendTimeshift context (timeshift e) [])
       ++ [makeSeriesStage func castColumn tc interval groups]
       ++ extendStages name
       ++ [mvExpandStage tc; projectStage tc groups]
       ++ appendOrderBy context (groupBy e) (reduce e) []
  /\ (name <> "ewma" -> name <> "auto" -> extendStages name = []).
Proof.
  intros Hname Hne Hmedian Hreduce HgroupBy context tc.
  assert (Hsummarize :
    appendSummarize templateSrv context (smoothing e) (reduce e) (groupBy e) [] = []).
  { unfold appendSummarize. rewrite Hname. simpl.
    apply truthy_nonempty in Hne. rewrite Hne.
    apply String.eqb_neq in Hmedian. now rewrite Hmedian. }
  assert (Hsmoothing :
    let '(func, castColumn) :=
      fold_left (smoothingReduceStep context) (expressions (reduce e)) ("", "") in
    let '(interval, groups) :=
      fold_left (smoothingGroupByStep context) (expressions (groupBy e)) ("", []) in
    appendSmoothing context (smoothing e) (reduce e) (groupBy e) []
    = [makeSeriesStage func castColumn tc interval groups]
      ++ extendStages name ++ [mvExpandStage tc; projectStage tc groups]).
  { unfold appendSmoothing. rewrite Hname.
    apply length_zero_iff in Hreduce, HgroupBy. rewrite Hreduce, HgroupBy.
    destruct (fold_left (smoothingReduceStep context) _ _) as [func castColumn].
    destruct (fold_left (smoothingGroupByStep context) _ _) as [interval groups].
    simpl. apply truthy_nonempty in Hne. rewrite Hne.
    apply String.eqb_neq in Hmedian. rewrite Hmedian. simpl.
    rewrite !length_pos_match. unfold extendStages. fold tc.
    destruct (String.eqb_spec name "ewma") as [->|Hewma].
    - destruct groups; reflexivity.
    - destruct (String.eqb name "auto"); destruct groups; reflexivity. }
  destruct (fold_left (smoothingReduceStep context) _ _) as [func castColumn].
  destruct (fold_left (smoothingGroupByStep context) _ _) as [interval groups].
  split; [exact Hsummarize|]. split.
  - rewrite toQueryParts_stages. fold context. rewrite Hsummarize, Hsmoothing.
    rewrite <- !app_assoc. reflexivity.
  - intros Hewma Hauto. unfold extendStages.
    apply String.eqb_neq in Hewma, Hauto. now rewrite Hewma, Hauto.
Qed.

(** The average of [Value] per minute, smoothed by an algorithm the
    compiler has no [extend] stage for. *)
Lemma toQuery_smoothing_not_median_witness :
  toQueryParts noVariables
    {| from := Some Logs;
       where_ := mkArray And [];
       reduce := mkArray And
         [ReduceExpression (mkProperty "Value" QueryEditorPropertyType.Number)
            (mkProperty "avg" QueryEditorPropertyType.Function) None];
       groupBy := mkArray And
         [GroupByExpression (mkProperty "Timestamp" QueryEditorPropertyType.DateTime)
            (Some (mkProperty "1m" QueryEditorPropertyType.Interval))];
       timeshift := None;
       smoothing := Some (mkPropertyExpression
                            (mkProperty "holt" QueryEditorPropertyType.String)) |}
    Logs None
  = ["Logs"; "where $__timeFilter(Timestamp)";
     "make-series a=avg(Value) on Timestamp from $__timeFrom to $__timeTo step 1m";
     "mv-expand Timestamp to typeof(datetime), b to typeof(real)";
     "project Timestamp, b";
     "order by Timestamp asc"].
Proof.
  pose proof (toQuery_smoothing_not_median noVariables
    {| from := Some Logs;
       where_ := mkArray And [];
       reduce := mkArray And
         [ReduceExpression (mkProperty "Value" QueryEditorPropertyType.Number)
            (mkProperty "avg" QueryEditorPropertyType.Function) None];
       groupBy := mkArray And
         [GroupByExpression (mkProperty "Timestamp" QueryEditorPropertyType.DateTime)
            (Some (mkProperty "1m" QueryEditorPropertyType.Interval))];
       timeshift := None;
       smoothing := Some (mkPropertyExpression
                            (mkProperty "holt" QueryEditorPropertyType.String)) |}
    Logs None "holt") as H.
  simpl in H.
  destruct H as (_ & H & _); [reflexivity|discriminate..|].
  rewrite H. reflexivity.
Defined.

(** ** Summarize *)

Module TermFacts.

Local Arguments String.append !_ _ / : simpl nomatch.

Lemma every_append p s1 s2 :
  Js.every p (s1 +:+ s2) = Js.every p s1 && Js.every p s2.
Proof.
  induction s1 as [|c s1 IH]; simpl; [reflexivity|].
  now rewrite IH, andb_assoc.
Qed.

(** A term with parameters has a comma, [count()] has none. *)
Lemma parameterised_not_count func column params :
  func +:+ "(" +:+ column +:+ ", " +:+ params +:+ ")" <> "count()".
Proof.
  intros H.
  apply (f_equal (Js.every (fun c => negb (Ascii.eqb c ",")))) in H.
  rewrite !every_append in H. simpl in H.
  rewrite !andb_false_r in H. discriminate H.
Qed.

(** [func(column)] is [count()] only for the function [count]. *)
Lemma plain_not_count func column :
  func <> "count" -> func +:+ "(" +:+ column +:+ ")" <> "count()".
Proof.
  intros Hne H.
  repeat (destruct func as [|? func]; simpl in H;
          [try discriminate H; try (now elim Hne)|injection H as ? H; subst]).
  destruct func; discriminate H.
Qed.

End TermFacts.

Section SummarizeFacts.

Variable templateSrv : TemplateSrv.
Variable context : ParseContext.

Lemma termOf_not_count e : ~ In "count()" (termOf templateSrv context e).
Proof.
  destruct e as [p|p o|p r ps|p i|c exps]; simpl; try easy.
  destruct ps as [ps|].
  - intros [H|[]]. now apply TermFacts.parameterised_not_count in H.
  - destruct (String.eqb_spec (prop_name r) "count") as [_|Hne]; [easy|].
    destruct (negb (String.eqb (prop_name r) "none")); [|easy].
    intros [H|[]]. now apply TermFacts.plain_not_count in H.
Qed.

Lemma termOf_isCount e : isCount e = true -> termOf templateSrv context e = [].
Proof.
  destruct e as [p|p o|p r [ps|]|p i|c exps]; simpl; try easy.
  now intros ->.
Qed.

(** Once [count()] is in, the loop adds the term of every reduction that
    is no parameterless [count], and nothing else. *)
Lemma reduce_loop_after_count l : forall st,
  countAddedInReduce st = true ->
  reduceParts (fold_left (summarizeReduceStep templateSrv context) l st)
  = reduceParts st ++ flat_map (termOf templateSrv context) l.
Proof.
  induction l as [|e l IH]; intros st Hst; simpl; [now rewrite app_nil_r|].
  rewrite IH.
  - destruct e as [p|p o|p r [ps|]|p i|c exps]; simpl; try reflexivity.
    + now rewrite <- app_assoc.
    + rewrite Hst. simpl.
      destruct (String.eqb (prop_name r) "count"); [reflexivity|].
      destruct (negb (String.eqb (prop_name r) "none")); simpl; [|reflexivity].
      now rewrite <- app_assoc.
  - destruct e as [p|p o|p r [ps|]|p i|c exps]; simpl; try assumption.
    rewrite Hst. simpl.
    destruct (String.eqb (prop_name r) "count"); [reflexivity|].
    now destruct (negb (String.eqb (prop_name r) "none")).
Qed.

(** Before the first parameterless [count] the flag stays as it is. *)
Lemma reduce_loop_before_count l : forall st,
  Forall (fun e => isCount e = false) l ->
  let st' := fold_left (summarizeReduceStep templateSrv context) l st in
  countAddedInReduce st' = countAddedInReduce st
  /\ reduceParts st' = reduceParts st ++ flat_map (termOf templateSrv context) l.
Proof.
  induction l as [|e l IH]; intros st Hl; simpl; [now rewrite app_nil_r|].
  inversion Hl as [|e' l' He Hl']; subst.
  destruct (IH (summarizeReduceStep templateSrv context st e) Hl') as [Hflag Hparts].
  simpl in Hflag, Hparts. rewrite Hflag, Hparts. clear Hflag Hparts IH.
  destruct e as [p|p o|p r [ps|]|p i|c exps]; simpl in *;
    try (split; reflexivity).
  - split; [reflexivity|now rewrite <- app_assoc].
  - rewrite He. destruct (negb (String.eqb (prop_name r) "none")); simpl;
      (split; [reflexivity|]); [now rewrite <- app_assoc|reflexivity].
Qed.

Lemma reduceTerms_without_count l :
  Forall (fun e => isCount e = false) l ->
  reduceTerms templateSrv context l = flat_map (termOf templateSrv context) l.
Proof.
  intros Hl. unfold reduceTerms.
  now destruct (reduce_loop_before_count l (mkReduceLoop false [] []) Hl) as [_ ->].
Qed.

Lemma reduceTerms_first_count pre c post :
  isCount c = true ->
  Forall (fun e => isCount e = false) pre ->
  reduceTerms templateSrv context (pre ++ c :: post)
  = flat_map (termOf templateSrv context) pre
    ++ "count()" :: flat_map (termOf templateSrv context) post.
Proof.
  intros Hc Hpre. unfold reduceTerms. rewrite fold_left_app. simpl.
  destruct (reduce_loop_before_count pre (mkReduceLoop false [] []) Hpre) as [Hflag Hparts].
  simpl in Hflag, Hparts.
  destruct c as [p|p o|p r [ps|]|p i|c exps]; simpl in Hc; try discriminate Hc.
  simpl. rewrite Hc, Hflag. simpl.
  rewrite reduce_loop_after_count by reflexivity. simpl.
  rewrite Hparts, <- app_assoc. reflexivity.
Qed.

Lemma flat_map_termOf_filter l :
  flat_map (termOf templateSrv context) (List.filter (fun e => negb (isCount e)) l)
  = flat_map (termOf templateSrv context) l.
Proof.
  induction l as [|e l IH]; [reflexivity|].
  cbn [List.filter flat_map]. destruct (isCount e) eqn:He; simpl negb; cbv iota.
  - rewrite (termOf_isCount e He). exact IH.
  - cbn [flat_map]. now rewrite IH.
Qed.

(** The second loop of [appendSummarize]: a binned column goes to the
    front, a plain one to the back. *)
Lemma groupBy_loop_order l : forall acc,
  fold_left (summarizeGroupByStep context) l acc
  = rev (flat_map (binTerm context) l) ++ acc ++ flat_map (plainTerm context) l.
Proof.
  induction l as [|e l IH]; intros acc; simpl.
  - now rewrite app_nil_r.
  - rewrite IH. destruct e as [?|? ?|? ? ?|p [i|]|? ?]; simpl; try reflexivity.
    + now rewrite <- app_assoc.
    + now rewrite <- app_assoc.
Qed.

End SummarizeFacts.

(** C9, as the code has it. In a reduce list with a reduction named
    [count] that has no parameters array, the aggregation terms are the
    terms of the reductions before the first such reduction, then
    [count()], then the terms of the reductions after it with the further
    parameterless counts left out: [count()] is there exactly once. A
    reduction named [count] that carries a parameters array is no such
    reduction: wherever it stands, its term is
    [count(<column>, <parameters>)]. And the [summarize] stage has
    exactly these terms, by the binned and the plain group columns, when
    there is no smoothing, when the smoothing name is empty and when it
    is the median; for any other smoothing name [appendSummarize] adds
    nothing. *)
Theorem summarize_count_once
    (templateSrv : TemplateSrv) (context : ParseContext)
    (pre : list QueryEditorExpression) (c : QueryEditorExpression)
    (post : list QueryEditorExpression) :
  isCount c = true ->
  Forall (fun e => isCount e = false) pre ->
  let terms :=
    flat_map (termOf templateSrv context) pre
    ++ "count()"
       :: flat_map (termOf templateSrv context)
            (List.filter (fun e => negb (isCount e)) post) in
  reduceTerms templateSrv context (pre ++ c :: post) = terms
  /\ count_occ String.string_dec terms "count()" = 1
  /\ (forall property reduce parameters,
        In (ReduceExpression property reduce (Some parameters)) (pre ++ post) ->
        In (parameterisedTerm templateSrv context property reduce parameters) terms)
  /\ forall smoothingExpr combinator groupBy parts,
       appendSummarize templateSrv context smoothingExpr
         (mkArray combinator (pre ++ c :: post)) groupBy parts
       = if summarizes (detectSmoothing smoothingExpr)
         then parts ++ [summarizeStage terms (byTerms context (expressions groupBy))]
         else parts.
Proof.
  intros Hc Hpre terms.
  assert (Hterms : reduceTerms templateSrv context (pre ++ c :: post) = terms).
  { unfold terms. rewrite flat_map_termOf_filter. now apply reduceTerms_first_count. }
  split; [exact Hterms|]. split; [|split].
  - unfold terms. rewrite count_occ_app, count_occ_cons_eq by reflexivity.
    rewrite !(proj1 (count_occ_not_In String.string_dec _ _)); [reflexivity| |];
      intros Hin; apply in_flat_map in Hin as (e & _ & He);
      now apply termOf_not_count in He.
  - intros property reduce parameters Hin. unfold terms.
    rewrite flat_map_termOf_filter.
    assert (Hterm : In (parameterisedTerm templateSrv context property reduce parameters)
                       (termOf templateSrv context
                          (ReduceExpression property reduce (Some parameters))))
      by (left; reflexivity).
    apply in_app_or in Hin as [Hin|Hin].
    + apply in_or_app. left. apply in_flat_map. eauto.
    + apply in_or_app. right. right. apply in_flat_map. eauto.
  - intros smoothingExpr combinator groupBy parts.
    unfold appendSummarize. simpl expressions.
    fold (reduceTerms templateSrv context (pre ++ c :: post)). rewrite Hterms.
    rewrite (groupBy_loop_order context (expressions groupBy) []).
    cbn [app]. fold (byTerms context (expressions groupBy)).
    assert (Hguard :
      (Js.truthy_opt (detectSmoothing smoothingExpr)
       && negb (String.eqb (Js.show (detectSmoothing smoothingExpr)) "median"))
      = negb (summarizes (detectSmoothing smoothingExpr))).
    { destruct (detectSmoothing smoothingExpr) as [name|]; [|reflexivity].
      cbn [Js.truthy_opt Js.show summarizes]. unfold Js.truthy.
      now destruct (String.eqb name ""), (String.eqb name "median"). }
    rewrite Hguard.
    destruct (summarizes (detectSmoothing smoothingExpr)); [|reflexivity].
    cbn [negb]. cbv iota.
    assert (Hlen : (0 <? length terms) = true).
    { apply Nat.ltb_lt. unfold terms. rewrite length_app. simpl. lia. }
    rewrite Hlen, length_pos_match. unfold summarizeStage.
    now destruct (byTerms context (expressions groupBy)).
Qed.

(** Two counts, the maximum of [B] between them and a count with a
    parameter after them, by the minute and by host. *)
Lemma summarize_count_once_witness :
  appendSummarize noVariables columnCast None
    (mkArray And [countOf "A" None;
                  ReduceExpression (mkProperty "B" QueryEditorPropertyType.Number)
                    (mkProperty "max" QueryEditorPropertyType.Function) None;
                  countOf "C" None;
                  countOf "D" (Some oneParameter)])
    (mkArray And [groupOf "Host"; perMinute]) ["Logs"]
  = ["Logs"; "summarize count(), max(B), count(D, 1) by bin(Timestamp, 1m), Host"].
Proof.
  destruct (summarize_count_once noVariables columnCast [] (countOf "A" None)
              [ReduceExpression (mkProperty "B" QueryEditorPropertyType.Number)
                 (mkProperty "max" QueryEditorPropertyType.Function) None;
               countOf "C" None;
               countOf "D" (Some oneParameter)]) as (_ & _ & _ & H).
  - reflexivity.
  - constructor.
  - simpl app in H. rewrite H. reflexivity.
Defined.

(** C9 as the specification words it fails on a [count] that carries
    parameters: it is compiled like any function with parameters, so two
    such reductions give no [count()] at all, and one of them after a
    plain [count] adds a term of its own. *)
Lemma summarize_count_counterexample :
  (reduceTerms noVariables columnCast
     [countOf "A" (Some oneParameter); countOf "B" (Some oneParameter)]
   = ["count(A, 1)"; "count(B, 1)"]
   /\ count_occ String.string_dec
        (reduceTerms noVariables columnCast
           [countOf "A" (Some oneParameter); countOf "B" (Some oneParameter)])
        "count()" <> 1)
  /\ reduceTerms noVariables columnCast
       [countOf "A" None; countOf "B" (Some oneParameter)]
     = ["count()"; "count(B, 1)"]
  /\ appendSummarize noVariables columnCast None
       (mkArray And [countOf "A" None; countOf "B" (Some oneParameter)])
       (mkArray And []) []
     = ["summarize count(), count(B, 1)"].
Proof.
  repeat split. vm_compute. discriminate.
Qed.

(** ** The autocomplete path leaves the caller's tree alone *)

Module StoreFacts.
Import Store.

Lemma keeps_refl h : keeps h h.
Proof. now intros l c. Qed.

Lemma keeps_trans h1 h2 h3 : keeps h1 h2 -> keeps h2 h3 -> keeps h1 h3.
Proof. intros H12 H23 l c H. now apply H23, H12. Qed.

Lemma keeps_app h new : keeps h (h ++ new).
Proof. intros l c H. now apply lookup_app_l_Some. Qed.

Lemma keeps_length h h' : keeps h h' -> length h <= length h'.
Proof.
  intros Hk. destruct (Nat.le_gt_cases (length h) (length h')) as [|Hlt]; [assumption|].
  destruct (lookup_lt_is_Some_2 h (length h') Hlt) as [c Hc].
  apply Hk, lookup_lt_Some in Hc. lia.
Qed.

Lemma loadList_ext (f g : loc -> option QueryEditorExpression) elems : forall es,
  (forall l t, In (Some l) elems -> f l = Some t -> g l = Some t) ->
  loadList f elems = Some es -> loadList g elems = Some es.
Proof.
  induction elems as [|[l|] elems IH]; intros es Hfg; simpl.
  - easy.
  - destruct (f l) as [t|] eqn:Hf; [|discriminate].
    rewrite (Hfg l t (or_introl eq_refl) Hf). simpl.
    destruct (loadList f elems) as [ts|] eqn:Hl; [|discriminate].
    rewrite (IH ts); [easy| |reflexivity].
    intros l' t' Hin. apply Hfg. now right.
  - apply IH. intros l' t' Hin. apply Hfg. now right.
Qed.

Lemma load_S fuel h l :
  load (S fuel) h l
  = match h !! l with
    | None => None
    | Some (CProperty p) => Some (PropertyExpression p)
    | Some (COperator p o) => Some (OperatorExpression p o)
    | Some (CReduce p r ps) => Some (ReduceExpression p r ps)
    | Some (CGroupBy p i) => Some (GroupByExpression p i)
    | Some (CArrayExpression c a) =>
        match h !! a with
        | Some (CArray elems _) =>
            es ← loadList (load fuel h) elems; Some (ArrayExpression c es)
        | _ => None
        end
    | Some (CArray _ _) => None
    end.
Proof. reflexivity. Qed.

Lemma load_keeps fuel : forall h h' l t,
  keeps h h' -> load fuel h l = Some t -> load fuel h' l = Some t.
Proof.
  induction fuel as [|fuel IH]; intros h h' l t Hk; [discriminate|].
  rewrite !load_S.
  destruct (h !! l) as [c|] eqn:Hl; [|discriminate].
  rewrite (Hk l c Hl).
  destruct c as [p|p o|p r ps|p i|c a|elems named]; try easy.
  destruct (h !! a) as [[| | | | |elems named]|] eqn:Ha; try discriminate.
  rewrite (Hk a _ Ha).
  destruct (loadList (load fuel h) elems) as [es|] eqn:Hes; [|discriminate].
  rewrite (loadList_ext (load fuel h) (load fuel h') elems es); [easy| |assumption].
  intros l' t' _. now apply IH.
Qed.

Lemma load_more_fuel fuel : forall h l t,
  load fuel h l = Some t -> load (S fuel) h l = Some t.
Proof.
  induction fuel as [|fuel IH]; intros h l t; [discriminate|].
  rewrite (load_S (S fuel)), (load_S fuel).
  destruct (h !! l) as [[p|p o|p r ps|p i|c a|elems named]|]; try easy.
  destruct (h !! a) as [[| | | | |elems named]|]; try discriminate.
  destruct (loadList (load fuel h) elems) as [es|] eqn:Hes; [|discriminate].
  rewrite (loadList_ext (load fuel h) (load (S fuel) h) elems es); [easy| |assumption].
  intros l' t' _. apply IH.
Qed.

Lemma cloneDeep_S fuel h l :
  cloneDeep (S fuel) h l
  = match h !! l with
    | None => None
    | Some (CArrayExpression c a) =>
        match h !! a with
        | Some (CArray elems _) =>
            '(elems', h1) ← cloneList (cloneDeep fuel) h elems;
            let '(a', h2) := alloc h1 (CArray elems' []) in
            Some (alloc h2 (CArrayExpression c a'))
        | _ => None
        end
    | Some (CArray _ _) => None
    | Some leaf => Some (alloc h leaf)
    end.
Proof. reflexivity. Qed.

Lemma cellClosed_keeps n0 h h' c : keeps h h' -> cellClosed n0 h c -> cellClosed n0 h' c.
Proof.
  intros Hk. destruct c as [p|p o|p r ps|p i|c a|elems named]; simpl; try easy.
  intros [Ha [elems He]]. split; [assumption|]. exists elems. now apply Hk.
Qed.

Lemma closed_alloc n0 h c : closed n0 h -> cellClosed n0 h c -> closed n0 (h ++ [c]).
Proof.
  intros Hh Hc l c' Hl Hc'.
  apply lookup_snoc_Some in Hc' as [[_ H]|[_ <-]];
    apply cellClosed_keeps with h; auto using keeps_app.
  now apply (Hh l).
Qed.

Lemma closed_fresh h : closed (length h) h.
Proof. intros l c Hl Hc. apply lookup_lt_Some in Hc. lia. Qed.

Lemma cloneList_inv (clone : store -> loc -> option (loc * store)) n0 :
  (forall h l l' h', closed n0 h -> n0 <= length h -> clone h l = Some (l', h') ->
                     keeps h h' /\ n0 <= l' /\ closed n0 h') ->
  forall elems h elems' h',
    closed n0 h -> n0 <= length h -> cloneList clone h elems = Some (elems', h') ->
    keeps h h' /\ (forall l', In (Some l') elems' -> n0 <= l') /\ closed n0 h'.
Proof.
  intros Hclone. induction elems as [|[l|] elems IH]; intros h elems' h' Hc Hn; simpl.
  - intros [= <- <-]. split; [apply keeps_refl|]. split; [intros l' []|assumption].
  - destruct (clone h l) as [[l1 h1]|] eqn:H1; [|discriminate]. simpl.
    destruct (cloneList clone h1 elems) as [[elems2 h2]|] eqn:H2; [|discriminate]. simpl.
    intros [= <- <-].
    destruct (Hclone h l l1 h1 Hc Hn H1) as (Hk1 & Hl1 & Hc1).
    assert (Hn1 : n0 <= length h1) by (apply keeps_length in Hk1; lia).
    destruct (IH h1 elems2 h2 Hc1 Hn1 H2) as (Hk2 & Hin & Hc2).
    split; [now apply keeps_trans with h1|]. split; [|assumption].
    intros l' [[= <-]|Hl']; [assumption|now apply Hin].
  - destruct (cloneList clone h elems) as [[elems2 h2]|] eqn:H2; [|discriminate]. simpl.
    intros [= <- <-].
    destruct (IH h elems2 h2 Hc Hn H2) as (Hk2 & Hin & Hc2).
    split; [assumption|]. split; [|assumption].
    intros l' [[=]|Hl']. now apply Hin.
Qed.

(** [cloneDeep] leaves every object as it is, and what it builds is on
    new locations only. *)
Lemma cloneDeep_inv fuel n0 : forall h l l' h',
  closed n0 h -> n0 <= length h -> cloneDeep fuel h l = Some (l', h') ->
  keeps h h' /\ n0 <= l' /\ closed n0 h'.
Proof.
  induction fuel as [|fuel IH]; intros h l l' h' Hc Hn; [discriminate|].
  rewrite cloneDeep_S.
  assert (Hleaf : forall leaf, cellClosed n0 h leaf ->
            Some (alloc h leaf) = Some (l', h') ->
            keeps h h' /\ n0 <= l' /\ closed n0 h').
  { intros leaf Hleaf [= <- <-]. split; [apply keeps_app|].
    split; [assumption|now apply closed_alloc]. }
  destruct (h !! l) as [[p|p o|p r ps|p i|c a|elems named]|] eqn:Hl;
    try discriminate; try (now apply Hleaf).
  destruct (h !! a) as [[| | | | |elems named]|] eqn:Ha; try discriminate.
  destruct (cloneList (cloneDeep fuel) h elems) as [[elems1 h1]|] eqn:H1;
    [|discriminate].
  simpl. intros [= <- <-].
  destruct (cloneList_inv (cloneDeep fuel) n0 IH elems h elems1 h1 Hc Hn H1)
    as (Hk1 & Hin & Hc1).
  assert (Hn1 : n0 <= length h1) by (apply keeps_length in Hk1; lia).
  split; [|split].
  - apply keeps_trans with h1; [assumption|].
    apply keeps_trans with (h1 ++ [CArray elems1 []]); apply keeps_app.
  - rewrite length_app. simpl. lia.
  - apply closed_alloc.
    + apply closed_alloc; [assumption|]. now split.
    + split; [assumption|]. exists elems1. now apply list_lookup_middle.
Qed.

Lemma cloneList_total fuel h0 :
  (forall l t, load fuel h0 l = Some t -> forall h, keeps h0 h ->
     exists l' h', cloneDeep fuel h l = Some (l', h') /\ keeps h h'
                   /\ load fuel h' l' = Some t) ->
  forall elems es, loadList (load fuel h0) elems = Some es ->
  forall h, keeps h0 h ->
    exists elems' h', cloneList (cloneDeep fuel) h elems = Some (elems', h')
                      /\ keeps h h' /\ loadList (load fuel h') elems' = Some es.
Proof.
  intros Hclone. induction elems as [|[l|] elems IH]; intros es; simpl.
  - intros [= <-] h Hk. exists [], h. split; [reflexivity|].
    split; [apply keeps_refl|reflexivity].
  - destruct (load fuel h0 l) as [t|] eqn:Ht; [|discriminate]. simpl.
    destruct (loadList (load fuel h0) elems) as [ts|] eqn:Hts; [|discriminate]. simpl.
    intros [= <-] h Hk.
    destruct (Hclone l t Ht h Hk) as (l1 & h1 & H1 & Hk1 & Hl1).
    destruct (IH ts eq_refl h1 (keeps_trans _ _ _ Hk Hk1)) as (elems2 & h2 & H2 & Hk2 & Hl2).
    exists (Some l1 :: elems2), h2. rewrite H1. simpl. rewrite H2. simpl.
    split; [reflexivity|]. split; [now apply keeps_trans with h1|].
    rewrite (load_keeps fuel h1 h2 l1 t Hk2 Hl1). simpl. now rewrite Hl2.
  - intros Hes h Hk.
    destruct (IH es Hes h Hk) as (elems2 & h2 & H2 & Hk2 & Hl2).
    exists (None :: elems2), h2. rewrite H2. simpl. easy.
Qed.

(** On a store that holds a tree, [cloneDeep] returns, and the copy is
    the same tree. *)
Lemma cloneDeep_total fuel : forall h0 l t,
  load fuel h0 l = Some t ->
  forall h, keeps h0 h ->
    exists l' h', cloneDeep fuel h l = Some (l', h') /\ keeps h h'
                  /\ load fuel h' l' = Some t.
Proof.
  induction fuel as [|fuel IH]; intros h0 l t; [discriminate|].
  rewrite load_S. intros Ht h Hk.
  assert (Hleaf : forall leaf e,
            h !! l = Some leaf ->
            load (S fuel) (h ++ [leaf]) (length h) = Some e ->
            Some e = Some t ->
            cloneDeep (S fuel) h l = Some (alloc h leaf) ->
            exists l' h', cloneDeep (S fuel) h l = Some (l', h') /\ keeps h h'
                          /\ load (S fuel) h' l' = Some t).
  { intros leaf e _ He [= <-] Hclone. exists (length h), (h ++ [leaf]).
    split; [exact Hclone|]. split; [apply keeps_app|]. now rewrite He. }
  destruct (h0 !! l) as [c|] eqn:Hl; [|discriminate]. apply Hk in Hl.
  destruct c as [p|p o|p r ps|p i|c a|elems named]; try discriminate.
  - eapply Hleaf; eauto; [|now rewrite cloneDeep_S, Hl].
    rewrite load_S, list_lookup_middle; reflexivity.
  - eapply Hleaf; eauto; [|now rewrite cloneDeep_S, Hl].
    rewrite load_S, list_lookup_middle; reflexivity.
  - eapply Hleaf; eauto; [|now rewrite cloneDeep_S, Hl].
    rewrite load_S, list_lookup_middle; reflexivity.
  - eapply Hleaf; eauto; [|now rewrite cloneDeep_S, Hl].
    rewrite load_S, list_lookup_middle; reflexivity.
  - destruct (h0 !! a) as [[| | | | |elems named]|] eqn:Ha; try discriminate.
    apply Hk in Ha.
    destruct (loadList (load fuel h0) elems) as [es|] eqn:Hes; [|discriminate].
    simpl in Ht. injection Ht as <-.
    destruct (cloneList_total fuel h0 (IH h0) elems es Hes h Hk)
      as (elems1 & h1 & H1 & Hk1 & Hl1).
    exists (length (h1 ++ [CArray elems1 []])),
           ((h1 ++ [CArray elems1 []]) ++ [CArrayExpression c (length h1)]).
    rewrite cloneDeep_S, Hl, Ha, H1. split; [reflexivity|]. split.
    + apply keeps_trans with h1; [assumption|].
      apply keeps_trans with (h1 ++ [CArray elems1 []]); apply keeps_app.
    + rewrite load_S, list_lookup_middle by reflexivity.
      rewrite (lookup_app_l_Some _ _ (length h1) (CArray elems1 []))
        by now apply list_lookup_middle.
      rewrite (loadList_ext (load fuel h1) _ elems1 es); [reflexivity| |assumption].
      intros l' t' _. apply load_keeps.
      apply keeps_trans with (h1 ++ [CArray elems1 []]); apply keeps_app.
Qed.

Lemma arrayGet_closed n0 elems key exp :
  (forall l', In (Some l') elems -> n0 <= l') ->
  arrayGet elems [] key = Some exp -> n0 <= exp.
Proof.
  intros Hin. unfold arrayGet. destruct (arrayIndex key) as [i|]; [|discriminate].
  destruct (elems !! i) as [[l|]|] eqn:Hi; try discriminate.
  intros [= <-]. apply Hin, list_elem_of_In, list_elem_of_lookup. now exists i.
Qed.

Lemma replaceLoop_last h operator current key :
  replaceLoop h operator current [key]
  = match h !! current with
    | Some (CArray elems named) =>
        Some (<[current := arraySet elems named key operator]> h)
    | _ => None
    end.
Proof. reflexivity. Qed.

Lemma replaceLoop_step h operator current key key' keys :
  replaceLoop h operator current (key :: key' :: keys)
  = match h !! current with
    | Some (CArray elems named) =>
        match arrayGet elems named key with
        | Some exp =>
            match h !! exp with
            | Some (CArrayExpression _ a) => replaceLoop h operator a (key' :: keys)
            | _ => replaceLoop h operator current (key' :: keys)
            end
        | None => replaceLoop h operator current (key' :: keys)
        end
    | _ => replaceLoop h operator current (key' :: keys)
    end.
Proof. reflexivity. Qed.

(** The loop of [replaceByIndex], started in the array of a copy, ends,
    and its one write is to an array of the copy. *)
Lemma replaceLoop_spec n0 h operator :
  closed n0 h ->
  forall keys current elems,
    n0 <= current -> h !! current = Some (CArray elems []) ->
    exists h', replaceLoop h operator current keys = Some h'
               /\ (h' = h
                   \/ exists a elems' key,
                        n0 <= a /\ h !! a = Some (CArray elems' [])
                        /\ h' = <[a := arraySet elems' [] key operator]> h).
Proof.
  intros Hc. induction keys as [|key keys IH]; intros current elems Hn Hcur.
  - exists h. split; [reflexivity|now left].
  - destruct keys as [|key' keys].
    + rewrite replaceLoop_last, Hcur. eexists. split; [reflexivity|].
      right. now exists current, elems, key.
    + rewrite replaceLoop_step, Hcur.
      destruct (arrayGet elems [] key) as [exp|] eqn:Hget; [|now apply IH with elems].
      destruct (Hc current _ Hn Hcur) as [Hin _].
      pose proof (arrayGet_closed n0 elems key exp Hin Hget) as Hexp.
      destruct (h !! exp) as [[p|p o|p r ps|p i|c a|elems' named']|] eqn:Hcell;
        try (now apply IH with elems).
      destruct (Hc exp _ Hexp Hcell) as [Ha [elems' Helems']].
      now apply IH with elems'.
Qed.

Lemma loadList_is_Some (f : loc -> option QueryEditorExpression) elems :
  (forall l, In (Some l) elems -> is_Some (f l)) <-> is_Some (loadList f elems).
Proof.
  induction elems as [|[l|] elems IH]; simpl.
  - split; [now eexists|intros _ l []].
  - split.
    + intros H. destruct (H l (or_introl eq_refl)) as [t ->]. simpl.
      destruct (proj1 IH) as [ts ->]; [|now eexists].
      intros l' Hl'. apply H. now right.
    + intros [ts Hts] l' Hl'.
      destruct (f l) as [t|] eqn:Hf; [|discriminate]. simpl in Hts.
      destruct (loadList f elems) as [ts'|] eqn:Hl; [|discriminate].
      destruct Hl' as [[= <-]|Hl']; [now rewrite Hf|].
      apply IH; [now eexists|assumption].
  - rewrite <- IH. split; intros H l' Hl'.
    + apply H. now right.
    + destruct Hl' as [[=]|Hl']. now apply H.
Qed.

Lemma In_insert {A : Type} (l : list A) i x y :
  In y (<[i := x]> l) -> y = x \/ In y l.
Proof.
  revert i. induction l as [|z l IH]; intros [|i]; simpl; try tauto.
  - intros [->|H]; tauto.
  - intros [->|H]; [tauto|]. destruct (IH i H); tauto.
Qed.

Lemma arraySet_elems elems named key operator :
  exists elems' named',
    arraySet elems named key operator = CArray elems' named'
    /\ forall l, In (Some l) elems' -> l = operator \/ In (Some l) elems.
Proof.
  unfold arraySet. destruct (arrayIndex key) as [i|].
  - destruct (i <? length elems).
    + do 2 eexists. split; [reflexivity|]. intros l Hl.
      apply In_insert in Hl as [[= ->]|Hl]; tauto.
    + do 2 eexists. split; [reflexivity|]. intros l Hl.
      apply in_app_or in Hl as [Hl|Hl]; [tauto|].
      apply in_app_or in Hl as [Hl|[[= ->]|[]]]; [|tauto].
      apply list_elem_of_In, elem_of_replicate in Hl as [[=] _].
  - do 2 eexists. split; [reflexivity|]. tauto.
Qed.

(** After the write the tree below any location can still be read. *)
Lemma load_after_set h a elems named key operator p o :
  h !! a = Some (CArray elems named) ->
  h !! operator = Some (COperator p o) ->
  forall fuel l t,
    load fuel h l = Some t ->
    is_Some (load (S fuel) (<[a := arraySet elems named key operator]> h) l).
Proof.
  intros Ha Hop.
  destruct (arraySet_elems elems named key operator) as (elems' & named' & -> & Hin).
  assert (Hother : forall l c, h !! l = Some c -> l <> a ->
            <[a := CArray elems' named']> h !! l = Some c).
  { intros l c Hl Hne. now rewrite list_lookup_insert_ne. }
  assert (Hself : <[a := CArray elems' named']> h !! a = Some (CArray elems' named')).
  { apply list_lookup_insert_eq. now apply lookup_lt_Some in Ha. }
  induction fuel as [|fuel IH]; intros l t; [discriminate|].
  rewrite (load_S fuel), (load_S (S fuel)).
  destruct (h !! l) as [c|] eqn:Hl; [|discriminate].
  assert (Hne : l <> a \/ exists e n, c = CArray e n).
  { destruct (Nat.eq_dec l a) as [->|]; [right|now left].
    rewrite Ha in Hl. injection Hl as <-. now do 2 eexists. }
  destruct c as [p'|p' o'|p' r ps|p' i|c arr|e n]; try discriminate;
    destruct Hne as [Hne|(e' & n' & [=])];
    rewrite (Hother l _ Hl Hne); try (intros _; now eexists).
  destruct (h !! arr) as [[| | | | |elems0 named0]|] eqn:Harr; try discriminate.
  destruct (loadList (load fuel h) elems0) as [es|] eqn:Hes; [|discriminate].
  intros _.
  assert (Hold : forall l', In (Some l') elems0 ->
            is_Some (load (S fuel) (<[a := CArray elems' named']> h) l')).
  { intros l' Hl'.
    destruct (proj2 (loadList_is_Some (load fuel h) elems0)
                (ex_intro _ es Hes) l' Hl') as [t' Ht'].
    now apply IH with t'. }
  destruct (Nat.eq_dec arr a) as [->|Harr_ne].
  - rewrite Hself. rewrite Ha in Harr. injection Harr as <- <-.
    destruct (proj1 (loadList_is_Some
                (load (S fuel) (<[a := CArray elems' named']> h)) elems'))
      as [es' ->]; [|now eexists].
    intros l' Hl'. destruct (Hin l' Hl') as [->|Hl'']; [|now apply Hold].
    rewrite load_S, (Hother operator _ Hop); [now eexists|].
    intros ->. rewrite Ha in Hop. discriminate.
  - rewrite (Hother arr _ Harr Harr_ne).
    destruct (proj1 (loadList_is_Some
                (load (S fuel) (<[a := CArray elems' named']> h)) elems0) Hold)
      as [es' ->].
    now eexists.
Qed.

Lemma load_fuel_le n m h l t : n <= m -> load n h l = Some t -> load m h l = Some t.
Proof.
  induction 1 as [|m _ IH]; [easy|]. intros H. now apply load_more_fuel, IH.
Qed.

(** Every tree can be laid out in a store, and read back with its height
    as fuel: the premise of the theorem on [toAutoCompleteQuery] holds of
    every [where] tree. *)
Lemma allocExpression_load e : forall h,
  keeps h (allocExpression e h).2
  /\ load (height e) (allocExpression e h).2 (allocExpression e h).1 = Some e.
Proof.
  induction e as [p|p o|p r ps|p i|c exps IH] using expression_ind'; intros h;
    try (split; [apply keeps_app|]; simpl height; rewrite load_S; simpl;
         now rewrite list_lookup_middle).
  assert (Hlist : forall n, list_max (map height exps) <= n -> forall h,
            keeps h (allocList allocExpression exps h).2
            /\ loadList (load n (allocList allocExpression exps h).2)
                 (allocList allocExpression exps h).1 = Some exps).
  { intros n. induction IH as [|e exps He _ IHexps]; intros Hn h0.
    - split; [apply keeps_refl|reflexivity].
    - simpl in Hn. simpl allocList.
      destruct (He h0) as [Hk1 Hl1].
      destruct (allocExpression e h0) as [l1 h1]. simpl in Hk1, Hl1.
      destruct (IHexps ltac:(lia) h1) as [Hk2 Hl2].
      destruct (allocList allocExpression exps h1) as [elems h2]. simpl in Hk2, Hl2 |- *.
      split; [now apply keeps_trans with h1|].
      rewrite (load_keeps n h1 h2 l1 e Hk2); [|apply load_fuel_le with (height e); [lia|easy]].
      simpl. now rewrite Hl2. }
  simpl allocExpression. simpl height.
  destruct (Hlist _ (Nat.le_refl _) h) as [Hk Hl].
  destruct (allocList allocExpression exps h) as [elems h1].
  cbn [fst snd alloc] in *.
  split.
  - apply keeps_trans with h1; [assumption|].
    apply keeps_trans with (h1 ++ [CArray elems []]); apply keeps_app.
  - rewrite load_S, list_lookup_middle by reflexivity.
    rewrite (lookup_app_l_Some _ _ (length h1) (CArray elems []))
      by now apply list_lookup_middle.
    rewrite (loadList_ext (load (list_max (map height exps)) h1) _ elems exps);
      [reflexivity| |assumption].
    intros l' t' _. apply load_keeps.
    apply keeps_trans with (h1 ++ [CArray elems []]); apply keeps_app.
Qed.

Lemma load_ArrayExpression_inv fuel h l c es :
  load fuel h l = Some (ArrayExpression c es) ->
  exists a, h !! l = Some (CArrayExpression c a).
Proof.
  destruct fuel as [|fuel]; [discriminate|]. rewrite load_S.
  destruct (h !! l) as [[p|p o|p r ps|p i|c' a|elems named]|]; try discriminate.
  destruct (h !! a) as [[| | | | |elems named]|]; try discriminate.
  destruct (loadList (load fuel h) elems); [|discriminate].
  intros [= -> _]. now exists a.
Qed.

(** [replaceByIndex] returns on a store that holds the tree; it leaves
    every object of the store as it is, and the tree it returns can be
    read. *)
Lemma replaceByIndex_spec fuel index expression operator h c es p o :
  load fuel h expression = Some (ArrayExpression c es) ->
  h !! operator = Some (COperator p o) ->
  exists where' h',
    replaceByIndex fuel index expression operator h = Some (where', h')
    /\ keeps h h' /\ is_Some (load (S fuel) h' where').
Proof.
  intros Hload Hop.
  destruct (cloneDeep_total fuel h expression _ Hload h (keeps_refl h))
    as (l1 & h1 & Hclone & Hk1 & Hl1).
  destruct (cloneDeep_inv fuel (length h) h expression l1 h1 (closed_fresh h)
              (Nat.le_refl _) Hclone) as (_ & Hfresh & Hclosed).
  destruct (load_ArrayExpression_inv fuel h1 l1 c es Hl1) as [a Hroot].
  destruct (Hclosed l1 _ Hfresh Hroot) as [Ha [elems Harr]].
  destruct (replaceLoop_spec (length h) h1 operator Hclosed
              (map parseInt (Js.split "-" index)) a elems Ha Harr)
    as (h2 & Hloop & Hwrite).
  exists l1, h2. unfold replaceByIndex. rewrite Hclone. simpl.
  rewrite Hroot, Hloop. simpl. split; [reflexivity|].
  destruct Hwrite as [->|(a' & elems' & key & Ha' & Harr' & ->)].
  - split; [assumption|]. exists (ArrayExpression c es). now apply load_more_fuel.
  - split.
    + intros l cell Hl. rewrite list_lookup_insert_ne; [now apply Hk1|].
      apply lookup_lt_Some in Hl. lia.
    + apply load_after_set with p o (ArrayExpression c es); auto.
Qed.

End StoreFacts.

(** C3. When the store holds the caller's [where] tree and the search
    operator, [toAutoCompleteQuery] returns, and after the call every
    object of the store is at its location with the content it had: the
    write of [replaceByIndex] went to an array of the deep copy. In
    particular the [where] tree reads as before. *)
Theorem toAutoCompleteQuery_keeps_where
    (templateSrv : TemplateSrv) (fuel : nat) (q : Store.AutoCompleteQuery)
    (tableSchema : option (list AdxColumnSchema)) (h : list Store.cell) :
  Store.load fuel h (Store.where_at q)
  = Some (asExpression (where_ (Store.expression q))) ->
  (exists p o, h !! Store.search_at q = Some (Store.COperator p o)) ->
  exists text h',
    Store.toAutoCompleteQuery templateSrv fuel (Some q) tableSchema h = Some (text, h')
    /\ Store.keeps h h'
    /\ Store.load fuel h' (Store.where_at q)
       = Some (asExpression (where_ (Store.expression q))).
Proof.
  intros Hwhere (p & o & Hsearch). unfold Store.toAutoCompleteQuery.
  destruct (from (Store.expression q)) as [f|].
  - rewrite Hsearch.
    destruct (StoreFacts.replaceByIndex_spec fuel (Store.index q) (Store.where_at q)
                (Store.search_at q) h _ _ p o Hwhere Hsearch)
      as (where' & h' & -> & Hkeeps & [w Hw]).
    cbn -[Store.load]. rewrite Hw. do 2 eexists. split; [reflexivity|].
    split; [assumption|]. now apply StoreFacts.load_keeps with h.
  - exists "", h. split; [reflexivity|].
    split; [apply StoreFacts.keeps_refl|assumption].
Qed.

Lemma toAutoCompleteQuery_keeps_where_witness :
  exists text h',
    Store.toAutoCompleteQuery noVariables 2 (Some searchQuery) None callerStore
    = Some (text, h')
    /\ Store.keeps callerStore h'
    /\ Store.load 2 h' 3 = Some (ArrayExpression And [filterA; filterB]).
Proof.
  apply (toAutoCompleteQuery_keeps_where noVariables 2 searchQuery None callerStore).
  - reflexivity.
  - exists (mkProperty "c" QueryEditorPropertyType.String), (mkOperator "==" (VScalar "")).
    reflexivity.
Defined.

(** The same call, evaluated: the copy is at locations 5 to 8, and the
    array of the copy, at location 7, has the search operator itself at
    index 1. *)
Example toAutoCompleteQuery_on_callerStore :
  Store.toAutoCompleteQuery noVariables 2 (Some searchQuery) None callerStore
  = Some (Js.join separator
            ["Logs"; "where a == 'x'"; "where c == ''";
             "take 50000"; "distinct c"; "take 251"],
          callerStore
          ++ [Store.COperator (mkProperty "a" QueryEditorPropertyType.String)
                              (mkOperator "==" (VScalar "x"));
              Store.COperator (mkProperty "b" QueryEditorPropertyType.String)
                              (mkOperator "==" (VScalar "y"));
              Store.CArray [Some 5; Some 4] [];
              Store.CArrayExpression And 7]).
Proof. reflexivity. Qed.

(** * Further properties of the compiler *)

(** ** The [where] builder *)

Section WhereFacts.

Variable templateSrv : TemplateSrv.
Variable context : ParseContext.

Lemma appendWhere_And_parts exps parts prefix :
  appendWhere templateSrv context (ArrayExpression And exps) parts prefix
  = parts ++ flat_map (fun exp => appendWhere templateSrv context exp [] prefix) exps.
Proof.
  rewrite appendWhere_app, appendWhere_And. reflexivity.
Qed.

Lemma appendWhere_skips child prefix :
  contributes child = false ->
  appendWhere templateSrv context child [] prefix = [].
Proof.
  destruct child as [p|p o|p r ps|p i|c exps]; simpl; try easy.
  intros H. unfold appendOperator.
  destruct (Js.truthy (prop_name p)), (Js.truthy (op_name o)); easy.
Qed.

Lemma flat_map_contributes prefix exps :
  flat_map (fun exp => appendWhere templateSrv context exp [] prefix)
           (List.filter contributes exps)
  = flat_map (fun exp => appendWhere templateSrv context exp [] prefix) exps.
Proof.
  induction exps as [|e exps IH]; [reflexivity|].
  cbn [List.filter flat_map]. destruct (contributes e) eqn:He.
  - cbn [flat_map]. now rewrite IH.
  - now rewrite (appendWhere_skips e prefix He), IH.
Qed.

End WhereFacts.

Lemma withPrefix_where value :
  String.prefix "where " (withPrefix value (Some "where")) = true.
Proof. exact (prefix_append "where " value). Qed.

(** X1. Every stage the [where] builder adds at the prefix [where] starts
    with the word [where] and a space, whatever the tree. *)
Theorem appendWhere_emits_where_stages
    (templateSrv : TemplateSrv) (context : ParseContext)
    (expression : QueryEditorExpression) :
  Forall (fun stage => String.prefix "where " stage = true)
         (appendWhere templateSrv context expression [] (Some "where")).
Proof.
  induction expression as [p|p o|p r ps|p i|c exps IH] using expression_ind';
    try (now constructor).
  - cbn [appendWhere]. unfold appendOperator.
    destruct (negb (Js.truthy (prop_name p)) || negb (Js.truthy (op_name o)));
      [constructor|].
    destruct (String.eqb (op_name o) "isnotempty");
      (constructor; [apply withPrefix_where|constructor]).
  - destruct c.
    + rewrite appendWhere_And. apply List.Forall_forall. intros stage Hstage.
      apply in_flat_map in Hstage as (exp & Hexp & Hstage).
      rewrite List.Forall_forall in IH.
      pose proof (IH exp Hexp) as Hall. rewrite List.Forall_forall in Hall.
      now apply Hall.
    + rewrite appendWhere_Or.
      destruct (orClauses templateSrv context exps); [constructor|].
      constructor; [apply prefix_append|constructor].
Qed.

(** X2. An And node below an And node is dissolved: the pipeline is the
    one of the parent with the children of the inner node in its place. *)
Theorem appendWhere_And_below_And
    (templateSrv : TemplateSrv) (context : ParseContext)
    (before inner after : list QueryEditorExpression)
    (parts : list string) (prefix : option string) :
  appendWhere templateSrv context
    (ArrayExpression And (before ++ ArrayExpression And inner :: after)) parts prefix
  = appendWhere templateSrv context
      (ArrayExpression And (before ++ inner ++ after)) parts prefix.
Proof.
  rewrite !(appendWhere_And_parts templateSrv context).
  rewrite !flat_map_app. cbn [flat_map].
  now rewrite appendWhere_And.
Qed.

(** X3. An And node below an Or node is dissolved too: its children
    become alternatives of the Or node, so the conjunction is lost. *)
Theorem appendWhere_And_below_Or
    (templateSrv : TemplateSrv) (context : ParseContext)
    (before inner after : list QueryEditorExpression)
    (parts : list string) (prefix : option string) :
  appendWhere templateSrv context
    (ArrayExpression Or (before ++ ArrayExpression And inner :: after)) parts prefix
  = appendWhere templateSrv context
      (ArrayExpression Or (before ++ inner ++ after)) parts prefix.
Proof.
  rewrite !appendWhere_Or. unfold orClauses.
  rewrite !flat_map_app. cbn [flat_map].
  now rewrite appendWhere_And.
Qed.

(** X4. Children that cannot be lowered are skipped without a trace: a
    node gives the same stages as the node without its operator children
    that lack a property name or an operator name and without its
    property, reduce and group-by children. *)
Theorem appendWhere_skips_unresolved
    (templateSrv : TemplateSrv) (context : ParseContext)
    (c : Combinator) (children : list QueryEditorExpression)
    (parts : list string) (prefix : option string) :
  appendWhere templateSrv context (ArrayExpression c children) parts prefix
  = appendWhere templateSrv context
      (ArrayExpression c (List.filter contributes children)) parts prefix.
Proof.
  destruct c.
  - rewrite !(appendWhere_And_parts templateSrv context).
    now rewrite flat_map_contributes.
  - rewrite !appendWhere_Or. unfold orClauses.
    now rewrite flat_map_contributes.
Qed.

(** ** The value formatter *)

(** X5. A value that is the token [$id] of a variable the template
    service knows is emitted as it is, without quotes, whatever the type of
    the property. *)
Theorem formatValue_template_variable
    (templateSrv : TemplateSrv) (variables : list string) (id : string)
    (type : QueryEditorPropertyType.t) :
  getVariables templateSrv = Some variables ->
  In id variables ->
  formatValue templateSrv (VScalar ("$" +:+ id)) type = "$" +:+ id.
Proof.
  intros Hvars Hid. simpl. unfold isTemplateVariable. rewrite Hvars.
  assert (existsb (fun id' => String.eqb ("$" +:+ id') ("$" +:+ id)) variables = true)
    as ->; [|reflexivity].
  apply existsb_exists. exists id. split; [assumption|apply String.eqb_refl].
Qed.

Lemma formatValue_template_variable_witness :
  formatValue (mkTemplateSrv (Some ["region"; "host"])) (VScalar "$host")
    QueryEditorPropertyType.String
  = "$host".
Proof.
  apply (formatValue_template_variable (mkTemplateSrv (Some ["region"; "host"]))
           ["region"; "host"] "host" QueryEditorPropertyType.String).
  - reflexivity.
  - right. left. reflexivity.
Defined.

(** X6. A quote inside a literal is not escaped: the one literal
    [x', 'y] of a quoted type is formatted as the two literals [x] and
    [y] are. *)
Theorem formatValue_does_not_escape
    (templateSrv : TemplateSrv) (x y : string) (type : QueryEditorPropertyType.t) :
  quotedType type = true ->
  isTemplateVariable templateSrv x = false ->
  isTemplateVariable templateSrv y = false ->
  isTemplateVariable templateSrv (x +:+ "', '" +:+ y) = false ->
  formatValue templateSrv (VArray [VScalar (x +:+ "', '" +:+ y)]) type
  = formatValue templateSrv (VArray [VScalar x; VScalar y]) type.
Proof.
  intros Htype Hx Hy Hxy. simpl. rewrite Hx, Hy, Hxy.
  destruct type; try discriminate Htype; simpl;
    now rewrite !RegexFacts.append_assoc.
Qed.

Lemma formatValue_does_not_escape_witness :
  formatValue noVariables (VArray [VScalar "a', 'b"]) QueryEditorPropertyType.String
  = formatValue noVariables (VArray [VScalar "a"; VScalar "b"])
      QueryEditorPropertyType.String.
Proof.
  apply (formatValue_does_not_escape noVariables "a" "b" QueryEditorPropertyType.String);
    reflexivity.
Defined.

(** ** The column resolver *)

Lemma includes_String needle c s :
  Js.includes needle (String c s)
  = String.prefix needle (String c s) || Js.includes needle s.
Proof.
  unfold Js.includes.
  change (String.index 0 needle (String c s))
    with (if String.prefix needle (String c s) then Some 0
          else match String.index 0 needle s with
               | Some n => Some (S n)
               | None => None
               end).
  destruct (String.prefix needle (String c s)); [reflexivity|].
  now destruct (String.index 0 needle s).
Qed.

Lemma prefix_empty s : String.prefix "" s = true.
Proof. now destruct s. Qed.

Lemma prefix_append_mono needle : forall s t,
  String.prefix needle s = true -> String.prefix needle (s +:+ t) = true.
Proof.
  induction needle as [|a needle IH]; intros s t; [intros _; apply prefix_empty|].
  destruct s as [|b s]; [discriminate|].
  change (String.prefix (String a needle) (String b s))
    with (if Ascii.ascii_dec a b then String.prefix needle s else false).
  change (String.prefix (String a needle) (String b s +:+ t))
    with (if Ascii.ascii_dec a b then String.prefix needle (s +:+ t) else false).
  destruct (Ascii.ascii_dec a b); [apply IH|discriminate].
Qed.

Lemma includes_append_l needle s t :
  Js.includes needle s = true -> Js.includes needle (s +:+ t) = true.
Proof.
  induction s as [|c s IH].
  - destruct needle; [|discriminate]. intros _. now destruct t.
  - change (String c s +:+ t) with (String c (s +:+ t)).
    rewrite !includes_String. intros H. apply orb_true_iff in H as [H|H].
    + apply (prefix_append_mono needle (String c s) t) in H.
      change (String c s +:+ t) with (String c (s +:+ t)) in H. now rewrite H.
    + rewrite (IH H). apply orb_true_r.
Qed.

Lemma includes_append_r needle s t :
  Js.includes needle t = true -> Js.includes needle (s +:+ t) = true.
Proof.
  intros H. induction s as [|c s IH]; [exact H|].
  change (String c s +:+ t) with (String c (s +:+ t)).
  rewrite includes_String, IH. apply orb_true_r.
Qed.

Lemma nestedCast_includes_todynamic T rest : forall acc,
  Js.includes "todynamic" acc = true ->
  Js.includes "todynamic" (nestedCast T acc rest) = true.
Proof.
  induction rest as [|segment rest IH]; intros acc Hacc; [exact Hacc|].
  destruct rest as [|segment' rest].
  - cbn [nestedCast]. do 3 apply includes_append_r. now apply includes_append_l.
  - change (nestedCast T acc (segment :: segment' :: rest))
      with (nestedCast T ("todynamic(" +:+ acc +:+ "." +:+ segment +:+ ")")
              (segment' :: rest)).
    apply IH. reflexivity.
Qed.

Lemma nestedCast_truthy T rest : forall acc,
  Js.truthy acc = true -> Js.truthy (nestedCast T acc rest) = true.
Proof.
  induction rest as [|segment rest IH]; intros acc Hacc; [exact Hacc|].
  destruct rest as [|segment' rest]; [reflexivity|].
  change (nestedCast T acc (segment :: segment' :: rest))
    with (nestedCast T ("todynamic(" +:+ acc +:+ "." +:+ segment +:+ ")")
            (segment' :: rest)).
  apply IH. reflexivity.
Qed.

Lemma toDynamic_shape column :
  exists first rest,
    toDynamic column
    = nestedCast (CslType column) ("todynamic(" +:+ first +:+ ")") rest.
Proof.
  destruct (Js.split "." (Name column)) as [|first rest] eqn:Hsplit.
  - now apply split_nonempty in Hsplit.
  - exists first, rest. now apply toDynamic_nestedCast.
Qed.

Lemma toDynamic_isDynamic column :
  Js.truthy (toDynamic column) = true /\ isDynamic (toDynamic column) = true.
Proof.
  destruct (toDynamic_shape column) as (first & rest & ->).
  assert (Ht : Js.truthy (nestedCast (CslType column) ("todynamic(" +:+ first +:+ ")") rest)
               = true) by now apply nestedCast_truthy.
  split; [exact Ht|]. unfold isDynamic. rewrite Ht.
  rewrite (nestedCast_includes_todynamic (CslType column) rest) by reflexivity.
  apply orb_true_r.
Qed.

Lemma castIfDynamic_truthy column tableSchema :
  Js.truthy column = true -> Js.truthy (castIfDynamic column tableSchema) = true.
Proof.
  intros H. unfold castIfDynamic. destruct tableSchema as [schema|]; [|exact H].
  destruct (negb (isDynamic column)); [exact H|].
  destruct (find _ schema) as [c|]; [|exact H].
  apply toDynamic_isDynamic.
Qed.

(** X7. [castIfDynamic] rewrites a column name only when the name is
    dynamic and the schema declares a column of that very name; in every
    other case, also without schema, the name comes back as it is. *)
Theorem castIfDynamic_changes_only_declared
    (column : string) (tableSchema : option (list AdxColumnSchema)) :
  castIfDynamic column tableSchema <> column ->
  isDynamic column = true
  /\ exists schema c, tableSchema = Some schema /\ In c schema /\ Name c = column.
Proof.
  unfold castIfDynamic. destruct tableSchema as [schema|]; [|easy].
  destruct (isDynamic column); [|easy]. simpl.
  destruct (find (fun c => String.eqb (Name c) column) schema) as [c|] eqn:Hfind; [|easy].
  intros _. split; [reflexivity|]. exists schema, c.
  apply find_some in Hfind as [Hin Hname]. now apply String.eqb_eq in Hname.
Qed.

Lemma castIfDynamic_changes_only_declared_witness :
  isDynamic "Tags.region" = true
  /\ exists schema c,
       Some [mkColumn "Host" "string"; mkColumn "Tags.region" "string"] = Some schema
       /\ In c schema /\ Name c = "Tags.region".
Proof.
  apply (castIfDynamic_changes_only_declared "Tags.region"
           (Some [mkColumn "Host" "string"; mkColumn "Tags.region" "string"])).
  vm_compute. discriminate.
Defined.

Lemma nestedCast_head T rest : forall acc,
  (exists tail, acc = "to" +:+ tail) ->
  exists tail, nestedCast T acc rest = "to" +:+ tail.
Proof.
  induction rest as [|segment rest IH]; intros acc Hacc; [exact Hacc|].
  destruct rest as [|segment' rest].
  - cbn [nestedCast]. now eexists.
  - change (nestedCast T acc (segment :: segment' :: rest))
      with (nestedCast T ("todynamic(" +:+ acc +:+ "." +:+ segment +:+ ")")
              (segment' :: rest)).
    apply IH. now eexists.
Qed.

(** What [toDynamic] returns starts with [to]. *)
Lemma toDynamic_head column : exists tail, toDynamic column = "to" +:+ tail.
Proof.
  destruct (toDynamic_shape column) as (first & rest & ->).
  apply nestedCast_head. now eexists.
Qed.

(** A time-shift that is detected is not empty. *)
Lemma detectTimeshift_truthy context ts shift :
  detectTimeshift context ts = Some shift -> Js.truthy shift = true.
Proof.
  unfold detectTimeshift. destruct ts as [ts|]; [|discriminate].
  destruct (negb (Js.truthy_opt (timeColumn context))); [discriminate|].
  destruct (isValidTimeSpan (prop_name (pe_property ts))) eqn:Hvalid; [|discriminate].
  intros [= <-]. destruct (prop_name (pe_property ts)); [discriminate Hvalid|reflexivity].
Qed.

(** X8. What [toDynamic] returns is never empty and always has a
    [todynamic] in it, so [isDynamic] holds of it: a time column that went
    through [toDynamic] is filtered with an explicit [between], over the
    shifted bounds when a time-shift is detected and over the plain
    bounds when none is, and never with the macro [$__timeFilter]. *)
Theorem toDynamic_time_column_filter
    (column : AdxColumnSchema) (cast : string -> string)
    (timeshift : option QueryEditorPropertyExpression) (parts : list string) :
  let context := mkContext (Some (toDynamic column)) cast in
  isDynamic (toDynamic column) = true
  /\ appendTimeFilter context timeshift parts
     = parts
       ++ [match detectTimeshift context timeshift with
           | Some shift =>
               "where " +:+ toDynamic column +:+ " between (($__timeFrom - " +:+ shift
               +:+ ") .. ($__timeTo - " +:+ shift +:+ "))"
           | None =>
               "where " +:+ toDynamic column +:+ " between ($__timeFrom .. $__timeTo)"
           end]
  /\ Forall (fun stage => String.prefix "where $__timeFilter" stage = false)
            (appendTimeFilter context timeshift []).
Proof.
  intros context. destruct (toDynamic_isDynamic column) as [Ht Hd].
  assert (Hfilter : forall ps,
    appendTimeFilter context timeshift ps
    = ps
      ++ [match detectTimeshift context timeshift with
          | Some shift =>
              "where " +:+ toDynamic column +:+ " between (($__timeFrom - " +:+ shift
              +:+ ") .. ($__timeTo - " +:+ shift +:+ "))"
          | None =>
              "where " +:+ toDynamic column +:+ " between ($__timeFrom .. $__timeTo)"
          end]).
  { intros ps. unfold appendTimeFilter. cbn [timeColumn context Js.truthy_opt Js.show].
    rewrite Ht. cbn [negb].
    destruct (detectTimeshift context timeshift) as [shift|] eqn:Hshift.
    - cbn [Js.truthy_opt Js.show].
      now rewrite (detectTimeshift_truthy context timeshift shift Hshift).
    - cbn [Js.truthy_opt]. now rewrite Hd. }
  split; [exact Hd|]. split; [apply Hfilter|].
  rewrite Hfilter. cbn [app]. destruct (toDynamic_head column) as [tail ->].
  assert (Hstage : forall rest, String.prefix "where $__timeFilter"
                                  ("where " +:+ ("to" +:+ tail) +:+ rest) = false)
    by reflexivity.
  constructor; [|constructor].
  destruct (detectTimeshift _ timeshift); apply Hstage.
Qed.

(** X9. [defaultTimeColumn] finds no time column exactly when no group-by
    entry is a DateTime property with an interval and the schema, if there
    is one, has no column of type [datetime]. *)
Theorem defaultTimeColumn_undefined
    (columns : option (list AdxColumnSchema)) (expression : QueryExpression) :
  defaultTimeColumn columns expression = None
  <-> (forall p i, In (GroupByExpression p (Some i)) (expressions (groupBy expression)) ->
                   prop_type p <> QueryEditorPropertyType.DateTime)
      /\ (forall cols c, columns = Some cols -> In c cols -> CslType c <> "datetime").
Proof.
  unfold defaultTimeColumn.
  destruct (find _ (expressions (groupBy expression))) as [exp|] eqn:Hfind.
  - apply find_some in Hfind as [Hin Hexp].
    destruct exp as [p|p o|p r ps|p i|c exps]; try discriminate Hexp.
    destruct i as [i|]; [|discriminate Hexp].
    split; [discriminate|]. intros [Hno _]. exfalso. apply (Hno p i Hin).
    now destruct (prop_type p).
  - assert (Hgroup : forall p i,
              In (GroupByExpression p (Some i)) (expressions (groupBy expression)) ->
              prop_type p <> QueryEditorPropertyType.DateTime).
    { intros p i Hin Htype. apply (find_none _ _ Hfind) in Hin. simpl in Hin.
      now rewrite Htype in Hin. }
    destruct columns as [cols|]; [|split; [split; [exact Hgroup|discriminate]|reflexivity]].
    destruct (find (fun col => String.eqb (CslType col) "datetime"
                               && negb (Js.includes "." (Name col))) cols)
      as [c1|] eqn:H1.
    { split; [discriminate|]. intros [_ Hno]. exfalso.
      apply find_some in H1 as [Hin Hc]. apply andb_true_iff in Hc as [Hc _].
      apply String.eqb_eq in Hc. now apply (Hno cols c1 eq_refl Hin). }
    destruct (find (fun col => String.eqb (CslType col) "datetime") cols)
      as [c2|] eqn:H2.
    { split; [discriminate|]. intros [_ Hno]. exfalso.
      apply find_some in H2 as [Hin Hc]. apply String.eqb_eq in Hc.
      now apply (Hno cols c2 eq_refl Hin). }
    split; [|reflexivity]. intros _. split; [exact Hgroup|].
    intros cols' c [= <-] Hin Hc. apply (find_none _ _ H2) in Hin.
    simpl in Hin. rewrite Hc in Hin. discriminate Hin.
Qed.

(** ** Time-shift names of several lines *)

Lemma isDigit_not_terminator c :
  Js.isDigit c = true -> negb (Js.isLineTerminator c) = true.
Proof.
  unfold Js.isLineTerminator. intros H.
  destruct (Ascii.eqb_spec c Js.LF) as [->|_]; [discriminate H|].
  destruct (Ascii.eqb_spec c Js.CR) as [->|_]; [discriminate H|reflexivity].
Qed.

Lemma every_impl (p q : ascii -> bool) s :
  (forall c, p c = true -> q c = true) -> Js.every p s = true -> Js.every q s = true.
Proof.
  intros Hpq. induction s as [|c s IH]; simpl; [reflexivity|].
  intros H. apply andb_true_iff in H as [Hc Hs]. now rewrite (Hpq c Hc), (IH Hs).
Qed.

Lemma boundedTimeSpan_singleLine line : boundedTimeSpan line -> singleLine line.
Proof.
  intros (magnitude & unit & -> & _ & Hdigits & Hunit). unfold singleLine.
  rewrite TermFacts.every_append. apply andb_true_iff. split.
  - exact (every_impl _ _ magnitude isDigit_not_terminator Hdigits).
  - destruct Hunit as [->|Hunit]; [reflexivity|].
    simpl in Hunit. repeat (destruct Hunit as [<-|Hunit]; [reflexivity|]). easy.
Qed.

Lemma lines_first line rest :
  singleLine line -> Js.lines (line +:+ String Js.LF rest) = line :: Js.lines rest.
Proof.
  unfold singleLine. induction line as [|c line IH]; intros H.
  - reflexivity.
  - simpl in H. apply andb_true_iff in H as [Hc Hline].
    apply negb_true_iff in Hc.
    change (String c line +:+ String Js.LF rest)
      with (String c (line +:+ String Js.LF rest)).
    simpl. now rewrite Hc, (IH Hline).
Qed.

(** X10. The pattern of [isValidTimeSpan] has the flag [m]: when the first
    line of a time-shift name is a valid time span, the name passes the
    test whatever follows the line feed, and [detectTimeshift] returns the
    whole name, the further lines included. *)
Theorem detectTimeshift_first_line
    (context : ParseContext) (line rest tc : string) (t : QueryEditorPropertyType.t) :
  boundedTimeSpan line ->
  timeColumn context = Some tc -> tc <> "" ->
  let name := line +:+ String Js.LF rest in
  isValidTimeSpan name = true
  /\ detectTimeshift context (Some (mkPropertyExpression (mkProperty name t))) = Some name.
Proof.
  intros Hline Htc Hne name.
  assert (Hvalid : isValidTimeSpan name = true).
  { unfold isValidTimeSpan, Regex.test_anchored_multiline, name.
    rewrite (lines_first line rest (boundedTimeSpan_singleLine line Hline)).
    simpl. now rewrite (proj2 (matches_timeSpanPattern line) Hline). }
  split; [exact Hvalid|]. now apply (detectTimeshift_valid context name t tc).
Qed.

Lemma detectTimeshift_first_line_witness :
  isValidTimeSpan ("1h" +:+ String Js.LF "| take 1") = true
  /\ detectTimeshift (mkContext (Some "Timestamp") (fun column => column))
       (Some (mkPropertyExpression
                (mkProperty ("1h" +:+ String Js.LF "| take 1")
                            QueryEditorPropertyType.String)))
     = Some ("1h" +:+ String Js.LF "| take 1").
Proof.
  apply (detectTimeshift_first_line (mkContext (Some "Timestamp") (fun column => column))
           "1h" "| take 1" "Timestamp" QueryEditorPropertyType.String).
  - exists "1", "h". split; [reflexivity|]. split; [simpl; lia|].
    split; [reflexivity|]. right. simpl. tauto.
  - reflexivity.
  - discriminate.
Defined.

(** ** The pipeline and the time column *)

(** X11. When no time column is resolved, or the resolved name is empty,
    the pipeline of [toQuery] is the source followed by the stages of the
    filters, of the summarize and of the smoothing: there is no time
    filter, no re-aligning [extend] and no [order by], and a time-shift
    makes no difference. *)
Theorem toQuery_without_time_column
    (templateSrv : TemplateSrv) (e : QueryExpression) (f : QueryEditorPropertyExpression)
    (tableSchema : option (list AdxColumnSchema)) :
  Js.truthy_opt (defaultTimeColumn tableSchema e) = false ->
  let context := makeContext tableSchema e in
  toQueryParts templateSrv e f tableSchema
  = [prop_name (pe_property f)]
    ++ appendWhere templateSrv context (asExpression (where_ e)) [] (Some "where")
    ++ appendSummarize templateSrv context (smoothing e) (reduce e) (groupBy e) []
    ++ appendSmoothing context (smoothing e) (reduce e) (groupBy e) []
  /\ toQueryParts templateSrv e f tableSchema
     = toQueryParts templateSrv (withoutTimeshift e) f tableSchema.
Proof.
  intros Htc context.
  assert (Hfilter : forall ts, appendTimeFilter context ts [] = []).
  { intros ts. unfold appendTimeFilter. simpl. now rewrite Htc. }
  assert (Hshift : forall ts, appendTimeshift context ts [] = []).
  { intros ts. unfold appendTimeshift, detectTimeshift. simpl. rewrite Htc.
    now destruct ts. }
  assert (Horder : appendOrderBy context (groupBy e) (reduce e) [] = []).
  { unfold appendOrderBy. simpl. now rewrite Htc. }
  rewrite !toQueryParts_stages.
  change (makeContext tableSchema (withoutTimeshift e)) with context.
  change (makeContext tableSchema e) with context.
  rewrite !Hfilter, !Hshift. simpl. rewrite Horder, app_nil_r. easy.
Qed.

Lemma toQuery_without_time_column_witness :
  toQueryParts noVariables (shiftedQuery "1h") Logs None = ["Logs"]
  /\ toQueryParts noVariables (shiftedQuery "1h") Logs None
     = toQueryParts noVariables (withoutTimeshift (shiftedQuery "1h")) Logs None.
Proof.
  exact (toQuery_without_time_column noVariables (shiftedQuery "1h") Logs None eq_refl).
Defined.

(** X12. A query grouped by a DateTime property with an interval always
    ends with an [order by] on its time column, whatever the reductions
    and the smoothing: the time column is the cast name of such a
    group-by entry, provided these entries carry a name. *)
Theorem toQuery_time_bin_ordered
    (templateSrv : TemplateSrv) (e : QueryExpression) (f : QueryEditorPropertyExpression)
    (tableSchema : option (list AdxColumnSchema))
    (p i : QueryEditorProperty) :
  In (GroupByExpression p (Some i)) (expressions (groupBy e)) ->
  prop_type p = QueryEditorPropertyType.DateTime ->
  (forall q j, In (GroupByExpression q (Some j)) (expressions (groupBy e)) ->
               prop_name q <> "") ->
  exists q j stages,
    In (GroupByExpression q (Some j)) (expressions (groupBy e))
    /\ prop_type q = QueryEditorPropertyType.DateTime
    /\ toQueryParts templateSrv e f tableSchema
       = stages ++ [orderByStage (castIfDynamic (prop_name q) tableSchema)].
Proof.
  intros Hin Htype Hnames.
  assert (Htc : exists q j,
    In (GroupByExpression q (Some j)) (expressions (groupBy e))
    /\ prop_type q = QueryEditorPropertyType.DateTime
    /\ defaultTimeColumn tableSchema e = Some (castIfDynamic (prop_name q) tableSchema)).
  { unfold defaultTimeColumn.
    destruct (find _ (expressions (groupBy e))) as [exp|] eqn:Hfind.
    - apply find_some in Hfind as [Hexp Hpred].
      destruct exp as [?|? ?|? ? ?|q j|? ?]; try discriminate Hpred.
      destruct j as [j|]; [|discriminate Hpred].
      exists q, j. split; [exact Hexp|]. split; [|reflexivity].
      now destruct (prop_type q).
    - apply (find_none _ _ Hfind) in Hin. simpl in Hin. rewrite Htype in Hin.
      discriminate Hin. }
  destruct Htc as (q & j & Hq & Hqtype & Htc).
  exists q, j.
  assert (Horder : appendOrderBy (makeContext tableSchema e) (groupBy e) (reduce e) []
                   = [orderByStage (castIfDynamic (prop_name q) tableSchema)]).
  { unfold appendOrderBy. simpl. rewrite Htc. simpl.
    rewrite (castIfDynamic_truthy (prop_name q) tableSchema)
      by (apply truthy_nonempty; exact (Hnames q j Hq)).
    simpl. destruct (expressions (groupBy e)) as [|g l] eqn:Hl; [easy|].
    simpl Nat.eqb. simpl andb.
    destruct (find _ (g :: l)) eqn:Hfind; [reflexivity|].
    apply (find_none _ _ Hfind) in Hin. discriminate Hin. }
  eexists. split; [exact Hq|]. split; [exact Hqtype|].
  rewrite toQueryParts_stages, Horder. rewrite !app_assoc. reflexivity.
Qed.

Lemma toQuery_time_bin_ordered_witness :
  exists q j stages,
    In (GroupByExpression q (Some j)) [perMinute]
    /\ prop_type q = QueryEditorPropertyType.DateTime
    /\ toQueryParts noVariables (groupedQuery [] [perMinute]) Logs None
       = stages ++ [orderByStage (castIfDynamic (prop_name q) None)].
Proof.
  apply (toQuery_time_bin_ordered noVariables (groupedQuery [] [perMinute]) Logs None
           (mkProperty "Timestamp" QueryEditorPropertyType.DateTime)
           (mkProperty "1m" QueryEditorPropertyType.Interval)).
  - simpl. left. reflexivity.
  - reflexivity.
  - simpl. intros q j [H|[]]. injection H as <- _. discriminate.
Defined.

(** ** Summarize and smoothing *)

Section SummarizeShape.

Variable templateSrv : TemplateSrv.
Variable context : ParseContext.

Lemma reduce_loop_plainSelection l : forall st,
  forallb plainSelection l = true ->
  fold_left (summarizeReduceStep templateSrv context) l st
  = mkReduceLoop (countAddedInReduce st) (reduceParts st)
      (columns st ++ flat_map (reducedColumn context) l).
Proof.
  induction l as [|e l IH]; intros st Hl; simpl.
  - rewrite app_nil_r. now destruct st.
  - simpl in Hl. apply andb_true_iff in Hl as [He Hl].
    destruct e as [?|? ?|p r [ps|]|? ?|? ?]; try discriminate He.
    simpl in He. apply String.eqb_eq in He.
    rewrite (IH _ Hl). simpl. rewrite He. simpl. now rewrite <- app_assoc.
Qed.

End SummarizeShape.

(** X13. Without smoothing and without group-by, a non-empty reduce list
    whose reductions are all named [none] and carry no parameters array is
    compiled to one [project] stage over the cast columns, in the order of
    the list, and to no [summarize]. *)
Theorem appendSummarize_project
    (templateSrv : TemplateSrv) (context : ParseContext)
    (reduce groupBy : QueryEditorArrayExpression) (parts : list string) :
  expressions reduce <> [] ->
  forallb plainSelection (expressions reduce) = true ->
  expressions groupBy = [] ->
  appendSummarize templateSrv context None reduce groupBy parts
  = parts ++ ["project " +:+ Js.join ", "
                (flat_map (reducedColumn context) (expressions reduce))].
Proof.
  intros Hne Hall Hgroup. unfold appendSummarize. simpl.
  rewrite (reduce_loop_plainSelection templateSrv context _ _ Hall), Hgroup. simpl.
  destruct (expressions reduce) as [|e l]; [easy|].
  destruct e as [?|? ?|p r ps|? ?|? ?]; try discriminate Hall. reflexivity.
Qed.

Lemma appendSummarize_project_witness :
  appendSummarize noVariables columnCast None
    (mkArray And [selectOf "Host"; selectOf "Value"]) (mkArray And []) ["Logs"]
  = ["Logs"; "project Host, Value"].
Proof.
  apply (appendSummarize_project noVariables columnCast
           (mkArray And [selectOf "Host"; selectOf "Value"]) (mkArray And []) ["Logs"]).
  - discriminate.
  - reflexivity.
  - reflexivity.
Defined.

(** X14. The terms of the [by] clause of [summarize]: the binned columns
    come first, in the reverse of their order in the group-by list (each is
    put in front), the plain columns follow in the order of the list. *)
Theorem groupByTerms_bins_first
    (context : ParseContext) (l : list QueryEditorExpression) :
  groupByTerms context l
  = rev (flat_map (binTerm context) l) ++ flat_map (plainTerm context) l.
Proof. unfold groupByTerms. now rewrite groupBy_loop_order. Qed.

(** X15. Under a smoothing algorithm other than [median] only the last
    reduction of the reduce list reaches the query: the pipeline is the
    one of the query whose reduce list is that reduction alone. *)
Theorem toQuery_smoothing_last_reduction
    (templateSrv : TemplateSrv) (e : QueryExpression) (f : QueryEditorPropertyExpression)
    (tableSchema : option (list AdxColumnSchema)) (name : string)
    (c c' : Combinator) (before : list QueryEditorExpression)
    (property reduction : QueryEditorProperty)
    (parameters : option (list QueryEditorFunctionParameterExpression)) :
  detectSmoothing (smoothing e) = Some name ->
  name <> "" -> name <> "median" ->
  let last := ReduceExpression property reduction parameters in
  toQueryParts templateSrv (withReduce e (mkArray c (before ++ [last]))) f tableSchema
  = toQueryParts templateSrv (withReduce e (mkArray c' [last])) f tableSchema.
Proof.
  intros Hname Hne Hmedian last.
  apply truthy_nonempty in Hne. apply String.eqb_neq in Hmedian.
  assert (Hlen : (length (before ++ [last]) =? 0) = false).
  { apply Nat.eqb_neq. rewrite List.length_app. simpl. lia. }
  rewrite !toQueryParts_stages.
  change (makeContext tableSchema (withReduce e (mkArray c (before ++ [last]))))
    with (makeContext tableSchema e).
  change (makeContext tableSchema (withReduce e (mkArray c' [last])))
    with (makeContext tableSchema e).
  simpl where_. simpl timeshift. simpl smoothing. simpl groupBy. simpl reduce.
  do 4 f_equal.
  assert (Hsummarize : forall r,
    appendSummarize templateSrv (makeContext tableSchema e) (smoothing e) r (groupBy e) []
    = []).
  { intros r. unfold appendSummarize. rewrite Hname. simpl. now rewrite Hne, Hmedian. }
  rewrite !Hsummarize. simpl. f_equal.
  - unfold appendSmoothing. simpl expressions. rewrite Hlen, fold_left_app. reflexivity.
  - unfold appendOrderBy. simpl expressions. rewrite Hlen. reflexivity.
Qed.

Lemma toQuery_smoothing_last_reduction_witness :
  toQueryParts noVariables
    (withReduce (smoothedQuery "ewma" [] [perMinute])
       (mkArray And ([countOf "Host" None] ++ [avgValue]))) Logs None
  = toQueryParts noVariables
      (withReduce (smoothedQuery "ewma" [] [perMinute]) (mkArray And [avgValue])) Logs None.
Proof.
  apply (toQuery_smoothing_last_reduction noVariables (smoothedQuery "ewma" [] [perMinute])
           Logs None "ewma" And And [countOf "Host" None]
           (mkProperty "Value" QueryEditorPropertyType.Number)
           (mkProperty "avg" QueryEditorPropertyType.Function) None).
  - reflexivity.
  - discriminate.
  - discriminate.
Defined.

(** X16. The algorithm [median] does not replace the [summarize]: with a
    non-empty reduce and a non-empty group-by the pipeline has the stage
    [appendSummarize] emits when there is no smoothing at all, followed by
    the one [evaluate rolling_percentile] stage. *)
Theorem toQuery_median_keeps_summarize
    (templateSrv : TemplateSrv) (e : QueryExpression) (f : QueryEditorPropertyExpression)
    (tableSchema : option (list AdxColumnSchema)) :
  detectSmoothing (smoothing e) = Some "median" ->
  expressions (reduce e) <> [] ->
  expressions (groupBy e) <> [] ->
  let context := makeContext tableSchema e in
  let '(func, castColumn) :=
    fold_left (smoothingReduceStep context) (expressions (reduce e)) ("", "") in
  let '(interval, groups) :=
    fold_left (smoothingGroupByStep context) (expressions (groupBy e)) ("", []) in
  toQueryParts templateSrv e f tableSchema
  = ([prop_name (pe_property f)]
     ++ appendTimeFilter context (timeshift e) []
     ++ appendWhere templateSrv context (asExpression (where_ e)) [] (Some "where")
     ++ appendTimeshift context (timeshift e) [])
    ++ appendSummarize templateSrv context None (reduce e) (groupBy e) []
    ++ [rollingPercentileStage func castColumn (Js.show (timeColumn context))
          interval "5" groups]
    ++ appendOrderBy context (groupBy e) (reduce e) [].
Proof.
  intros Hmedian Hreduce HgroupBy context.
  assert (Hsummarize :
    appendSummarize templateSrv context (smoothing e) (reduce e) (groupBy e) []
    = appendSummarize templateSrv context None (reduce e) (groupBy e) []).
  { unfold appendSummarize. now rewrite Hmedian. }
  assert (Hsmoothing :
    let '(func, castColumn) :=
      fold_left (smoothingReduceStep context) (expressions (reduce e)) ("", "") in
    let '(interval, groups) :=
      fold_left (smoothingGroupByStep context) (expressions (groupBy e)) ("", []) in
    appendSmoothing context (smoothing e) (reduce e) (groupBy e) []
    = [rollingPercentileStage func castColumn (Js.show (timeColumn context))
         interval "5" groups]).
  { apply length_zero_iff in Hreduce, HgroupBy.
    unfold appendSmoothing. rewrite Hmedian, Hreduce, HgroupBy.
    destruct (fold_left (smoothingReduceStep context) _ _) as [func castColumn].
    destruct (fold_left (smoothingGroupByStep context) _ _) as [interval groups].
    simpl. rewrite !length_pos_match. now destruct groups. }
  destruct (fold_left (smoothingReduceStep context) _ _) as [func castColumn].
  destruct (fold_left (smoothingGroupByStep context) _ _) as [interval groups].
  rewrite toQueryParts_stages. fold context. rewrite Hsummarize, Hsmoothing.
  rewrite <- !app_assoc. reflexivity.
Qed.

Lemma toQuery_median_keeps_summarize_witness :
  toQueryParts noVariables (smoothedQuery "median" [avgValue] [perMinute]) Logs None
  = ["Logs"; "where $__timeFilter(Timestamp)";
     "summarize avg(Value) by bin(Timestamp, 1m)";
     "evaluate rolling_percentile(avg_Value, 50, Timestamp, 1m, 5)";
     "order by Timestamp asc"].
Proof.
  pose proof (toQuery_median_keeps_summarize noVariables
                (smoothedQuery "median" [avgValue] [perMinute]) Logs None) as H.
  simpl in H. rewrite H; [reflexivity|reflexivity|discriminate|discriminate].
Defined.

(** X17. [translateSmoothingWeight] indexes a table of four entries with
    the weight: for a weight written in decimal digits the result is
    [undefined] exactly when the number is 4 or more, for [median] as for
    [ewma]; for any other algorithm it is [null], whatever the weight. *)
Theorem translateSmoothingWeight_bounds (smoothing weight : string) (n : N) :
  Js.digitsValue weight = Some n ->
  (translateSmoothingWeight "median" weight = Js.Undefined <-> (4 <= n)%N)
  /\ (translateSmoothingWeight "ewma" weight = Js.Undefined <-> (4 <= n)%N)
  /\ (smoothing <> "median" -> smoothing <> "ewma" ->
      translateSmoothingWeight smoothing weight = Js.Null).
Proof.
  intros Hn. unfold translateSmoothingWeight, toInteger. rewrite Hn.
  assert (Hindex : forall table : list string, length table = 4 ->
            Js.at_index table (Z.of_N n) = Js.Undefined <-> (4 <= n)%N).
  { intros table Hlen. unfold Js.at_index.
    destruct (Z.ltb_spec (Z.of_N n) 0) as [Hneg|_]; [lia|].
    destruct (table !! Z.to_nat (Z.of_N n)) as [s|] eqn:Hlookup.
    - apply lookup_lt_Some in Hlookup. split; [discriminate|]. lia.
    - apply lookup_ge_None in Hlookup. split; [|reflexivity]. lia. }
  split; [exact (Hindex medianWeights eq_refl)|].
  split; [exact (Hindex ewmaWeights eq_refl)|].
  intros Hmedian Hewma. apply String.eqb_neq in Hmedian, Hewma.
  now rewrite Hmedian, Hewma.
Qed.

Lemma translateSmoothingWeight_bounds_witness :
  (translateSmoothingWeight "median" "4" = Js.Undefined <-> (4 <= 4)%N)
  /\ (translateSmoothingWeight "ewma" "4" = Js.Undefined <-> (4 <= 4)%N)
  /\ ("auto" <> "median" -> "auto" <> "ewma" ->
      translateSmoothingWeight "auto" "4" = Js.Null).
Proof.
  exact (translateSmoothingWeight_bounds "auto" "4" 4%N eq_refl).
Defined.

(** X18. A smoothing algorithm other than [median] takes the [summarize]
    away even when it emits nothing itself: with an empty reduce or an
    empty group-by the pipeline has neither a [summarize] nor a
    [make-series] stage, only the source, the filters, the time-shift and
    the ordering, so the reductions or groups that are there are dropped. *)
Theorem toQuery_smoothing_without_groups
    (templateSrv : TemplateSrv) (e : QueryExpression) (f : QueryEditorPropertyExpression)
    (tableSchema : option (list AdxColumnSchema)) (name : string) :
  detectSmoothing (smoothing e) = Some name ->
  name <> "" -> name <> "median" ->
  expressions (reduce e) = [] \/ expressions (groupBy e) = [] ->
  let context := makeContext tableSchema e in
  toQueryParts templateSrv e f tableSchema
  = [prop_name (pe_property f)]
    ++ appendTimeFilter context (timeshift e) []
    ++ appendWhere templateSrv context (asExpression (where_ e)) [] (Some "where")
    ++ appendTimeshift context (timeshift e) []
    ++ appendOrderBy context (groupBy e) (reduce e) [].
Proof.
  intros Hname Hne Hmedian Hempty context.
  apply truthy_nonempty in Hne. apply String.eqb_neq in Hmedian.
  rewrite toQueryParts_stages. fold context. do 4 f_equal.
  assert (Hsummarize :
    appendSummarize templateSrv context (smoothing e) (reduce e) (groupBy e) [] = []).
  { unfold appendSummarize. rewrite Hname. simpl. now rewrite Hne, Hmedian. }
  assert (Hsmoothing :
    appendSmoothing context (smoothing e) (reduce e) (groupBy e) [] = []).
  { unfold appendSmoothing. rewrite Hname. simpl. rewrite Hne. simpl.
    destruct Hempty as [-> | ->]; [reflexivity|]. simpl. now rewrite orb_true_r. }
  now rewrite Hsummarize, Hsmoothing.
Qed.

Lemma toQuery_smoothing_without_groups_witness :
  toQueryParts noVariables (smoothedQuery "ewma" [avgValue] []) Logs timestampSchema
  = ["Logs"; "where $__timeFilter(Timestamp)"].
Proof.
  apply (toQuery_smoothing_without_groups noVariables (smoothedQuery "ewma" [avgValue] [])
           Logs timestampSchema "ewma").
  - reflexivity.
  - discriminate.
  - discriminate.
  - right. reflexivity.
Defined.

(** X19. A smoothing property with an empty name is no smoothing: the
    pipeline is the one of the query without it. *)
Theorem toQuery_empty_smoothing_name
    (templateSrv : TemplateSrv) (e : QueryExpression) (f : QueryEditorPropertyExpression)
    (tableSchema : option (list AdxColumnSchema)) :
  detectSmoothing (smoothing e) = Some "" ->
  toQueryParts templateSrv e f tableSchema
  = toQueryParts templateSrv (withoutSmoothing e) f tableSchema.
Proof.
  intros Hname. rewrite !toQueryParts_stages.
  change (makeContext tableSchema (withoutSmoothing e)) with (makeContext tableSchema e).
  simpl where_. simpl timeshift. simpl smoothing. simpl groupBy. simpl reduce.
  do 4 f_equal. f_equal.
  - unfold appendSummarize. now rewrite Hname.
  - f_equal. unfold appendSmoothing. now rewrite Hname.
Qed.

Lemma toQuery_empty_smoothing_name_witness :
  toQueryParts noVariables (smoothedQuery "" [countOf "Host" None] [perMinute]) Logs None
  = toQueryParts noVariables
      (withoutSmoothing (smoothedQuery "" [countOf "Host" None] [perMinute])) Logs None.
Proof.
  exact (toQuery_empty_smoothing_name noVariables
           (smoothedQuery "" [countOf "Host" None] [perMinute]) Logs None eq_refl).
Defined.

(** ** The text of [toQuery] *)

Lemma join_cons_prefix sep x l : String.prefix x (Js.join sep (x :: l)) = true.
Proof.
  destruct l as [|y l]; simpl.
  - rewrite <- (RegexFacts.append_nil_r x) at 2. apply prefix_append.
  - apply prefix_append.
Qed.

(** X20. A query with a source always compiles to a text that starts with
    the name of the source: the array of stages is never empty when it is
    joined, so the empty text is returned only for a missing expression or
    a missing source, or when the name itself is empty and nothing
    follows. *)
Theorem toQuery_starts_with_source
    (templateSrv : TemplateSrv) (e : QueryExpression) (f : QueryEditorPropertyExpression)
    (tableSchema : option (list AdxColumnSchema)) :
  from e = Some f ->
  String.prefix (prop_name (pe_property f)) (toQuery templateSrv (Some e) tableSchema) = true
  /\ exists stages,
       toQuery templateSrv (Some e) tableSchema
       = Js.join separator (prop_name (pe_property f) :: stages).
Proof.
  intros Hfrom. unfold toQuery. rewrite Hfrom.
  pose proof (toQueryParts_stages templateSrv e f tableSchema) as Hparts.
  simpl in Hparts. rewrite Hparts. simpl length. simpl Nat.eqb. cbv iota.
  split; [apply join_cons_prefix|]. eexists. reflexivity.
Qed.

Lemma toQuery_starts_with_source_witness :
  String.prefix "Logs" (toQuery noVariables (Some (shiftedQuery "1h")) timestampSchema) = true
  /\ exists stages,
       toQuery noVariables (Some (shiftedQuery "1h")) timestampSchema
       = Js.join separator ("Logs" :: stages).
Proof.
  exact (toQuery_starts_with_source noVariables (shiftedQuery "1h") Logs timestampSchema
           eq_refl).
Defined.

(** ** Filters and the context *)

(** X21. The [where] stages do not depend on the context: neither the
    time column nor the cast of dynamic columns enters them, so a filter
    on a dotted column is emitted under the name the editor gave it,
    while [summarize] casts the same name. *)
Theorem appendWhere_ignores_context
    (templateSrv : TemplateSrv) (context context' : ParseContext)
    (expression : QueryEditorExpression) (parts : list string) (prefix : option string) :
  appendWhere templateSrv context expression parts prefix
  = appendWhere templateSrv context' expression parts prefix.
Proof.
  revert parts prefix.
  induction expression as [p|p o|p r ps|p i|c exps IH] using expression_ind';
    intros parts prefix; try reflexivity.
  assert (Hfold : forall prefix' parts',
            fold_left (fun ps exp => appendWhere templateSrv context exp ps prefix')
              exps parts'
            = fold_left (fun ps exp => appendWhere templateSrv context' exp ps prefix')
                exps parts').
  { intros prefix'. induction IH as [|e exps He _ IHexps]; intros parts'; simpl.
    - reflexivity.
    - now rewrite He, IHexps. }
  destruct c; simpl; now rewrite Hfold.
Qed.

(** X22. Without a DateTime group-by that has an interval, the time
    column is the first column of the schema that has the type [datetime]
    and no dot in its name, uncast, also when a dotted [datetime] column
    comes earlier in the schema. *)
Theorem defaultTimeColumn_first_level
    (before after : list AdxColumnSchema) (column : AdxColumnSchema)
    (expression : QueryExpression) :
  (forall p i, In (GroupByExpression p (Some i)) (expressions (groupBy expression)) ->
               prop_type p <> QueryEditorPropertyType.DateTime) ->
  CslType column = "datetime" ->
  Js.includes "." (Name column) = false ->
  Forall (fun col => CslType col <> "datetime" \/ Js.includes "." (Name col) = true)
         before ->
  defaultTimeColumn (Some (before ++ column :: after)) expression = Some (Name column).
Proof.
  intros Hgroup Htype Hdot Hbefore. unfold defaultTimeColumn.
  destruct (find _ (expressions (groupBy expression))) as [exp|] eqn:Hfind.
  { apply find_some in Hfind as [Hin Hexp].
    destruct exp as [?|? ?|? ? ?|p [i|]|? ?]; try discriminate Hexp.
    exfalso. apply (Hgroup p i Hin). now destruct (prop_type p). }
  enough (find (fun col => String.eqb (CslType col) "datetime"
                           && negb (Js.includes "." (Name col)))
               (before ++ column :: after) = Some column) as -> by reflexivity.
  induction Hbefore as [|col before Hcol _ IHbefore]; simpl.
  - now rewrite Htype, Hdot.
  - destruct Hcol as [Hcol|Hcol].
    + apply String.eqb_neq in Hcol. now rewrite Hcol.
    + rewrite Hcol, andb_false_r. exact IHbefore.
Qed.

Lemma defaultTimeColumn_first_level_witness :
  defaultTimeColumn
    (Some ([mkColumn "Payload.at" "datetime"] ++ mkColumn "Timestamp" "datetime" :: []))
    (shiftedQuery "1h")
  = Some "Timestamp".
Proof.
  apply (defaultTimeColumn_first_level [mkColumn "Payload.at" "datetime"] []
           (mkColumn "Timestamp" "datetime") (shiftedQuery "1h")).
  - intros p i [].
  - reflexivity.
  - reflexivity.
  - constructor; [right; reflexivity|constructor].
Defined.

(** ** What [replaceByIndex] returns *)

Module SpliceFacts.
Import Store StoreFacts.

Lemma stored_Array h c exps lo hi l :
  stored h (ArrayExpression c exps) lo hi l
  = (exists a elems mid,
        storedList (stored h) exps elems lo mid
        /\ mid <= a < hi /\ mid <= l < hi
        /\ h !! l = Some (CArrayExpression c a)
        /\ h !! a = Some (CArray elems [])).
Proof. reflexivity. Qed.

Lemma storedList_inv S exps elems lo hi :
  storedList S exps elems lo hi ->
  (exps = [] /\ elems = [] /\ lo <= hi)
  \/ exists e exps' l elems' mid,
       exps = e :: exps' /\ elems = Some l :: elems'
       /\ S e lo mid l /\ storedList S exps' elems' mid hi.
Proof.
  destruct exps as [|e exps], elems as [|[l|] elems]; simpl; try easy.
  - intros H. now left.
  - intros (mid & He & Hes). right. now exists e, exps, l, elems, mid.
Qed.

(** The root of a stored tree is inside the interval of the tree. *)
Lemma stored_bounds h e : forall lo hi l, stored h e lo hi l -> lo <= l < hi.
Proof.
  induction e as [p|p o|p r ps|p i|c exps IH] using expression_ind';
    intros lo hi l; try (now intros [H _]).
  rewrite stored_Array. intros (a & elems & mid & Hlist & Ha & Hl & _).
  enough (lo <= mid) by lia. clear Ha Hl.
  revert elems lo Hlist. induction IH as [|e exps He _ IHexps]; intros elems lo Hlist.
  - destruct elems; [exact Hlist|destruct Hlist].
  - destruct elems as [|[l0|] elems]; [destruct Hlist| |destruct Hlist].
    destruct Hlist as (m & He' & Hes). apply He in He'. apply IHexps in Hes. lia.
Qed.

Lemma storedList_bounds h exps : forall elems lo hi,
  storedList (stored h) exps elems lo hi -> lo <= hi.
Proof.
  induction exps as [|e exps IH]; intros elems lo hi Hlist;
    apply storedList_inv in Hlist
      as [(_ & _ & H)|(e' & exps' & l & elems' & mid & [= <- <-] & -> & He & Hes)];
    try easy.
  apply stored_bounds in He. apply IH in Hes. lia.
Qed.

(** A stored tree depends on the objects of its interval only: it is
    still stored in any store that has these objects. *)
Lemma stored_frame h h' e : forall lo hi l,
  (forall x c, lo <= x < hi -> h !! x = Some c -> h' !! x = Some c) ->
  stored h e lo hi l -> stored h' e lo hi l.
Proof.
  induction e as [p|p o|p r ps|p i|c exps IH] using expression_ind';
    intros lo hi l Hsame;
    try (intros [Hl Hc]; split; [exact Hl|]; exact (Hsame l _ Hl Hc)).
  rewrite !stored_Array. intros (a & elems & mid & Hlist & Ha & Hl & Hcl & Hca).
  exists a, elems, mid.
  pose proof (storedList_bounds h exps elems lo mid Hlist) as Hmid.
  split; [|split; [exact Ha|split; [exact Hl|split]]];
    [|apply (Hsame l); [lia|exact Hcl]|apply (Hsame a); [lia|exact Hca]].
  assert (Hsame' : forall x c, lo <= x < mid -> h !! x = Some c -> h' !! x = Some c)
    by (intros x cell Hx; apply Hsame; lia).
  clear Hsame Ha Hl Hcl Hca Hmid.
  revert elems lo Hlist Hsame'.
  induction IH as [|e exps He _ IHexps]; intros elems lo Hlist Hsame.
  - destruct elems; [exact Hlist|destruct Hlist].
  - destruct elems as [|[l0|] elems]; [destruct Hlist| |destruct Hlist].
    destruct Hlist as (m & He' & Hes). exists m.
    pose proof (stored_bounds h e lo m l0 He') as Hm.
    pose proof (storedList_bounds h exps elems m mid Hes) as Hmm.
    split.
    + apply He; [|exact He']. intros y cell Hy. apply Hsame. lia.
    + apply IHexps; [exact Hes|]. intros y cell Hy. apply Hsame. lia.
Qed.

Lemma storedList_frame h h' exps : forall elems lo hi,
  (forall x c, lo <= x < hi -> h !! x = Some c -> h' !! x = Some c) ->
  storedList (stored h) exps elems lo hi -> storedList (stored h') exps elems lo hi.
Proof.
  induction exps as [|e exps IH]; intros elems lo hi Hsame Hlist.
  - destruct elems; [exact Hlist|destruct Hlist].
  - destruct elems as [|[l0|] elems]; [destruct Hlist| |destruct Hlist].
    destruct Hlist as (m & He & Hes). exists m.
    pose proof (stored_bounds h e lo m l0 He) as Hm.
    pose proof (storedList_bounds h exps elems m hi Hes) as Hmm.
    split.
    + apply stored_frame with h; [|exact He]. intros y cell Hy. apply Hsame. lia.
    + apply IH; [|exact Hes]. intros y cell Hy. apply Hsame. lia.
Qed.

Lemma stored_keeps h h' e lo hi l :
  keeps h h' -> stored h e lo hi l -> stored h' e lo hi l.
Proof. intros Hk. apply stored_frame. intros x c _. apply Hk. Qed.

Lemma storedList_keeps h h' exps elems lo hi :
  keeps h h' ->
  storedList (stored h) exps elems lo hi -> storedList (stored h') exps elems lo hi.
Proof. intros Hk. apply storedList_frame. intros x c _. apply Hk. Qed.

(** A stored tree is read back by [load], with its height as fuel. *)
Lemma stored_load h e : forall lo hi l n,
  stored h e lo hi l -> height e <= n -> load n h l = Some e.
Proof.
  induction e as [p|p o|p r ps|p i|c exps IH] using expression_ind';
    intros lo hi l [|n]; simpl height; try lia;
    try (intros [_ Hc] _; rewrite load_S, Hc; reflexivity).
  rewrite stored_Array. intros (a & elems & mid & Hlist & _ & _ & Hcl & Hca) Hn.
  rewrite load_S, Hcl, Hca.
  enough (loadList (load n h) elems = Some exps) as -> by reflexivity.
  assert (Hmax : list_max (map height exps) <= n) by lia. clear Hn Hcl Hca.
  revert elems lo Hlist Hmax.
  induction IH as [|e exps He _ IHexps]; intros elems lo Hlist Hmax.
  - destruct elems; [reflexivity|destruct Hlist].
  - destruct elems as [|[l0|] elems]; [destruct Hlist| |destruct Hlist].
    destruct Hlist as (m & He' & Hes). simpl in Hmax. simpl.
    rewrite (He lo m l0 n He') by lia. simpl.
    rewrite (IHexps elems m Hes) by lia. reflexivity.
Qed.

Lemma storedList_load h exps : forall elems lo hi n,
  storedList (stored h) exps elems lo hi -> list_max (map height exps) <= n ->
  loadList (load n h) elems = Some exps.
Proof.
  induction exps as [|e exps IH]; intros elems lo hi n Hlist Hmax.
  - destruct elems; [reflexivity|destruct Hlist].
  - destruct elems as [|[l0|] elems]; [destruct Hlist| |destruct Hlist].
    destruct Hlist as (m & He & Hes). simpl in Hmax. simpl.
    rewrite (stored_load h e lo m l0 n He) by lia. simpl.
    rewrite (IH elems m hi n Hes) by lia. reflexivity.
Qed.

(** The array of a stored list has one element per tree, and no hole. *)
Lemma storedList_dense h exps : forall elems lo hi,
  storedList (stored h) exps elems lo hi ->
  length elems = length exps /\ Forall (fun x => x <> None) elems.
Proof.
  induction exps as [|e exps IH]; intros elems lo hi Hlist.
  - destruct elems; [split; [reflexivity|constructor]|destruct Hlist].
  - destruct elems as [|[l0|] elems]; [destruct Hlist| |destruct Hlist].
    destruct Hlist as (m & _ & Hes). destruct (IH elems m hi Hes) as [Hlen Hall].
    split; [simpl; now rewrite Hlen|]. now constructor.
Qed.

(** [cloneDeep] of a stored tree: the copy is the same tree, stored in
    the objects the call has added. *)
Lemma cloneDeep_stored e : forall n h lo hi l,
  stored h e lo hi l -> height e <= n ->
  exists l' h', cloneDeep n h l = Some (l', h')
                /\ keeps h h' /\ stored h' e (length h) (length h') l'.
Proof.
  assert (Hleaf : forall h cell, exists l' h',
            Some (alloc h cell) = Some (l', h') /\ keeps h h'
            /\ (length h <= l' < length h') /\ h' !! l' = Some cell).
  { intros h cell. exists (length h), (h ++ [cell]). split; [reflexivity|].
    split; [apply keeps_app|]. rewrite length_app. simpl.
    split; [lia|]. now apply list_lookup_middle. }
  induction e as [p|p o|p r ps|p i|c exps IH] using expression_ind';
    intros [|n] h lo hi l; simpl height; try lia;
    try (intros [_ Hc] _; rewrite cloneDeep_S, Hc;
         match type of Hc with
         | _ = Some ?cell =>
             destruct (Hleaf h cell) as (l' & h' & Halloc & Hk & Hl' & Hc')
         end;
         exists l', h'; split; [exact Halloc|]; split; [exact Hk|];
         split; [exact Hl'|exact Hc']).
  rewrite stored_Array. intros (a & elems & mid & Hlist & _ & _ & Hcl & Hca) Hn.
  rewrite cloneDeep_S, Hcl, Hca.
  assert (Hmax : list_max (map height exps) <= n) by lia. clear Hn Hcl Hca.
  assert (Hclones : exists elems' h',
            cloneList (cloneDeep n) h elems = Some (elems', h') /\ keeps h h'
            /\ storedList (stored h') exps elems' (length h) (length h')).
  { revert elems lo h Hlist Hmax.
    induction IH as [|e exps He _ IHexps]; intros elems lo h Hlist Hmax.
    - destruct elems; [|destruct Hlist]. exists [], h.
      split; [reflexivity|]. split; [apply keeps_refl|]. simpl. lia.
    - destruct elems as [|[l0|] elems]; [destruct Hlist| |destruct Hlist].
      destruct Hlist as (m & He' & Hes). simpl in Hmax.
      destruct (He n h lo m l0 He') as (l1 & h1 & Hclone1 & Hk1 & Hs1); [lia|].
      destruct (IHexps elems m h1) as (elems2 & h2 & Hclone2 & Hk2 & Hs2);
        [now apply storedList_keeps with h|lia|].
      exists (Some l1 :: elems2), h2. simpl. rewrite Hclone1. simpl.
      rewrite Hclone2. simpl. split; [reflexivity|].
      split; [now apply keeps_trans with h1|].
      exists (length h1). split; [now apply stored_keeps with h1|exact Hs2]. }
  destruct Hclones as (elems1 & h1 & -> & Hk1 & Hs1). cbn -[stored].
  exists (length (h1 ++ [CArray elems1 []])),
         ((h1 ++ [CArray elems1 []]) ++ [CArrayExpression c (length h1)]).
  split; [reflexivity|].
  assert (Hk2 : keeps h1 ((h1 ++ [CArray elems1 []]) ++ [CArrayExpression c (length h1)])).
  { apply keeps_trans with (h1 ++ [CArray elems1 []]); apply keeps_app. }
  split; [now apply keeps_trans with h1|].
  rewrite stored_Array. exists (length h1), elems1, (length h1).
  split; [now apply storedList_keeps with h1|].
  rewrite !length_app. simpl. split; [lia|]. split; [lia|]. split.
  - apply list_lookup_middle. rewrite length_app. simpl. lia.
  - apply lookup_app_l_Some. now apply list_lookup_middle.
Qed.

(** [allocExpression] stores the tree it lays out: every tree can be held
    by a store in the way the properties below ask for. *)
Lemma allocExpression_stored e : forall h,
  keeps h (allocExpression e h).2
  /\ stored (allocExpression e h).2 e (length h) (length (allocExpression e h).2)
       (allocExpression e h).1.
Proof.
  induction e as [p|p o|p r ps|p i|c exps IH] using expression_ind'; intros h;
    try (split; [apply keeps_app|]; simpl; rewrite length_app; simpl;
         split; [lia|now apply list_lookup_middle]).
  assert (Hlist : forall h,
            keeps h (allocList allocExpression exps h).2
            /\ storedList (stored (allocList allocExpression exps h).2) exps
                 (allocList allocExpression exps h).1
                 (length h) (length (allocList allocExpression exps h).2)).
  { induction IH as [|e exps He _ IHexps]; intros h0.
    - split; [apply keeps_refl|]. simpl. lia.
    - simpl allocList. destruct (He h0) as [Hk1 Hs1].
      destruct (allocExpression e h0) as [l1 h1]. simpl in Hk1, Hs1.
      destruct (IHexps h1) as [Hk2 Hs2].
      destruct (allocList allocExpression exps h1) as [elems h2]. simpl in Hk2, Hs2 |- *.
      split; [now apply keeps_trans with h1|].
      exists (length h1). split; [now apply stored_keeps with h1|exact Hs2]. }
  simpl allocExpression. destruct (Hlist h) as [Hk Hs].
  destruct (allocList allocExpression exps h) as [elems h1].
  cbn [fst snd alloc] in *.
  assert (Hk2 : keeps h1 ((h1 ++ [CArray elems []]) ++ [CArrayExpression c (length h1)])).
  { apply keeps_trans with (h1 ++ [CArray elems []]); apply keeps_app. }
  split; [now apply keeps_trans with h1|].
  rewrite stored_Array. exists (length h1), elems, (length h1).
  split; [now apply storedList_keeps with h1|].
  rewrite !length_app. simpl. split; [lia|]. split; [lia|]. split.
  - apply list_lookup_middle. rewrite length_app. simpl. lia.
  - apply lookup_app_l_Some. now apply list_lookup_middle.
Qed.

(** Reading an array after a write to it. *)
Lemma loadList_insert (f : loc -> option QueryEditorExpression) operator e :
  f operator = Some e ->
  forall elems exps i,
    Forall (fun x => x <> None) elems ->
    loadList f elems = Some exps ->
    loadList f (<[i := Some operator]> elems) = Some (<[i := e]> exps).
Proof.
  intros Hop. induction elems as [|[l|] elems IH]; intros exps i Hdense; simpl.
  - intros [= <-]. reflexivity.
  - destruct (f l) as [t|] eqn:Hl; [|discriminate]. simpl.
    destruct (loadList f elems) as [ts|] eqn:Hts; [|discriminate]. simpl.
    intros [= <-]. apply Forall_inv_tail in Hdense. destruct i as [|i]; simpl.
    + now rewrite Hop, Hts.
    + rewrite Hl. simpl. now rewrite (IH ts i Hdense eq_refl).
  - apply Forall_inv in Hdense. now elim Hdense.
Qed.

Lemma loadList_extend (f : loc -> option QueryEditorExpression) operator e k :
  f operator = Some e ->
  forall elems exps,
    loadList f elems = Some exps ->
    loadList f (elems ++ replicate k None ++ [Some operator]) = Some (exps ++ [e]).
Proof.
  intros Hop. induction elems as [|[l|] elems IH]; intros exps; simpl.
  - intros [= <-]. induction k as [|k IHk]; simpl; [now rewrite Hop|exact IHk].
  - destruct (f l) as [t|]; [|discriminate]. simpl.
    destruct (loadList f elems) as [ts|] eqn:Hts; [|discriminate]. simpl.
    intros [= <-]. now rewrite (IH ts eq_refl).
  - apply IH.
Qed.

Lemma height_lookup exps i e :
  exps !! i = Some e -> height e <= list_max (map height exps).
Proof.
  revert i. induction exps as [|e0 exps IH]; intros [|i]; simpl; try discriminate.
  - intros [= <-]. lia.
  - intros H. apply IH in H. lia.
Qed.

(** The child of index [i] of a stored list: its tree, its interval, and
    how the list reads in a store that differs inside this interval only. *)
Lemma storedList_child h exps : forall elems lo hi i exp,
  storedList (stored h) exps elems lo hi ->
  elems !! i = Some (Some exp) ->
  exists e lo_i hi_i,
    exps !! i = Some e /\ lo <= lo_i /\ hi_i <= hi /\ stored h e lo_i hi_i exp
    /\ forall h' n e',
         (forall x c, lo <= x < hi -> x < lo_i \/ hi_i <= x ->
                      h !! x = Some c -> h' !! x = Some c) ->
         list_max (map height exps) <= n ->
         load n h' exp = Some e' ->
         loadList (load n h') elems = Some (<[i := e']> exps).
Proof.
  induction exps as [|e exps IH]; intros elems lo hi i exp Hlist Hi.
  - destruct elems; [discriminate Hi|destruct Hlist].
  - destruct elems as [|[l0|] elems]; [destruct Hlist| |destruct Hlist].
    destruct Hlist as (m & He & Hes).
    pose proof (stored_bounds h e lo m l0 He) as Hm.
    pose proof (storedList_bounds h exps elems m hi Hes) as Hmm.
    destruct i as [|i].
    + injection Hi as <-. exists e, lo, m.
      split; [reflexivity|]. split; [lia|]. split; [lia|]. split; [exact He|].
      intros h' n e' Hsame Hmax Hload. simpl in Hmax. simpl. rewrite Hload. simpl.
      rewrite (storedList_load h' exps elems m hi n); [reflexivity| |lia].
      apply storedList_frame with h; [|exact Hes].
      intros x c Hx. apply Hsame; lia.
    + destruct (IH elems m hi i exp Hes Hi)
        as (e_i & lo_i & hi_i & Hlookup & Hlo & Hhi & Hstored & Hread).
      exists e_i, lo_i, hi_i.
      split; [exact Hlookup|]. split; [lia|]. split; [lia|]. split; [exact Hstored|].
      intros h' n e' Hsame Hmax Hload. simpl in Hmax. simpl.
      rewrite (stored_load h' e lo m l0 n); [| |lia].
      * simpl. rewrite (Hread h' n e'); [reflexivity| |lia|exact Hload].
        intros x c Hx. apply Hsame; lia.
      * apply stored_frame with h; [|exact He].
        intros x c Hx. apply Hsame; lia.
Qed.

Lemma splice_last key operator exps :
  splice [key] operator exps
  = match arrayIndex key with
    | Some i => if i <? length exps then <[i := operator]> exps else exps ++ [operator]
    | None => exps
    end.
Proof. reflexivity. Qed.

Lemma splice_step key key' keys operator exps :
  splice (key :: key' :: keys) operator exps
  = match arrayIndex key with
    | Some i =>
        match exps !! i with
        | Some (ArrayExpression c inner) =>
            <[i := ArrayExpression c (splice (key' :: keys) operator inner)]> exps
        | _ => splice (key' :: keys) operator exps
        end
    | None => splice (key' :: keys) operator exps
    end.
Proof. reflexivity. Qed.

(** The loop of [replaceByIndex] on the array of a stored list: it makes
    at most one write, to this array or to an array inside the interval
    of the list, and the array then reads as the spliced list. *)
Lemma replaceLoop_splice h operator p o :
  h !! operator = Some (COperator p o) ->
  forall keys exps elems lo mid a,
    storedList (stored h) exps elems lo mid ->
    a < lo \/ mid <= a ->
    h !! a = Some (CArray elems []) ->
    exists h',
      replaceLoop h operator a keys = Some h'
      /\ (h' = h
          \/ exists w cell elems0 named0,
               h' = <[w := cell]> h /\ (w = a \/ lo <= w < mid)
               /\ h !! w = Some (CArray elems0 named0))
      /\ exists elems' named',
           h' !! a = Some (CArray elems' named')
           /\ forall n, S (list_max (map height exps)) <= n ->
                loadList (load n h') elems'
                = Some (splice keys (OperatorExpression p o) exps).
Proof.
  intros Hop. induction keys as [|key keys IH]; intros exps elems lo mid a Hlist Ha Hca.
  - exists h. split; [reflexivity|]. split; [now left|].
    exists elems, []. split; [exact Hca|]. intros n Hn. simpl splice.
    apply storedList_load with lo mid; [exact Hlist|lia].
  - destruct (storedList_dense h exps elems lo mid Hlist) as [Hlen Hdense].
    destruct keys as [|key' keys].
    + rewrite replaceLoop_last, Hca, splice_last.
      pose proof (lookup_lt_Some _ _ _ Hca) as Hlt.
      set (h' := <[a := arraySet elems [] key operator]> h).
      assert (Hother : forall x c, x <> a -> h !! x = Some c -> h' !! x = Some c).
      { intros x c Hx Hc. unfold h'. now rewrite list_lookup_insert_ne. }
      assert (Hself : h' !! a = Some (arraySet elems [] key operator)).
      { unfold h'. now apply list_lookup_insert_eq. }
      assert (Hread : forall n, S (list_max (map height exps)) <= n ->
                loadList (load n h') elems = Some exps).
      { intros n Hn. apply storedList_load with lo mid; [|lia].
        apply storedList_frame with h; [|exact Hlist].
        intros x c Hx. apply Hother. lia. }
      assert (Hoperator : forall n, S (list_max (map height exps)) <= n ->
                load n h' operator = Some (OperatorExpression p o)).
      { intros [|n] Hn; [lia|]. rewrite load_S, (Hother operator (COperator p o)); [reflexivity| |exact Hop].
        intros ->. rewrite Hca in Hop. discriminate Hop. }
      exists h'. split; [reflexivity|]. split.
      { right. exists a, (arraySet elems [] key operator), elems, [].
        split; [reflexivity|]. split; [now left|exact Hca]. }
      rewrite Hself. unfold arraySet. destruct (arrayIndex key) as [i|].
      * rewrite Hlen. destruct (i <? length exps).
        -- do 2 eexists. split; [reflexivity|]. intros n Hn.
           apply loadList_insert; auto.
        -- do 2 eexists. split; [reflexivity|]. intros n Hn.
           apply loadList_extend; auto.
      * do 2 eexists. split; [reflexivity|]. exact Hread.
    + rewrite replaceLoop_step, Hca, splice_step.
      unfold arrayGet. destruct (arrayIndex key) as [i|]; [|now apply (IH exps elems lo mid a)].
      destruct (elems !! i) as [[exp|]|] eqn:Hi; cbn -[splice replaceLoop load stored].
      * destruct (storedList_child h exps elems lo mid i exp Hlist Hi)
          as (e & lo_i & hi_i & Hlookup & Hlo & Hhi & Hstored & Hread).
        pose proof (height_lookup exps i e Hlookup) as Hheight. rewrite Hlookup.
        destruct e as [q|q r|q r ps|q j|c inner];
          try (destruct Hstored as [_ ->]; now apply (IH exps elems lo mid a)).
        rewrite stored_Array in Hstored.
        destruct Hstored as (a2 & elems2 & mid2 & Hinner & Ha2 & Hexp & Hcexp & Hca2).
        rewrite Hcexp.
        pose proof (storedList_bounds h inner elems2 lo_i mid2 Hinner) as Hmid2.
        destruct (IH inner elems2 lo_i mid2 a2 Hinner (or_intror (proj1 Ha2)) Hca2)
          as (h' & -> & Hwrite & elems2' & named2' & Hca2' & Hread2).
        exists h'. split; [reflexivity|].
        assert (Hother : forall x cell,
                  x < lo_i \/ hi_i <= x \/ (forall e0 n0, cell <> CArray e0 n0) ->
                  h !! x = Some cell -> h' !! x = Some cell).
        { intros x cell0 Hx Hc.
          destruct Hwrite as [->|(w & cell & elems0 & named0 & -> & Hw & Hcw)];
            [exact Hc|].
          rewrite list_lookup_insert_ne; [exact Hc|]. intros ->.
          destruct Hx as [Hx|[Hx|Hx]]; [lia|lia|].
          rewrite Hcw in Hc. injection Hc as <-. now apply (Hx elems0 named0). }
        split.
        { destruct Hwrite as [->|(w & cell & elems0 & named0 & -> & Hw & Hcw)];
            [now left|].
          right. exists w, cell, elems0, named0.
          split; [reflexivity|]. split; [right; lia|exact Hcw]. }
        exists elems, []. split; [apply Hother; [lia|exact Hca]|].
        intros [|n] Hn; [lia|]. apply Hread.
        -- intros x cell _ Hx. apply Hother. tauto.
        -- lia.
        -- assert (Hcexp' : h' !! exp = Some (CArrayExpression c a2))
             by (apply Hother; [right; right; discriminate|exact Hcexp]).
           rewrite load_S, Hcexp', Hca2'.
           rewrite Hread2; [reflexivity|]. simpl in Hheight. lia.
      * apply Forall_lookup_1 with (i := i) (x := None) in Hdense; [now elim Hdense|exact Hi].
      * rewrite (proj2 (lookup_ge_None exps i)); [now apply (IH exps elems lo mid a)|].
        apply lookup_ge_None in Hi. lia.
Qed.

(** [replaceByIndex] on a stored tree returns, and the tree it returns
    has the spliced children. *)
Lemma replaceByIndex_splice fuel index expression operator h c exps p o lo hi :
  stored h (ArrayExpression c exps) lo hi expression ->
  height (ArrayExpression c exps) <= fuel ->
  h !! operator = Some (COperator p o) ->
  exists where' h',
    replaceByIndex fuel index expression operator h = Some (where', h')
    /\ load (S fuel) h' where'
       = Some (ArrayExpression c
                 (splice (map parseInt (Js.split "-" index)) (OperatorExpression p o) exps)).
Proof.
  intros Hstored Hfuel Hop.
  destruct (cloneDeep_stored _ fuel h lo hi expression Hstored Hfuel)
    as (where' & h1 & Hclone & Hk1 & Hs1).
  rewrite stored_Array in Hs1.
  destruct Hs1 as (a & elems & mid & Hlist & Ha & Hl & Hcl & Hca).
  destruct (replaceLoop_splice h1 operator p o (Hk1 _ _ Hop)
              (map parseInt (Js.split "-" index)) exps elems (length h) mid a
              Hlist (or_intror (proj1 Ha)) Hca)
    as (h2 & Hloop & Hwrite & elems' & named' & Hca' & Hread).
  exists where', h2. unfold replaceByIndex. rewrite Hclone. cbn -[load splice].
  rewrite Hcl, Hloop. cbn -[load splice]. split; [reflexivity|].
  assert (Hroot : h2 !! where' = Some (CArrayExpression c a)).
  { destruct Hwrite as [->|(w & cell & elems0 & named0 & -> & _ & Hcw)]; [exact Hcl|].
    rewrite list_lookup_insert_ne; [exact Hcl|]. intros <-.
    rewrite Hcw in Hcl. discriminate Hcl. }
  rewrite load_S, Hroot, Hca', (Hread fuel); [reflexivity|exact Hfuel].
Qed.

(** Keys that are no array index change nothing. *)
Lemma splice_no_index operator keys : forall exps,
  Forall (fun key => arrayIndex key = None) keys -> splice keys operator exps = exps.
Proof.
  induction keys as [|key keys IH]; intros exps Hkeys; [reflexivity|].
  pose proof (Forall_inv Hkeys) as Hkey. apply Forall_inv_tail in Hkeys.
  destruct keys as [|key' keys].
  - now rewrite splice_last, Hkey.
  - rewrite splice_step, Hkey. now apply IH.
Qed.

(** An index written in decimal digits is one key, its value. *)
Lemma split_no_separator sep s :
  Js.every (fun c => negb (Ascii.eqb c sep)) s = true -> Js.split sep s = [s].
Proof.
  induction s as [|c s IH]; simpl; [reflexivity|].
  intros H. apply andb_true_iff in H as [Hc Hs].
  apply negb_true_iff in Hc. now rewrite Hc, (IH Hs).
Qed.

Lemma digitsValue_from_every s : forall a n,
  Js.digitsValue_from a s = Some n -> Js.every Js.isDigit s = true.
Proof.
  induction s as [|c s IH]; intros a n; simpl; [reflexivity|].
  destruct (Js.isDigit c); [apply IH|discriminate].
Qed.

Lemma digitsPrefix_digits s : forall a n seen,
  Js.digitsValue_from a s = Some n ->
  seen = true \/ s <> "" ->
  digitsPrefix (Z.of_N a) seen s = Some (Z.of_N n).
Proof.
  induction s as [|c s IH]; intros a n seen; simpl.
  - intros [= <-] [->|Hne]; [reflexivity|now elim Hne].
  - destruct (Js.isDigit c) eqn:Hc; [|discriminate]. intros Hn _.
    rewrite <- (IH _ n true Hn (or_introl eq_refl)). f_equal.
    unfold Js.isDigit in Hc. apply andb_true_iff in Hc as [Hlo _].
    apply Nat.leb_le in Hlo. unfold Ascii.nat_of_ascii in *. lia.
Qed.

Lemma digit_not_dash c : Js.isDigit c = true -> negb (Ascii.eqb c "-") = true.
Proof.
  intros H. destruct (Ascii.eqb_spec c "-") as [->|_]; [discriminate H|reflexivity].
Qed.

Lemma parseInt_digit_head c s :
  Js.isDigit c = true -> parseInt (String c s) = digitsPrefix 0 false (String c s).
Proof.
  intros Hc. destruct c as [[] [] [] [] [] [] [] []]; try discriminate Hc; reflexivity.
Qed.

Lemma parseInt_digits s n :
  Js.digitsValue s = Some n -> parseInt s = Some (Z.of_N n).
Proof.
  destruct s as [|c s]; [discriminate|]. intros Hn.
  change (Js.digitsValue (String c s)) with (Js.digitsValue_from 0 (String c s)) in Hn.
  assert (Hc : Js.isDigit c = true).
  { change (Js.digitsValue_from 0 (String c s))
      with (if Js.isDigit c
            then Js.digitsValue_from (0 * 10 + (Ascii.N_of_ascii c - 48))%N s
            else None) in Hn.
    destruct (Js.isDigit c); [reflexivity|discriminate Hn]. }
  rewrite (parseInt_digit_head c s Hc).
  apply (digitsPrefix_digits (String c s) 0%N n false Hn). right. discriminate.
Qed.

Lemma keys_of_digits index n :
  Js.digitsValue index = Some n ->
  map parseInt (Js.split "-" index) = [Some (Z.of_N n)].
Proof.
  intros Hn. rewrite split_no_separator.
  - simpl. now rewrite (parseInt_digits index n Hn).
  - destruct index as [|c s]; [discriminate|].
    apply (every_impl Js.isDigit); [exact digit_not_dash|].
    now apply (digitsValue_from_every (String c s) 0%N n).
Qed.

End SpliceFacts.

(** X23. [replaceByIndex] on a [where] tree that the store holds in
    objects of its own: the call returns, and the tree it returns is the
    tree of the caller with its children spliced along the keys of the
    index, the search operator at the place of the last key. *)
Theorem replaceByIndex_returns_splice
    (fuel : nat) (index : string) (expression operator : nat) (h : list Store.cell)
    (c : Combinator) (exps : list QueryEditorExpression)
    (p : QueryEditorProperty) (o : QueryEditorOperator) (lo hi : nat) :
  stored h (ArrayExpression c exps) lo hi expression ->
  Store.height (ArrayExpression c exps) <= fuel ->
  h !! operator = Some (Store.COperator p o) ->
  exists where' h',
    Store.replaceByIndex fuel index expression operator h = Some (where', h')
    /\ Store.load (S fuel) h' where'
       = Some (ArrayExpression c
                 (splice (map Store.parseInt (Js.split "-" index))
                    (OperatorExpression p o) exps)).
Proof. apply SpliceFacts.replaceByIndex_splice. Qed.

Lemma replaceByIndex_returns_splice_witness :
  exists where' h',
    Store.replaceByIndex 2 "1" 3 4 callerStore = Some (where', h')
    /\ Store.load 3 h' where'
       = Some (ArrayExpression And
                 [filterA;
                  OperatorExpression (mkProperty "c" QueryEditorPropertyType.String)
                                     (mkOperator "==" (VScalar ""))]).
Proof.
  apply (replaceByIndex_returns_splice 2 "1" 3 4 callerStore And [filterA; filterB]
           (mkProperty "c" QueryEditorPropertyType.String)
           (mkOperator "==" (VScalar "")) 0 4).
  - exists 2, [Some 0; Some 1], 2. simpl.
    split; [exists 1; split; [split; [lia|reflexivity]|];
            exists 2; split; [split; [lia|reflexivity]|lia]|].
    split; [lia|]. split; [lia|]. split; reflexivity.
  - simpl. lia.
  - reflexivity.
Defined.

(** X24. The text of [toAutoCompleteQuery], for a query with a source, a
    search operator and a [where] tree that the store holds in objects of
    its own: the source, the unshifted time filter, the [where] stages of
    the spliced tree, then [take 50000], [distinct] on the cast column of
    the search operator and [take 251], joined by the stage separator. *)
Theorem toAutoCompleteQuery_text
    (templateSrv : TemplateSrv) (fuel : nat) (q : Store.AutoCompleteQuery)
    (tableSchema : option (list AdxColumnSchema)) (h : list Store.cell)
    (f : QueryEditorPropertyExpression)
    (c : Combinator) (exps : list QueryEditorExpression)
    (p : QueryEditorProperty) (o : QueryEditorOperator) (lo hi : nat) :
  from (Store.expression q) = Some f ->
  h !! Store.search_at q = Some (Store.COperator p o) ->
  stored h (ArrayExpression c exps) lo hi (Store.where_at q) ->
  Store.height (ArrayExpression c exps) <= fuel ->
  let context := makeContext tableSchema (Store.expression q) in
  let spliced :=
    ArrayExpression c
      (splice (map Store.parseInt (Js.split "-" (Store.index q)))
         (OperatorExpression p o) exps) in
  exists h',
    Store.toAutoCompleteQuery templateSrv fuel (Some q) tableSchema h
    = Some (Js.join separator
              ([prop_name (pe_property f)]
               ++ appendTimeFilter context None []
               ++ appendWhere templateSrv context spliced [] (Some "where")
               ++ ["take 50000";
                   "distinct " +:+ castIfDynamic (prop_name p) tableSchema;
                   "take 251"]),
            h').
Proof.
  intros Hfrom Hsearch Hstored Hfuel context spliced.
  destruct (SpliceFacts.replaceByIndex_splice fuel (Store.index q) (Store.where_at q)
              (Store.search_at q) h c exps p o lo hi Hstored Hfuel Hsearch)
    as (where' & h' & Hreplace & Hload).
  exists h'. unfold Store.toAutoCompleteQuery.
  rewrite Hfrom, Hsearch, Hreplace. cbn -[Store.load splice appendWhere].
  rewrite Hload. cbn -[splice appendWhere]. fold spliced. fold context.
  rewrite (appendWhere_app templateSrv context spliced),
    (appendTimeFilter_app context None).
  unfold appendProperty. rewrite <- !app_assoc. reflexivity.
Qed.

Lemma toAutoCompleteQuery_text_witness :
  exists h',
    Store.toAutoCompleteQuery noVariables 2 (Some searchQuery) None callerStore
    = Some (Js.join separator
              ["Logs"; "where a == 'x'"; "where c == ''";
               "take 50000"; "distinct c"; "take 251"],
            h').
Proof.
  apply (toAutoCompleteQuery_text noVariables 2 searchQuery None callerStore Logs
           And [filterA; filterB]
           (mkProperty "c" QueryEditorPropertyType.String)
           (mkOperator "==" (VScalar "")) 0 4).
  - reflexivity.
  - reflexivity.
  - exists 2, [Some 0; Some 1], 2. simpl.
    split; [exists 1; split; [split; [lia|reflexivity]|];
            exists 2; split; [split; [lia|reflexivity]|lia]|].
    split; [lia|]. split; [lia|]. split; reflexivity.
  - simpl. lia.
Defined.

(** X25. An index none of whose pieces is an array index - the empty
    index, a text without leading digits - makes [replaceByIndex] write
    under a key that is no index: the tree it returns is the tree of the
    caller, and the search operator is not in it. *)
Theorem replaceByIndex_no_index
    (fuel : nat) (index : string) (expression operator : nat) (h : list Store.cell)
    (c : Combinator) (exps : list QueryEditorExpression)
    (p : QueryEditorProperty) (o : QueryEditorOperator) (lo hi : nat) :
  stored h (ArrayExpression c exps) lo hi expression ->
  Store.height (ArrayExpression c exps) <= fuel ->
  h !! operator = Some (Store.COperator p o) ->
  Forall (fun piece => Store.arrayIndex (Store.parseInt piece) = None)
         (Js.split "-" index) ->
  exists where' h',
    Store.replaceByIndex fuel index expression operator h = Some (where', h')
    /\ Store.load (S fuel) h' where' = Some (ArrayExpression c exps).
Proof.
  intros Hstored Hfuel Hop Hpieces.
  destruct (SpliceFacts.replaceByIndex_splice fuel index expression operator h c exps p o
              lo hi Hstored Hfuel Hop) as (where' & h' & Hreplace & Hload).
  exists where', h'. split; [exact Hreplace|].
  rewrite Hload, SpliceFacts.splice_no_index; [reflexivity|].
  now apply Forall_map.
Qed.

Lemma replaceByIndex_no_index_witness :
  exists where' h',
    Store.replaceByIndex 2 "" 3 4 callerStore = Some (where', h')
    /\ Store.load 3 h' where' = Some (ArrayExpression And [filterA; filterB]).
Proof.
  apply (replaceByIndex_no_index 2 "" 3 4 callerStore And [filterA; filterB]
           (mkProperty "c" QueryEditorPropertyType.String)
           (mkOperator "==" (VScalar "")) 0 4).
  - exists 2, [Some 0; Some 1], 2. simpl.
    split; [exists 1; split; [split; [lia|reflexivity]|];
            exists 2; split; [split; [lia|reflexivity]|lia]|].
    split; [lia|]. split; [lia|]. split; reflexivity.
  - simpl. lia.
  - reflexivity.
  - repeat constructor.
Defined.

(** X26. An index written in decimal digits whose value is the number of
    children or more makes [replaceByIndex] write past the end of the
    array: the tree it returns, read as [forEach] visits it, has the
    children of the caller followed by the search operator, with no child
    in between, however far the index is from the end. *)
Theorem replaceByIndex_beyond_end
    (fuel : nat) (index : string) (expression operator : nat) (h : list Store.cell)
    (c : Combinator) (exps : list QueryEditorExpression)
    (p : QueryEditorProperty) (o : QueryEditorOperator) (lo hi : nat) (n : N) :
  stored h (ArrayExpression c exps) lo hi expression ->
  Store.height (ArrayExpression c exps) <= fuel ->
  h !! operator = Some (Store.COperator p o) ->
  Js.digitsValue index = Some n ->
  (N.of_nat (length exps) <= n < 4294967295)%N ->
  exists where' h',
    Store.replaceByIndex fuel index expression operator h = Some (where', h')
    /\ Store.load (S fuel) h' where'
       = Some (ArrayExpression c (exps ++ [OperatorExpression p o])).
Proof.
  intros Hstored Hfuel Hop Hindex Hn.
  destruct (SpliceFacts.replaceByIndex_splice fuel index expression operator h c exps p o
              lo hi Hstored Hfuel Hop) as (where' & h' & Hreplace & Hload).
  exists where', h'. split; [exact Hreplace|].
  rewrite Hload, (SpliceFacts.keys_of_digits index n Hindex), SpliceFacts.splice_last.
  unfold Store.arrayIndex.
  destruct (Z.leb_spec 0 (Z.of_N n)) as [_|Hneg]; [|lia].
  destruct (Z.ltb_spec (Z.of_N n) 4294967295) as [_|Hbig]; [|lia]. simpl.
  destruct (Nat.ltb_spec (Z.to_nat (Z.of_N n)) (length exps)) as [Hlt|_];
    [lia|reflexivity].
Qed.

Lemma replaceByIndex_beyond_end_witness :
  exists where' h',
    Store.replaceByIndex 2 "7" 3 4 callerStore = Some (where', h')
    /\ Store.load 3 h' where'
       = Some (ArrayExpression And
                 ([filterA; filterB]
                  ++ [OperatorExpression (mkProperty "c" QueryEditorPropertyType.String)
                                         (mkOperator "==" (VScalar ""))])).
Proof.
  apply (replaceByIndex_beyond_end 2 "7" 3 4 callerStore And [filterA; filterB]
           (mkProperty "c" QueryEditorPropertyType.String)
           (mkOperator "==" (VScalar "")) 0 4 7%N).
  - exists 2, [Some 0; Some 1], 2. simpl.
    split; [exists 1; split; [split; [lia|reflexivity]|];
            exists 2; split; [split; [lia|reflexivity]|lia]|].
    split; [lia|]. split; [lia|]. split; reflexivity.
  - simpl. lia.
  - reflexivity.
  - reflexivity.
  - simpl. lia.
Defined.

(** X27. An index written in decimal digits whose value is below the
    number of children makes [replaceByIndex] return the tree of the
    caller with the child of that index replaced by the search operator,
    and every other child as it was. *)
Theorem replaceByIndex_decimal_index
    (fuel : nat) (index : string) (expression operator : nat) (h : list Store.cell)
    (c : Combinator) (exps : list QueryEditorExpression)
    (p : QueryEditorProperty) (o : QueryEditorOperator) (lo hi : nat) (n : N) :
  stored h (ArrayExpression c exps) lo hi expression ->
  Store.height (ArrayExpression c exps) <= fuel ->
  h !! operator = Some (Store.COperator p o) ->
  Js.digitsValue index = Some n ->
  (n < N.of_nat (length exps))%N ->
  (n < 4294967295)%N ->
  exists where' h',
    Store.replaceByIndex fuel index expression operator h = Some (where', h')
    /\ Store.load (S fuel) h' where'
       = Some (ArrayExpression c (<[N.to_nat n := OperatorExpression p o]> exps)).
Proof.
  intros Hstored Hfuel Hop Hindex Hn Hbound.
  destruct (SpliceFacts.replaceByIndex_splice fuel index expression operator h c exps p o
              lo hi Hstored Hfuel Hop) as (where' & h' & Hreplace & Hload).
  exists where', h'. split; [exact Hreplace|].
  rewrite Hload, (SpliceFacts.keys_of_digits index n Hindex), SpliceFacts.splice_last.
  unfold Store.arrayIndex.
  destruct (Z.leb_spec 0 (Z.of_N n)) as [_|Hneg]; [|lia].
  destruct (Z.ltb_spec (Z.of_N n) 4294967295) as [_|Hbig]; [|lia]. simpl.
  replace (Z.to_nat (Z.of_N n)) with (N.to_nat n) by lia.
  destruct (Nat.ltb_spec (N.to_nat n) (length exps)) as [_|Hge]; [reflexivity|lia].
Qed.

Lemma replaceByIndex_decimal_index_witness :
  exists where' h',
    Store.replaceByIndex 2 "0" 3 4 callerStore = Some (where', h')
    /\ Store.load 3 h' where'
       = Some (ArrayExpression And
                 [OperatorExpression (mkProperty "c" QueryEditorPropertyType.String)
                                     (mkOperator "==" (VScalar ""));
                  filterB]).
Proof.
  apply (replaceByIndex_decimal_index 2 "0" 3 4 callerStore And [filterA; filterB]
           (mkProperty "c" QueryEditorPropertyType.String)
           (mkOperator "==" (VScalar "")) 0 4 0%N).
  - exists 2, [Some 0; Some 1], 2. simpl.
    split; [exists 1; split; [split; [lia|reflexivity]|];
            exists 2; split; [split; [lia|reflexivity]|lia]|].
    split; [lia|]. split; [lia|]. split; reflexivity.
  - simpl. lia.
  - reflexivity.
  - reflexivity.
  - simpl. lia.
  - lia.
Defined.
